(** * The match-3 board engine of [game.ts]

    A shallow embedding of the engine part of [src/game.ts]: board
    initialisation ([initBoard], [getSafeRandomGem]), match detection
    ([findMatches]), removal ([removeMatches]), gravity and refill
    ([collapseBoard]), the local swap test ([hasChainOfThree]) and the
    [mousedown] / [mouseup] handlers that drive them.

    The handlers are those of [game.ts], where [mouseup] runs the whole
    cascade before it returns; the animation started by each iteration runs
    later, on animation frames, and writes [renderY] only.

    Modelling decisions.
    - [GemType] is the union type [0 | 1 | 2 | 3 | 4]; a gem's [type] field
      is [GemType | null], here [option GemType].
    - The board is the array of rows [board[y][x]]: a list of lists, read
      with stdpp's lookup and written with [alter] / insert.  Every slot of
      the board receives either a freshly allocated object (an object
      literal or a spread copy) or the very object it held before (the
      revert of a swap), so no gem object is ever reachable from two slots
      and a write through [board[y][x].type] touches that slot alone; gems
      are therefore values stored in their slot.
    - [Math.random] is the only source of nondeterminism.  A run of the
      program is taken relative to the sequence [rng : nat -> GemType] of
      the values [Math.floor(Math.random() * 5)] takes at its successive
      calls; [rngPos] counts the calls made so far.
    - The two unbounded loops ([while (true)] in [getSafeRandomGem] and the
      cascade [while (matches.length > 0)]) take a fuel argument; [None]
      means that the loop has not returned within that many iterations.
    - The canvas, the images and the animation ([renderY], written only by
      [collapseBoard] and [animateFalling] and read only by the drawing
      code) are left out; [collapseBoard]'s return value is the animation's
      work list and is left out with it.
    - All array accesses of the engine are in range on an 8 x 8 board; the
      lookups of the model return [None] outside the grid, where the
      program would read [undefined]. *)

From stdpp Require Import base option list.
From Stdlib Require Import ZArith Lia.

Open Scope nat_scope.

(** ** Data model *)

Definition GRID_SIZE : nat := 8.

Inductive GemType : Type := T0 | T1 | T2 | T3 | T4.

#[global] Instance GemType_eq_dec : EqDecision GemType.
Proof. solve_decision. Defined.

(** [interface Gem { x; y; type; selected? }] *)
Record Gem : Type := mkGem {
  gem_x : nat;
  gem_y : nat;
  gem_type : option GemType;
  gem_selected : option bool;
}.

#[global] Instance Gem_eq_dec : EqDecision Gem.
Proof. solve_decision. Defined.

Definition Board : Type := list (list Gem).

(** The values of [Math.floor(Math.random() * 5)], call after call. *)
Definition Rng : Type := nat -> GemType.

(** The global variables of the module that the engine reads and writes. *)
Record Engine : Type := mkEngine {
  board : Board;
  totalScore : nat;
  selectedGem : option Gem;
  isDragging : bool;
  rngPos : nat;
}.

(** ** Array access *)

(** Reading and writing a slot of an array of rows. *)
Section Grid.
Context {A : Type}.

(** [m[y][x]] *)
Definition grid_get (m : list (list A)) (y x : nat) : option A :=
  m !! y ≫= fun row => row !! x.

(** [m[y][x] = v] *)
Definition grid_set (m : list (list A)) (y x : nat) (v : A) : list (list A) :=
  alter (fun row => <[x := v]> row) y m.

(** an update of the object held in [m[y][x]] *)
Definition grid_alter (f : A -> A) (m : list (list A)) (y x : nat) : list (list A) :=
  alter (fun row => alter f x row) y m.
End Grid.

(** [board[y][x]] *)
Definition cell (b : Board) (y x : nat) : option Gem := grid_get b y x.

(** [g?.type] for a gem that may be missing *)
Definition optType (o : option Gem) : option GemType := o ≫= gem_type.

(** [board[y][x].type] *)
Definition typeAt (b : Board) (y x : nat) : option GemType :=
  optType (cell b y x).

(** [a === b] on gem types *)
Definition type_eqb (a b : option GemType) : bool := bool_decide (a = b).

(** [board[y][x] = g] *)
Definition setCell (b : Board) (y x : nat) (g : Gem) : Board := grid_set b y x g.

Definition withType (t : option GemType) (g : Gem) : Gem :=
  mkGem (gem_x g) (gem_y g) t (gem_selected g).

(** [board[y][x].type = t] *)
Definition setType (b : Board) (y x : nat) (t : option GemType) : Board :=
  grid_alter (withType t) b y x.

(** ** Loops *)

(** A [for] loop over the indices [idx] whose body may fail to return. *)
Fixpoint for_opt {S : Type} (idx : list nat) (body : nat -> S -> option S)
    (s : S) : option S :=
  match idx with
  | [] => Some s
  | i :: rest =>
      match body i s with
      | Some s' => for_opt rest body s'
      | None => None
      end
  end.

(** A [for] loop over the indices [idx] with a total body. *)
Definition for_each {S : Type} (idx : list nat) (body : nat -> S -> S)
    (s : S) : S :=
  fold_left (fun s i => body i s) idx s.

(** ** Token generator *)

(** [getRandomGemType] *)
Definition getRandomGemType (rng : Rng) (pos : nat) : GemType * nat :=
  (rng pos, S pos).

(** ** Initial board *)

(** [isMatchLeft] of [getSafeRandomGem], for the draw [gemType] *)
Definition isMatchLeft (x : nat) (currentRow : list Gem) (gemType : GemType) : bool :=
  (2 <=? x)
  && type_eqb (optType (currentRow !! (x - 1))) (Some gemType)
  && type_eqb (optType (currentRow !! (x - 2))) (Some gemType).

(** [isMatchUp] of [getSafeRandomGem], for the draw [gemType]; [b] is the
    global [board], which holds the rows above [y] while row [y] is built. *)
Definition isMatchUp (b : Board) (x y : nat) (gemType : GemType) : bool :=
  (2 <=? y)
  && type_eqb (optType (cell b (y - 1) x)) (Some gemType)
  && type_eqb (optType (cell b (y - 2) x)) (Some gemType).

(** [getSafeRandomGem(x, y, currentRow)] *)
Fixpoint getSafeRandomGem (rng : Rng) (fuel : nat) (pos : nat) (b : Board)
    (x y : nat) (currentRow : list Gem) : option (GemType * nat) :=
  match fuel with
  | 0 => None
  | S fuel' =>
      let '(gemType, pos') := getRandomGemType rng pos in
      if negb (isMatchLeft x currentRow gemType) && negb (isMatchUp b x y gemType)
      then Some (gemType, pos')
      else getSafeRandomGem rng fuel' pos' b x y currentRow
  end.

(** The body of the inner loop of [initBoard]: [row.push({x, y, type, selected: false})]. *)
Definition initCell (rng : Rng) (fuel : nat) (b : Board) (y x : nat)
    (s : list Gem * nat) : option (list Gem * nat) :=
  let '(row, pos) := s in
  match getSafeRandomGem rng fuel pos b x y row with
  | Some (t, pos') => Some (row ++ [mkGem x y (Some t) (Some false)], pos')
  | None => None
  end.

(** The body of the outer loop of [initBoard]: build a row, [board.push(row)]. *)
Definition initRow (rng : Rng) (fuel : nat) (y : nat)
    (s : Board * nat) : option (Board * nat) :=
  let '(b, pos) := s in
  match for_opt (seq 0 GRID_SIZE) (initCell rng fuel b y) ([], pos) with
  | Some (row, pos') => Some (b ++ [row], pos')
  | None => None
  end.

(** [initBoard]: returns the new board and the position reached in the
    random sequence. *)
Definition initBoard (rng : Rng) (fuel : nat) (pos : nat) : option (Board * nat) :=
  for_opt (seq 0 GRID_SIZE) (initRow rng fuel) ([], pos).

(** ** Match detection *)

Definition Matched : Type := list (list bool).

(** [matched[y][x] = true] *)
Definition mark (m : Matched) (y x : nat) : Matched := grid_set m y x true.

(** [matched[y][x]] *)
Definition isMarked (m : Matched) (y x : nat) : bool :=
  default false (grid_get m y x).

(** The two scans of [findMatches] are the same code up to the order of
    the two indices.  They are written once, over a line of the board:
    [typeOf k] is the type of the [k]-th cell of the line and [markAt k]
    marks that cell. *)

(** [while (k < GRID_SIZE && <type at k> === type) { <mark k>; k++; }]
    The loop makes at most [GRID_SIZE] iterations, the fuel it is given. *)
Fixpoint extendRun (fuel : nat) (typeOf : nat -> option GemType)
    (markAt : nat -> Matched -> Matched) (type : option GemType)
    (k : nat) (m : Matched) : Matched :=
  match fuel with
  | 0 => m
  | S fuel' =>
      if (k <? GRID_SIZE) && type_eqb (typeOf k) type
      then extendRun fuel' typeOf markAt type (S k) (markAt k m)
      else m
  end.

(** Body of a scan at index [i] of the line. *)
Definition scanLine (typeOf : nat -> option GemType)
    (markAt : nat -> Matched -> Matched) (i : nat) (m : Matched) : Matched :=
  let type := typeOf i in
  if negb (type_eqb type None)
     && type_eqb type (typeOf (i + 1))
     && type_eqb type (typeOf (i + 2))
  then
    extendRun GRID_SIZE typeOf markAt type (i + 3)
      (markAt (i + 2) (markAt (i + 1) (markAt i m)))
  else m.

(** Body of the horizontal scan at [(x, y)]: the line is row [y]. *)
Definition scanHorizontal (b : Board) (y x : nat) (m : Matched) : Matched :=
  scanLine (fun k => typeAt b y k) (fun k m => mark m y k) x m.

(** Body of the vertical scan at [(x, y)]: the line is column [x]. *)
Definition scanVertical (b : Board) (x y : nat) (m : Matched) : Matched :=
  scanLine (fun k => typeAt b k x) (fun k m => mark m k x) y m.

(** The [matched] matrix after both scans. *)
Definition markMatches (b : Board) : Matched :=
  let matched := replicate GRID_SIZE (replicate GRID_SIZE false) in
  let matched :=
    for_each (seq 0 GRID_SIZE) (fun y =>
      for_each (seq 0 (GRID_SIZE - 2)) (fun x => scanHorizontal b y x)) matched in
  for_each (seq 0 GRID_SIZE) (fun x =>
    for_each (seq 0 (GRID_SIZE - 2)) (fun y => scanVertical b x y)) matched.

(** The final double loop of [findMatches]: [result.push(board[y][x])] for
    the marked cells, in raster order. *)
Definition collectMarked (b : Board) (m : Matched) : list Gem :=
  for_each (seq 0 GRID_SIZE) (fun y =>
    for_each (seq 0 GRID_SIZE) (fun x result =>
      if isMarked m y x
      then match cell b y x with Some g => result ++ [g] | None => result end
      else result)) [].

(** [findMatches] *)
Definition findMatches (b : Board) : list Gem :=
  collectMarked b (markMatches b).

(** ** Removal *)

(** [removeMatches(matches)]: [board[gem.y][gem.x].type = null] for each gem. *)
Definition removeMatches (matches : list Gem) (b : Board) : Board :=
  fold_left (fun b gem => setType b (gem_y gem) (gem_x gem) None) matches b.

(** ** Collapse and refill *)

(** Body of the downward scan of column [x] in [collapseBoard], at row [y];
    the state is the board and [emptySpots]. *)
Definition collapseCell (x y : nat) (s : Board * nat) : Board * nat :=
  let '(b, emptySpots) := s in
  match cell b y x with
  | Some gem =>
      match gem_type gem with
      | None => (b, S emptySpots)
      | Some _ =>
          if 0 <? emptySpots then
            let targetY := y + emptySpots in
            let fallingGem := mkGem x targetY (gem_type gem) (gem_selected gem) in
            (setType (setCell b targetY x fallingGem) y x None, emptySpots)
          else (b, emptySpots)
      end
  | None => (b, emptySpots)
  end.

(** Body of the refill loop of column [x], at row [y]: a new gem without a
    [selected] field. *)
Definition refillCell (rng : Rng) (x y : nat) (s : Board * nat) : Board * nat :=
  let '(b, pos) := s in
  let '(t, pos') := getRandomGemType rng pos in
  (setCell b y x (mkGem x y (Some t) None), pos').

(** Body of the loop over the columns in [collapseBoard]. *)
Definition collapseColumn (rng : Rng) (x : nat) (s : Board * nat) : Board * nat :=
  let '(b, pos) := s in
  let '(b1, emptySpots) :=
    for_each (rev (seq 0 GRID_SIZE)) (collapseCell x) (b, 0) in
  for_each (seq 0 emptySpots) (refillCell rng x) (b1, pos).

(** [collapseBoard] *)
Definition collapseBoard (rng : Rng) (b : Board) (pos : nat) : Board * nat :=
  for_each (seq 0 GRID_SIZE) (collapseColumn rng) (b, pos).

(** ** The local swap test *)

(** The counting loops of [hasChainOfThree]: walk over [idx] and count
    until the first cell for which [p] fails ([else break]). *)
Fixpoint countWhile (p : nat -> bool) (idx : list nat) : nat :=
  match idx with
  | [] => 0
  | i :: rest => if p i then S (countWhile p rest) else 0
  end.

(** The two counting loops of one direction in [hasChainOfThree]: [count]
    after walking from index [i] of a line towards index 0 and then
    towards index [GRID_SIZE - 1]. *)
Definition lineCount (typeOf : nat -> option GemType) (i : nat)
    (type : option GemType) : nat :=
  1 + countWhile (fun k => type_eqb (typeOf k) type) (rev (seq 0 i))
    + countWhile (fun k => type_eqb (typeOf k) type)
        (seq (i + 1) (GRID_SIZE - (i + 1))).

(** [hasChainOfThree(x, y, type)] *)
Definition hasChainOfThree (b : Board) (x y : nat) (type : option GemType) : bool :=
  if type_eqb type None then false else
  if 3 <=? lineCount (fun i => typeAt b i x) y type then true else
  if 3 <=? lineCount (fun i => typeAt b y i) x type then true else
  false.

(** ** The resolution loop *)

(** One iteration of the [while (matches.length > 0)] loop of the [mouseup]
    handler, for the matches found on the current board. *)
Definition cascadeStep (rng : Rng) (s : Engine) : Engine :=
  let matches := findMatches (board s) in
  let score := totalScore s + length matches * 100 in
  let b1 := removeMatches matches (board s) in
  let '(b2, pos) := collapseBoard rng b1 (rngPos s) in
  mkEngine b2 score (selectedGem s) (isDragging s) pos.

(** [let matches = findMatches(); while (matches.length > 0) { ...; matches = findMatches(); }] *)
Fixpoint cascade (rng : Rng) (fuel : nat) (s : Engine) : option Engine :=
  if 0 <? length (findMatches (board s)) then
    match fuel with
    | 0 => None
    | S fuel' => cascade rng fuel' (cascadeStep rng s)
    end
  else Some s.

(** ** The event handlers *)

(** The [mousedown] handler, for the cell coordinates
    [x = Math.floor(mouseX / CELL_SIZE)], [y = Math.floor(mouseY / CELL_SIZE)]. *)
Definition mousedown (s : Engine) (x y : Z) : Engine :=
  let gem :=
    if ((0 <=? x) && (0 <=? y))%Z then cell (board s) (Z.to_nat y) (Z.to_nat x)
    else None in
  match gem with
  | Some g => mkEngine (board s) (totalScore s) (Some g) true (rngPos s)
  | None => s
  end.

(** [isAdjacent] of the [mouseup] handler *)
Definition isAdjacent (sel : Gem) (newX newY : Z) : bool :=
  let dx := Z.abs (newX - Z.of_nat (gem_x sel)) in
  let dy := Z.abs (newY - Z.of_nat (gem_y sel)) in
  ((dx =? 1) && (dy =? 0) || (dx =? 0) && (dy =? 1))%Z.

(** The guard of the swap in the [mouseup] handler *)
Definition swapAllowed (sel : Gem) (newX newY : Z) : bool :=
  ((0 <=? newX) && (newX <? Z.of_nat GRID_SIZE)
   && (0 <=? newY) && (newY <? Z.of_nat GRID_SIZE))%Z
  && isAdjacent sel newX newY
  && (negb (newX =? Z.of_nat (gem_x sel))%Z || negb (newY =? Z.of_nat (gem_y sel))%Z).

(** The two assignments under [//Swap gems] *)
Definition swapGems (b : Board) (sel target : Gem) (newX newY : nat) : Board :=
  let b1 :=
    setCell b (gem_y sel) (gem_x sel)
      (mkGem (gem_x sel) (gem_y sel) (gem_type target) (gem_selected target)) in
  setCell b1 newY newX (mkGem newX newY (gem_type sel) (gem_selected sel)).

(** [canMove], read on the board after the swap *)
Definition canMove (b : Board) (sel target : Gem) (newX newY : nat) : bool :=
  hasChainOfThree b newX newY (gem_type sel)
  || hasChainOfThree b (gem_x sel) (gem_y sel) (gem_type target).

(** The two assignments of the [if (!canMove)] branch *)
Definition revertSwap (b : Board) (sel target : Gem) (newX newY : nat) : Board :=
  setCell (setCell b newY newX target) (gem_y sel) (gem_x sel) sel.

(** The end of the [mouseup] handler: [isDragging = false; selectedGem = null]. *)
Definition endDrag (s : Engine) : Engine :=
  mkEngine (board s) (totalScore s) None false (rngPos s).

(** The board is replaced, the other globals are kept. *)
Definition withBoard (s : Engine) (b : Board) : Engine :=
  mkEngine b (totalScore s) (selectedGem s) (isDragging s) (rngPos s).

(** The [mouseup] handler, for the cell coordinates
    [newX = Math.floor(mouseX / CELL_SIZE)], [newY = Math.floor(mouseY / CELL_SIZE)]
    of the pointer.  [None]: the cascade has not returned within [fuel]
    iterations (or [board[newY][newX]] is missing, which no 8 x 8 board
    allows). *)
Definition mouseup (rng : Rng) (fuel : nat) (s : Engine) (newX newY : Z)
    : option Engine :=
  match isDragging s, selectedGem s with
  | true, Some sel =>
      if swapAllowed sel newX newY then
        let nx := Z.to_nat newX in
        let ny := Z.to_nat newY in
        match cell (board s) ny nx with
        | Some targetGem =>
            let b1 := swapGems (board s) sel targetGem nx ny in
            if negb (canMove b1 sel targetGem nx ny) then
              Some (endDrag (withBoard s (revertSwap b1 sel targetGem nx ny)))
            else
              endDrag <$> cascade rng fuel (withBoard s b1)
        | None => None
        end
      else Some (endDrag s)
  | _, _ => Some s
  end.

(** [main], once the images are loaded: the state after [initBoard].
    Before that the board is empty, so that no gem can be selected. *)
Definition start (rng : Rng) (fuel : nat) : option Engine :=
  match initBoard rng fuel 0 with
  | Some (b, pos) => Some (mkEngine b 0 None false pos)
  | None => None
  end.

(** The states the engine can be in between two events. *)
Inductive reachable (rng : Rng) : Engine -> Prop :=
  | reach_start fuel s :
      start rng fuel = Some s -> reachable rng s
  | reach_mousedown s x y :
      reachable rng s -> reachable rng (mousedown s x y)
  | reach_mouseup fuel s newX newY s' :
      reachable rng s -> mouseup rng fuel s newX newY = Some s' ->
      reachable rng s'.

(** ** Vocabulary of the specification *)

(** An array of [GRID_SIZE] rows of [GRID_SIZE] slots. *)
Definition wfGrid {A : Type} (m : list (list A)) : Prop :=
  length m = GRID_SIZE /\ Forall (fun row => length row = GRID_SIZE) m.

Definition wfBoard (b : Board) : Prop := wfGrid b.

(** Every gem stores the coordinates of the slot that holds it. *)
Definition coherent (b : Board) : Prop :=
  forall y x g, cell b y x = Some g -> gem_x g = x /\ gem_y g = y.

(** No slot holds a gem whose type is [null]. *)
Definition fullBoard (b : Board) : Prop :=
  forall y x g, cell b y x = Some g -> gem_type g <> None.

(** The slots of the grid in raster order, as pairs (row, column). *)
Definition positions : list (nat * nat) :=
  y ← seq 0 GRID_SIZE; x ← seq 0 GRID_SIZE; [(y, x)].

(** The cells [lo .. hi] of a line form a run of three or more gems of
    type [t]. *)
Definition lineRun (typeOf : nat -> option GemType) (lo hi : nat) (t : GemType) : Prop :=
  lo + 2 <= hi /\ hi < GRID_SIZE /\ forall k, lo <= k <= hi -> typeOf k = Some t.

Definition hRun (b : Board) (y lo hi : nat) (t : GemType) : Prop :=
  y < GRID_SIZE /\ lineRun (fun k => typeAt b y k) lo hi t.

Definition vRun (b : Board) (x lo hi : nat) (t : GemType) : Prop :=
  x < GRID_SIZE /\ lineRun (fun k => typeAt b k x) lo hi t.

(** The run cannot be extended at either end. *)
Definition maximalRun (typeOf : nat -> option GemType) (lo hi : nat) (t : GemType) : Prop :=
  lineRun typeOf lo hi t
  /\ (lo = 0 \/ typeOf (lo - 1) <> Some t)
  /\ (hi + 1 = GRID_SIZE \/ typeOf (hi + 1) <> Some t).

(** The slot (row [y], column [x]) lies on a horizontal or a vertical run
    of three or more identical gems. *)
Definition inRun (b : Board) (y x : nat) : Prop :=
  (exists lo hi t, hRun b y lo hi t /\ lo <= x <= hi)
  \/ (exists lo hi t, vRun b x lo hi t /\ lo <= y <= hi).

(** The types of column [x], top to bottom. *)
Definition column (b : Board) (x : nat) : list (option GemType) :=
  (fun y => typeAt b y x) <$> seq 0 GRID_SIZE.

(** The occupied cells of a column, top to bottom. *)
Definition occupied (col : list (option GemType)) : list (option GemType) :=
  filter is_Some col.

(** The number of empty cells of a column. *)
Definition emptyCount (col : list (option GemType)) : nat :=
  length (filter (fun t => t = None) col).

(** [n] successive draws from position [pos] of the random sequence. *)
Definition draws (rng : Rng) (pos n : nat) : list (option GemType) :=
  (fun i => Some (rng i)) <$> seq pos n.

(** The number of draws [collapseBoard] makes for the columns left of [x]. *)
Definition drawsBefore (b : Board) (x : nat) : nat :=
  sum_list ((fun x' => emptyCount (column b x')) <$> seq 0 x).

(** The selected gem is the gem that the board holds at its coordinates. *)
Definition selectionOk (s : Engine) : Prop :=
  forall g, selectedGem s = Some g -> cell (board s) (gem_y g) (gem_x g) = Some g.

(** What holds of the board whenever the engine waits for an event. *)
Definition boardOk (b : Board) : Prop :=
  wfBoard b /\ coherent b /\ fullBoard b.

Definition engineOk (s : Engine) : Prop :=
  boardOk (board s) /\ selectionOk s.

(** Executable versions, for concrete boards. *)
Definition checkBoard (b : Board) : bool :=
  bool_decide (length b = GRID_SIZE)
  && forallb (fun row => bool_decide (length row = GRID_SIZE)) b
  && forallb (fun p =>
       match cell b p.1 p.2 with
       | Some g =>
           bool_decide (gem_x g = p.2) && bool_decide (gem_y g = p.1)
           && bool_decide (gem_type g <> None)
       | None => false
       end) positions.

Definition checkEngine (s : Engine) : bool :=
  checkBoard (board s)
  && match selectedGem s with
     | Some g => bool_decide (cell (board s) (gem_y g) (gem_x g) = Some g)
     | None => true
     end.

(** The state after [n] iterations of the cascade loop. *)
Fixpoint iterSteps (rng : Rng) (n : nat) (s : Engine) : Engine :=
  match n with
  | 0 => s
  | S n' => iterSteps rng n' (cascadeStep rng s)
  end.

(** The number of gems matched in iteration [i] of the cascade. *)
Definition matchedAt (rng : Rng) (s : Engine) (i : nat) : nat :=
  length (findMatches (board (iterSteps rng i s))).

(** The draw [t] is accepted by [getSafeRandomGem]. *)
Definition accepted (b : Board) (x y : nat) (currentRow : list Gem) (t : GemType) : bool :=
  negb (isMatchLeft x currentRow t) && negb (isMatchUp b x y t).

Definition allTypes : list GemType := [T0; T1; T2; T3; T4].

(** The loop of [getSafeRandomGem] returns for some amount of fuel. *)
Definition returns {A : Type} (run : nat -> option A) : Prop :=
  exists fuel, is_Some (run fuel).

(** ** Test data *)

Definition gemOfNat (n : nat) : GemType :=
  match n with 0 => T0 | 1 => T1 | 2 => T2 | 3 => T3 | _ => T4 end.

(** The board whose types are given row by row, every gem at its place. *)
Definition boardOf (rows : list (list nat)) : Board :=
  imap (fun y row => imap (fun x n => mkGem x y (Some (gemOfNat n)) (Some false)) row) rows.

(** The target cell is on the grid. *)
Definition inBounds (newX newY : Z) : Prop :=
  (0 <= newX < Z.of_nat GRID_SIZE /\ 0 <= newY < Z.of_nat GRID_SIZE)%Z.

(** The Manhattan distance from the selected gem to the target cell. *)
Definition manhattan (sel : Gem) (newX newY : Z) : Z :=
  (Z.abs (newX - Z.of_nat (gem_x sel)) + Z.abs (newY - Z.of_nat (gem_y sel)))%Z.

(** Two boards hold the same types along row [y] and along column [x]. *)
Definition sameLines (b1 b2 : Board) (y x : nat) : Prop :=
  (forall k, typeAt b1 y k = typeAt b2 y k) /\ (forall k, typeAt b1 k x = typeAt b2 k x).

Definition cyclicRng : Rng := fun n => gemOfNat (n mod 5).
Definition constRng : Rng := fun _ => T0.

Definition sampleBoard : Board :=
  boardOf [ [0;1;2;3;4;0;1;2];
            [1;2;3;4;0;1;2;3];
            [2;3;4;0;1;2;3;4];
            [3;4;0;1;2;3;4;0];
            [0;0;1;0;2;3;4;0];
            [0;1;2;3;4;0;1;2];
            [1;2;3;4;0;1;2;3];
            [2;3;4;0;1;2;3;4] ].


(** ** Vocabulary of the proofs *)

(** The loop fragment [f] of [findMatches] sets exactly the flags of the
    slots in [S] and leaves the other flags as they are. *)
Definition marksOf (f : Matched -> Matched) (S : nat -> nat -> Prop) : Prop :=
  forall m, wfGrid m ->
    wfGrid (f m)
    /\ forall y x, isMarked (f m) y x = true <-> isMarked m y x = true \/ S y x.

(** The flags set by the scan of a line that starts at index [i]. *)
Definition scanned (typeOf : nat -> option GemType) (i k : nat) : Prop :=
  exists t, lineRun typeOf i (i + 2) t
            /\ i <= k < GRID_SIZE /\ forall j, i <= j <= k -> typeOf j = Some t.

(** The slots whose flag is set after the two scans, in raster order. *)
Definition matchedSlots (b : Board) : list (nat * nat) :=
  filter (fun p => isMarked (markMatches b) p.1 p.2 = true) positions.

(** The gems that the last loop of [findMatches] pushes for the slot
    (row [y], column [x]). *)
Definition pushed (b : Board) (m : Matched) (y x : nat) : list Gem :=
  if isMarked m y x then option_list (cell b y x) else [].

(** The types of column [x] from row [from] to the bottom. *)
Definition segment (b : Board) (x from : nat) : list (option GemType) :=
  (fun k => typeAt b k x) <$> seq from (GRID_SIZE - from).

(** A slot of column [x] holds a gem that stores the slot's coordinates,
    or a gem with the coordinates of the gem the slot held in [b]. *)
Definition coordsKept (b b1 : Board) (x : nat) : Prop :=
  forall k g', cell b1 k x = Some g' ->
    (gem_x g' = x /\ gem_y g' = k)
    \/ exists g, cell b k x = Some g /\ gem_x g' = gem_x g /\ gem_y g' = gem_y g.

(** Invariant of the downward scan of column [x] in [collapseBoard], when
    the rows [y .. GRID_SIZE - 1] have been visited. *)
Definition scanInv (b : Board) (x y : nat) (s : Board * nat) : Prop :=
  wfBoard s.1
  /\ (forall y' x', x' <> x -> cell s.1 y' x' = cell b y' x')
  /\ (forall y', y' < y -> cell s.1 y' x = cell b y' x)
  /\ segment s.1 x (y + s.2) = occupied (segment b x y)
  /\ s.2 + length (occupied (segment b x y)) = GRID_SIZE - y
  /\ (s.2 = 0 -> s.1 = b)
  /\ coordsKept b s.1 x.

(** Invariant of the refill loop of column [x], when the rows [0 .. j - 1]
    have been refilled. *)
Definition refillInv (rng : Rng) (b1 : Board) (pos x j : nat) (s : Board * nat) : Prop :=
  wfBoard s.1
  /\ s.2 = pos + j
  /\ (forall y' x', x' <> x -> cell s.1 y' x' = cell b1 y' x')
  /\ (forall y', j <= y' -> cell s.1 y' x = cell b1 y' x)
  /\ (forall y', y' < j -> cell s.1 y' x = Some (mkGem x y' (Some (rng (pos + y'))) None)).

(** What [collapseBoard] has done to column [x] of [b]. *)
Definition columnCollapsed (rng : Rng) (b b' : Board) (pos x : nat) : Prop :=
  column b' x = draws rng pos (emptyCount (column b x)) ++ occupied (column b x)
  /\ (emptyCount (column b x) = 0 -> forall y, cell b' y x = cell b y x).

(** Invariant of the loop over the columns of [collapseBoard], when the
    columns [0 .. k - 1] have been collapsed. *)
Definition collapseInv (rng : Rng) (b : Board) (pos k : nat) (s : Board * nat) : Prop :=
  wfBoard s.1
  /\ s.2 = pos + drawsBefore b k
  /\ (forall y x, k <= x -> cell s.1 y x = cell b y x)
  /\ (forall x, x < k -> columnCollapsed rng b s.1 (pos + drawsBefore b x) x)
  /\ (coherent b -> coherent s.1).

(** The gem at (row [y], column [x]) does not complete a run of three with
    the two gems to its left, nor with the two gems above it. *)
Definition safeAt (b : Board) (y x : nat) : Prop :=
  ~ (2 <= x /\ typeAt b y (x - 1) = typeAt b y x /\ typeAt b y (x - 2) = typeAt b y x)
  /\ ~ (2 <= y /\ typeAt b (y - 1) x = typeAt b y x /\ typeAt b (y - 2) x = typeAt b y x).

(** Invariant of the inner loop of [initBoard] for row [y], when [k] gems
    have been pushed. *)
Definition rowInv (b : Board) (y k : nat) (s : list Gem * nat) : Prop :=
  length s.1 = k
  /\ forall x g, s.1 !! x = Some g ->
       gem_x g = x /\ gem_y g = y
       /\ exists t, gem_type g = Some t
                    /\ isMatchLeft x s.1 t = false /\ isMatchUp b x y t = false.

(** Invariant of the outer loop of [initBoard], when [k] rows have been
    pushed. *)
Definition boardInv (k : nat) (s : Board * nat) : Prop :=
  length s.1 = k
  /\ Forall (fun row => length row = GRID_SIZE) s.1
  /\ coherent s.1
  /\ fullBoard s.1
  /\ forall y x, y < k -> x < GRID_SIZE -> safeAt s.1 y x.

(** ** More test data *)

(** The board that [initBoard] builds from [cyclicRng]. *)
Definition cyclicBoard : Board :=
  boardOf [ [0;1;2;3;4;0;1;2]; [3;4;0;1;2;3;4;0]; [1;2;3;4;0;1;2;3];
            [4;0;1;2;3;4;0;1]; [2;3;4;0;1;2;3;4]; [0;1;2;3;4;0;1;2];
            [3;4;0;1;2;3;4;0]; [1;2;3;4;0;1;2;3] ].

(** The 64 draws that build [sampleBoard], followed by the type 0 for ever. *)
Definition loopRng : Rng := fun n =>
  if n <? 64 then
    gemOfNat (nth n
      [0;1;2;3;4;0;1;2; 1;2;3;4;0;1;2;3; 2;3;4;0;1;2;3;4; 3;4;0;1;2;3;4;0;
       0;0;1;0;2;3;4;0; 0;1;2;3;4;0;1;2; 1;2;3;4;0;1;2;3; 2;3;4;0;1;2;3;4] 0)
  else T0.

(** The engine after [initBoard] under [loopRng], and after a press on the
    gem of column 3, row 4. *)
Definition sampleStart : Engine := mkEngine sampleBoard 0 None false 64.
Definition sampleGem : Gem := mkGem 3 4 (Some T0) (Some false).
Definition samplePressed : Engine := mousedown sampleStart 3 4.

(** The board once the gem is dragged one cell to the left. *)
Definition sampleSwapped : Board :=
  swapGems sampleBoard sampleGem (mkGem 2 4 (Some T1) (Some false)) 2 4.

(** The board that the cascade of [sampleSwapped] reaches under [loopRng]
    after its first iteration, and keeps from then on. *)
Definition loopBoard : Board :=
  imap (fun y row => imap (fun x n =>
          mkGem x y (Some (gemOfNat n)) (if (y =? 0) && (x <? 3) then None else Some false))
        row)
    [ [0;0;0;3;4;0;1;2];
      [0;1;2;4;0;1;2;3];
      [1;2;3;0;1;2;3;4];
      [2;3;4;1;2;3;4;0];
      [3;4;0;1;2;3;4;0];
      [0;1;2;3;4;0;1;2];
      [1;2;3;4;0;1;2;3];
      [2;3;4;0;1;2;3;4] ].

(** A board with a run of five in its top row, which crosses a run of
    three in its leftmost column. *)
Definition crossBoard : Board :=
  boardOf [ [0;0;0;0;0;1;2;3];
            [0;2;3;4;0;1;2;3];
            [0;3;4;0;1;2;3;4];
            [3;4;0;1;2;3;4;0];
            [4;0;1;2;3;4;0;1];
            [0;1;2;3;4;0;1;2];
            [1;2;3;4;0;1;2;3];
            [2;3;4;0;1;2;3;4] ].

(** A board with empty cells in columns 0 and 2. *)
Definition holedBoard : Board :=
  setType (setType (setType sampleBoard 3 0 None) 6 0 None) 5 2 None.

(** ** The return value of [collapseBoard] *)

(** [collapseBoard] returns the list [fallingGems] of the gems it has
    moved or created, for the animation.  Each of them is the object it
    has stored on the board, with a [renderY] field, the height at which
    the animation starts to draw it. *)

Definition CELL_SIZE : Z := 100.

Record FallingGem : Type := mkFalling {
  falling_gem : Gem;
  falling_renderY : Z;
}.

(** Body of the downward scan of column [x] in [collapseBoard], at row [y];
    the state is the board, [emptySpots] and [fallingGems]. *)
Definition collapseCellFalling (x y : nat) (s : Board * nat * list FallingGem)
    : Board * nat * list FallingGem :=
  let '(b, emptySpots, fallingGems) := s in
  match cell b y x with
  | Some gem =>
      match gem_type gem with
      | None => (b, S emptySpots, fallingGems)
      | Some _ =>
          if 0 <? emptySpots then
            let targetY := y + emptySpots in
            let fallingGem := mkGem x targetY (gem_type gem) (gem_selected gem) in
            (setType (setCell b targetY x fallingGem) y x None, emptySpots,
             fallingGems
             ++ [mkFalling fallingGem (Z.of_nat (gem_y gem) * CELL_SIZE)])
          else (b, emptySpots, fallingGems)
      end
  | None => (b, emptySpots, fallingGems)
  end.

(** Body of the refill loop of column [x], at row [y]. *)
Definition refillCellFalling (rng : Rng) (x emptySpots y : nat)
    (s : Board * nat * list FallingGem) : Board * nat * list FallingGem :=
  let '(b, pos, fallingGems) := s in
  let '(t, pos') := getRandomGemType rng pos in
  let gem := mkGem x y (Some t) None in
  (setCell b y x gem, pos',
   fallingGems
   ++ [mkFalling gem (- (Z.of_nat emptySpots - Z.of_nat y + 1) * CELL_SIZE)]).

(** Body of the loop over the columns in [collapseBoard]. *)
Definition collapseColumnFalling (rng : Rng) (x : nat)
    (s : Board * nat * list FallingGem) : Board * nat * list FallingGem :=
  let '(b, pos, fallingGems) := s in
  let '(b1, emptySpots, fallingGems1) :=
    for_each (rev (seq 0 GRID_SIZE)) (collapseCellFalling x) (b, 0, fallingGems) in
  for_each (seq 0 emptySpots) (refillCellFalling rng x emptySpots)
    (b1, pos, fallingGems1).

(** [collapseBoard], with the list it returns. *)
Definition collapseBoardFalling (rng : Rng) (b : Board) (pos : nat)
    : Board * nat * list FallingGem :=
  for_each (seq 0 GRID_SIZE) (collapseColumnFalling rng) (b, pos, []).

(** The falling gem is the gem that the board holds at the coordinates
    the gem stores. *)
Definition onBoard (b : Board) (f : FallingGem) : Prop :=
  cell b (gem_y (falling_gem f)) (gem_x (falling_gem f)) = Some (falling_gem f).

(** The animation starts to draw the gem above its cell. *)
Definition startsAbove (f : FallingGem) : Prop :=
  (falling_renderY f < Z.of_nat (gem_y (falling_gem f)) * CELL_SIZE)%Z.

(** The list holds a gem for the slot (row [y], column [x]). *)
Definition listed (fs : list FallingGem) (y x : nat) : Prop :=
  exists f, f ∈ fs /\ gem_y (falling_gem f) = y /\ gem_x (falling_gem f) = x.

(** Invariant of the downward scan of column [x] with its list, from the
    board [b0] and the list [fs0], when the rows [y .. GRID_SIZE - 1] have
    been visited. *)
Definition fallScanInv (b0 : Board) (fs0 : list FallingGem) (x y : nat)
    (s : Board * nat * list FallingGem) : Prop :=
  scanInv b0 x y s.1
  /\ (forall f, f ∈ s.2 -> onBoard s.1.1 f)
  /\ (forall f, f ∈ s.2 ->
        f ∈ fs0 \/ (gem_x (falling_gem f) = x /\ y + s.1.2 <= gem_y (falling_gem f)
                    /\ (coherent b0 -> startsAbove f)))
  /\ (forall f, f ∈ fs0 -> f ∈ s.2)
  /\ (forall k, y + s.1.2 <= k -> cell s.1.1 k x = cell b0 k x \/ listed s.2 k x)
  /\ (s.1.2 = 0 -> s.2 = fs0).

(** Invariant of the refill loop of column [x] with its list, from the
    board [b1] and the list [fs1], when the rows [0 .. j - 1] have been
    refilled. *)
Definition fallRefillInv (rng : Rng) (b1 : Board) (fs1 : list FallingGem)
    (pos x j : nat) (s : Board * nat * list FallingGem) : Prop :=
  refillInv rng b1 pos x j s.1
  /\ (forall f, f ∈ s.2 -> onBoard s.1.1 f)
  /\ (forall f, f ∈ s.2 ->
        f ∈ fs1 \/ (gem_x (falling_gem f) = x /\ gem_y (falling_gem f) < j
                    /\ startsAbove f))
  /\ (forall f, f ∈ fs1 -> f ∈ s.2)
  /\ (forall k, k < j -> listed s.2 k x)
  /\ (j = 0 -> s.2 = fs1).

(** What one iteration of the loop over the columns does to the list. *)
Definition columnFalls (b b' : Board) (fs fs' : list FallingGem) (x : nat) : Prop :=
  (forall f, f ∈ fs' -> onBoard b' f)
  /\ (forall f, f ∈ fs' ->
        f ∈ fs \/ (gem_x (falling_gem f) = x /\ (coherent b -> startsAbove f)))
  /\ (forall f, f ∈ fs -> f ∈ fs')
  /\ (forall k, cell b' k x = cell b k x \/ listed fs' k x)
  /\ (emptyCount (column b x) = 0 -> fs' = fs).

(** Invariant of the loop over the columns with its list, when the columns
    [0 .. k - 1] have been collapsed. *)
Definition fallInv (rng : Rng) (b : Board) (pos k : nat)
    (s : Board * nat * list FallingGem) : Prop :=
  s.1 = for_each (seq 0 k) (collapseColumn rng) (b, pos)
  /\ collapseInv rng b pos k s.1
  /\ (forall f, f ∈ s.2 -> onBoard s.1.1 f /\ gem_x (falling_gem f) < k)
  /\ (coherent b -> forall f, f ∈ s.2 -> startsAbove f)
  /\ (forall y x, cell s.1.1 y x = cell b y x \/ listed s.2 y x)
  /\ (fullBoard b -> s.2 = []).
(** ** Tests of the model *)

Example findMatches_sample : findMatches sampleBoard = [].
Proof. vm_compute. reflexivity. Qed.

(** ** Arrays of rows *)

Ltac grid_size := unfold GRID_SIZE in *.

Section GridLemmas.
Context {A : Type}.
Implicit Types (m : list (list A)) (v : A).

Lemma grid_get_lt m y x v :
  wfGrid m -> grid_get m y x = Some v -> y < GRID_SIZE /\ x < GRID_SIZE.
Proof.
  intros [Hlen Hrows] Hget. unfold grid_get in Hget.
  destruct (m !! y) as [row|] eqn:Hrow; simpl in Hget; [|done].
  split.
  - apply lookup_lt_Some in Hrow. lia.
  - rewrite Forall_forall in Hrows.
    assert (length row = GRID_SIZE) as <-
      by (apply Hrows, list_elem_of_lookup; eauto).
    by eapply lookup_lt_Some.
Qed.

Lemma wfGrid_get m y x :
  wfGrid m -> y < GRID_SIZE -> x < GRID_SIZE -> is_Some (grid_get m y x).
Proof.
  intros [Hlen Hrows] Hy Hx. unfold grid_get.
  destruct (lookup_lt_is_Some_2 m y) as [row Hrow]; [lia|].
  rewrite Hrow. simpl. apply lookup_lt_is_Some_2.
  rewrite Forall_forall in Hrows.
  rewrite (Hrows row); [done|].
  apply list_elem_of_lookup; eauto.
Qed.

Lemma grid_get_set_eq m y x v :
  is_Some (grid_get m y x) -> grid_get (grid_set m y x v) y x = Some v.
Proof.
  unfold grid_get, grid_set. intros [w Hw].
  rewrite list_lookup_alter_eq.
  destruct (m !! y) as [row|]; simpl in *; [|done].
  apply list_lookup_insert_eq. by eapply lookup_lt_Some.
Qed.

Lemma grid_get_set_ne m y x v y' x' :
  y <> y' \/ x <> x' ->
  grid_get (grid_set m y x v) y' x' = grid_get m y' x'.
Proof.
  unfold grid_get, grid_set. intros Hne.
  destruct (decide (y = y')) as [->|Hy].
  - rewrite list_lookup_alter_eq.
    destruct (m !! y') as [row|]; simpl; [|done].
    apply list_lookup_insert_ne. by destruct Hne.
  - by rewrite list_lookup_alter_ne.
Qed.

Lemma grid_get_alter_eq (f : A -> A) m y x :
  grid_get (grid_alter f m y x) y x = f <$> grid_get m y x.
Proof.
  unfold grid_get, grid_alter. rewrite list_lookup_alter_eq.
  destruct (m !! y) as [row|]; simpl; [|done].
  apply list_lookup_alter_eq.
Qed.

Lemma grid_get_alter_ne (f : A -> A) m y x y' x' :
  y <> y' \/ x <> x' ->
  grid_get (grid_alter f m y x) y' x' = grid_get m y' x'.
Proof.
  unfold grid_get, grid_alter. intros Hne.
  destruct (decide (y = y')) as [->|Hy].
  - rewrite list_lookup_alter_eq.
    destruct (m !! y') as [row|]; simpl; [|done].
    apply list_lookup_alter_ne. by destruct Hne.
  - by rewrite list_lookup_alter_ne.
Qed.

Lemma wfGrid_alter_rows (f : list A -> list A) m y :
  (forall row, length (f row) = length row) ->
  wfGrid m -> wfGrid (alter f y m).
Proof.
  intros Hf [Hlen Hrows]. split; [by rewrite length_alter|].
  rewrite Forall_forall in Hrows. apply Forall_forall.
  intros row Hin. apply list_elem_of_lookup in Hin as [i Hi].
  destruct (decide (y = i)) as [->|Hne].
  - rewrite list_lookup_alter_eq in Hi.
    destruct (m !! i) as [row0|] eqn:Hrow0; simplify_eq/=.
    rewrite Hf. apply Hrows, list_elem_of_lookup; eauto.
  - rewrite list_lookup_alter_ne in Hi by done.
    apply Hrows, list_elem_of_lookup; eauto.
Qed.

Lemma wfGrid_set m y x v : wfGrid m -> wfGrid (grid_set m y x v).
Proof. apply wfGrid_alter_rows. intros. apply length_insert. Qed.

Lemma wfGrid_alter (f : A -> A) m y x : wfGrid m -> wfGrid (grid_alter f m y x).
Proof. apply wfGrid_alter_rows. intros. apply length_alter. Qed.

Lemma grid_ext m1 m2 :
  length m1 = length m2 ->
  (forall y x, grid_get m1 y x = grid_get m2 y x) ->
  m1 = m2.
Proof.
  intros Hlen Hget. apply list_eq. intros y.
  destruct (m1 !! y) as [r1|] eqn:H1, (m2 !! y) as [r2|] eqn:H2.
  - f_equal. apply list_eq. intros x.
    specialize (Hget y x). unfold grid_get in Hget.
    by rewrite H1, H2 in Hget.
  - apply lookup_lt_Some in H1. apply lookup_ge_None in H2. lia.
  - apply lookup_lt_Some in H2. apply lookup_ge_None in H1. lia.
  - done.
Qed.
End GridLemmas.

(** ** Loops *)

Section LoopLemmas.
Context {S : Type}.

Lemma for_each_app (l1 l2 : list nat) (body : nat -> S -> S) s :
  for_each (l1 ++ l2) body s = for_each l2 body (for_each l1 body s).
Proof. unfold for_each. apply fold_left_app. Qed.

Lemma for_each_ext (l : list nat) (f g : nat -> S -> S) s :
  (forall i s, i ∈ l -> f i s = g i s) ->
  for_each l f s = for_each l g s.
Proof.
  revert s. induction l as [|i l IH]; intros s Hfg; [done|].
  unfold for_each in *. simpl. rewrite Hfg by constructor.
  apply IH. intros. apply Hfg. by constructor.
Qed.

(** Invariant of a loop [for (i = 0; i < n; i++)]. *)
Lemma for_each_seq_inv (P : nat -> S -> Prop) n (body : nat -> S -> S) s :
  P 0 s ->
  (forall i s, i < n -> P i s -> P (Datatypes.S i) (body i s)) ->
  P n (for_each (seq 0 n) body s).
Proof.
  intros H0 Hstep. induction n as [|n IH].
  - done.
  - rewrite seq_S, for_each_app. simpl. apply Hstep; [lia|].
    apply IH. intros. apply Hstep; [lia|done].
Qed.

(** Invariant of a loop [for (i = n - 1; i >= 0; i--)]. *)
Lemma for_each_rev_seq_inv (P : nat -> S -> Prop) n (body : nat -> S -> S) s :
  P n s ->
  (forall i s, i < n -> P (Datatypes.S i) s -> P i (body i s)) ->
  P 0 (for_each (rev (seq 0 n)) body s).
Proof.
  revert s. induction n as [|n IH]; intros s Hn Hstep.
  - done.
  - rewrite seq_S, rev_app_distr. simpl.
    apply IH; [apply Hstep; [lia|done]|].
    intros. apply Hstep; [lia|done].
Qed.

(** Invariant of a loop [for (i = 0; i < n; i++)] whose body may not return. *)
Lemma for_opt_seq_inv (P : nat -> S -> Prop) n (body : nat -> S -> option S) s s' :
  for_opt (seq 0 n) body s = Some s' ->
  P 0 s ->
  (forall i s s', i < n -> P i s -> body i s = Some s' -> P (Datatypes.S i) s') ->
  P n s'.
Proof.
  intros Hrun H0 Hstep.
  assert (forall k j s, P j s -> j + k = n ->
            for_opt (seq j k) body s = Some s' -> P n s') as Hgen.
  { induction k as [|k IH]; intros j s1 Hj Hjk Hr; simpl in Hr.
    - simplify_eq. by replace (j + 0) with j by lia.
    - destruct (body j s1) as [s2|] eqn:Hb; [|done].
      apply (IH (Datatypes.S j) s2); [|lia|done].
      apply (Hstep j s1); [lia|done|done]. }
  by apply (Hgen n 0 s).
Qed.
End LoopLemmas.

(** ** Marking *)

Lemma type_eqb_true a b : type_eqb a b = true <-> a = b.
Proof. unfold type_eqb. apply bool_decide_eq_true. Qed.

Lemma type_eqb_false a b : type_eqb a b = false <-> a <> b.
Proof. unfold type_eqb. apply bool_decide_eq_false. Qed.

Lemma isMarked_mark m y x y' x' :
  wfGrid m -> y < GRID_SIZE -> x < GRID_SIZE ->
  isMarked (mark m y x) y' x' = true <-> isMarked m y' x' = true \/ (y' = y /\ x' = x).
Proof.
  intros Hwf Hy Hx. unfold isMarked, mark.
  destruct (decide (y = y' /\ x = x')) as [[-> ->]|Hne].
  - rewrite grid_get_set_eq by by apply wfGrid_get. simpl. tauto.
  - rewrite grid_get_set_ne by (destruct (decide (y = y')); [right; intros ?; by apply Hne|by left]).
    split; [by left|]. intros [?|[-> ->]]; [done|]. by destruct Hne.
Qed.

Lemma marksOf_id : marksOf (fun m => m) (fun _ _ => False).
Proof. intros m Hwf. split; [done|]. tauto. Qed.

Lemma marksOf_mark y x :
  y < GRID_SIZE -> x < GRID_SIZE ->
  marksOf (fun m => mark m y x) (fun y' x' => y' = y /\ x' = x).
Proof.
  intros Hy Hx m Hwf. split; [by apply wfGrid_set|].
  intros. by apply isMarked_mark.
Qed.

Lemma marksOf_compose f g (S T : nat -> nat -> Prop) :
  marksOf f S -> marksOf g T ->
  marksOf (fun m => g (f m)) (fun y x => S y x \/ T y x).
Proof.
  intros Hf Hg m Hwf.
  destruct (Hf m Hwf) as [Hwf1 H1]. destruct (Hg (f m) Hwf1) as [Hwf2 H2].
  split; [done|]. intros y x. rewrite H2, H1. tauto.
Qed.

Lemma marksOf_ext f (S T : nat -> nat -> Prop) :
  marksOf f S -> (forall y x, S y x <-> T y x) -> marksOf f T.
Proof.
  intros Hf HST m Hwf. destruct (Hf m Hwf) as [Hwf1 H1].
  split; [done|]. intros y x. rewrite H1, HST. tauto.
Qed.

Lemma marksOf_for_each (l : list nat) (body : nat -> Matched -> Matched)
    (S : nat -> nat -> nat -> Prop) :
  (forall i, i ∈ l -> marksOf (body i) (S i)) ->
  marksOf (for_each l body) (fun y x => exists i, i ∈ l /\ S i y x).
Proof.
  induction l as [|i l IH]; intros Hbody.
  - eapply marksOf_ext; [apply marksOf_id|]. intros y x. split; [done|].
    intros (i & Hi & _). by apply elem_of_nil in Hi.
  - eapply marksOf_ext.
    + apply (marksOf_compose (body i) (for_each l body)).
      * apply Hbody. constructor.
      * apply IH. intros j Hj. apply Hbody. by constructor.
    + intros y x. simpl. split.
      * intros [H|(j & Hj & H)]; [exists i|exists j]; split; try done; by constructor.
      * intros (j & Hj & H). apply elem_of_cons in Hj as [->|Hj]; [by left|].
        right. eauto.
Qed.

(** The [while] loop that extends a run marks the cells from [k] up to the
    first cell of another type. *)
Lemma marksOf_extendRun fuel typeOf markAt (cellOf : nat -> nat * nat) t k :
  (forall i, i < GRID_SIZE ->
     marksOf (markAt i) (fun y x => (y, x) = cellOf i)) ->
  marksOf (extendRun fuel typeOf markAt t k)
    (fun y x => exists i, (y, x) = cellOf i /\ k <= i < GRID_SIZE /\ i < k + fuel
                          /\ forall j, k <= j <= i -> typeOf j = t).
Proof.
  intros Hmark. revert k. induction fuel as [|fuel IH]; intros k.
  - simpl. eapply marksOf_ext; [apply marksOf_id|].
    intros y x. split; [done|]. intros (i & _ & ? & ? & _). lia.
  - simpl. destruct (k <? GRID_SIZE) eqn:Hk; simpl.
    2:{ eapply marksOf_ext; [apply marksOf_id|].
        intros y x. split; [done|]. intros (i & _ & ? & _).
        apply Nat.ltb_ge in Hk. lia. }
    apply Nat.ltb_lt in Hk.
    destruct (type_eqb (typeOf k) t) eqn:Ht.
    + apply type_eqb_true in Ht.
      eapply marksOf_ext.
      * apply (marksOf_compose (markAt k)); [by apply Hmark|apply (IH (Datatypes.S k))].
      * intros y x. simpl. split.
        -- intros [Hc|(i & Hc & Hi & Hf & Hall)].
           ++ exists k. repeat split; try done; try lia.
              intros j Hj. by replace j with k by lia.
           ++ exists i. repeat split; try done; try lia.
              intros j Hj. destruct (decide (j = k)) as [->|]; [done|].
              apply Hall. lia.
        -- intros (i & Hc & Hi & Hf & Hall).
           destruct (decide (i = k)) as [->|]; [by left|].
           right. exists i. repeat split; try done; try lia.
           intros j Hj. apply Hall. lia.
    + apply type_eqb_false in Ht.
      eapply marksOf_ext; [apply marksOf_id|].
      intros y x. split; [done|]. intros (i & _ & Hi & _ & Hall).
      apply Ht, Hall. lia.
Qed.

(** The scan of a line from index [i] marks the cells [scanned] from [i]. *)
Lemma marksOf_scanLine typeOf markAt (cellOf : nat -> nat * nat) i :
  (forall i, i < GRID_SIZE ->
     marksOf (markAt i) (fun y x => (y, x) = cellOf i)) ->
  i + 2 < GRID_SIZE ->
  marksOf (scanLine typeOf markAt i)
    (fun y x => exists k, (y, x) = cellOf k /\ scanned typeOf i k).
Proof.
  intros Hmark Hi. unfold scanLine.
  destruct (negb (type_eqb (typeOf i) None) && type_eqb (typeOf i) (typeOf (i + 1))
            && type_eqb (typeOf i) (typeOf (i + 2))) eqn:Hcond.
  - apply andb_prop in Hcond as [Hcond H2]. apply andb_prop in Hcond as [H0 H1].
    apply negb_true_iff, type_eqb_false in H0.
    apply type_eqb_true in H1, H2.
    destruct (typeOf i) as [t|] eqn:Hti; [clear H0|done].
    eapply marksOf_ext.
    + apply (marksOf_compose _ (extendRun GRID_SIZE typeOf markAt (Some t) (i + 3))).
      * apply (marksOf_compose _ (markAt (i + 2))).
        -- apply (marksOf_compose (markAt i) (markAt (i + 1))); apply Hmark; lia.
        -- apply Hmark; lia.
      * by apply (marksOf_extendRun _ _ _ cellOf).
    + intros y x. simpl. unfold scanned, lineRun. split.
      * assert (forall j, i <= j <= i + 2 -> typeOf j = Some t) as H012.
        { intros j Hj.
          destruct (decide (j = i)) as [->|]; [done|].
          destruct (decide (j = i + 1)) as [->|]; [done|].
          by replace j with (i + 2) by lia. }
        intros [[[Hc|Hc]|Hc]|(k & Hc & Hk & _ & Hall)].
        -- exists i. split; [done|]. exists t. repeat split; try done; try lia.
           intros j Hj. apply H012. lia.
        -- exists (i + 1). split; [done|]. exists t. repeat split; try done; try lia.
           intros j Hj. apply H012. lia.
        -- exists (i + 2). split; [done|]. exists t. repeat split; try done; try lia.
        -- exists k. split; [done|]. exists t. repeat split; try done; try lia.
           intros j Hj. destruct (decide (j <= i + 2)); [apply H012; lia|].
           apply Hall. lia.
      * intros (k & Hc & t' & (_ & _ & Hrun) & Hk & Hall).
        assert (t' = t) as ->.
        { pose proof (Hrun i ltac:(lia)) as E. rewrite Hti in E. congruence. }
        destruct (decide (k = i)) as [->|]; [by left; left; left|].
        destruct (decide (k = i + 1)) as [->|]; [by left; left; right|].
        destruct (decide (k = i + 2)) as [->|]; [by left; right|].
        right. exists k. repeat split; try done; try lia.
        intros j Hj. apply Hall. lia.
  - eapply marksOf_ext; [apply marksOf_id|].
    intros y x. split; [done|].
    intros (k & _ & t & (_ & _ & Hrun) & _).
    pose proof (Hrun i ltac:(lia)) as E0.
    pose proof (Hrun (i + 1) ltac:(lia)) as E1.
    pose proof (Hrun (i + 2) ltac:(lia)) as E2.
    rewrite E0, E1, E2 in Hcond.
    unfold type_eqb in Hcond.
    repeat case_bool_decide; naive_solver.
Qed.

(** A cell is scanned from some start index iff it lies on a run. *)
Lemma scanned_iff_run typeOf k :
  (exists i, i ∈ seq 0 (GRID_SIZE - 2) /\ scanned typeOf i k)
  <-> exists lo hi t, lineRun typeOf lo hi t /\ lo <= k <= hi.
Proof.
  unfold scanned, lineRun. split.
  - intros (i & Hi & t & (_ & Hi2 & Hrun) & Hk & Hall).
    exists i, (k `max` (i + 2)), t. repeat split; try lia.
    intros j Hj. destruct (decide (j <= k)); [apply Hall; lia|apply Hrun; lia].
  - intros (lo & hi & t & (Hlen & Hhi & Hrun) & Hk).
    exists (k `min` (hi - 2)). split.
    { apply elem_of_seq. grid_size. lia. }
    exists t. repeat split; try lia.
    + intros j Hj. apply Hrun. lia.
    + intros j Hj. apply Hrun. lia.
Qed.
(** ** The [matched] matrix *)

Lemma wfGrid_replicate {A : Type} (v : A) :
  wfGrid (replicate GRID_SIZE (replicate GRID_SIZE v)).
Proof.
  split; [by rewrite length_replicate|].
  apply Forall_forall. intros row Hrow.
  apply elem_of_replicate in Hrow as [-> _]. by rewrite length_replicate.
Qed.

Lemma isMarked_replicate y x :
  isMarked (replicate GRID_SIZE (replicate GRID_SIZE false)) y x = false.
Proof.
  unfold isMarked, grid_get.
  destruct (replicate GRID_SIZE (replicate GRID_SIZE false) !! y) as [row|] eqn:Hrow;
    simpl; [|done].
  apply lookup_replicate in Hrow as [-> _].
  destruct (replicate GRID_SIZE false !! x) as [v|] eqn:Hv; simpl; [|done].
  by apply lookup_replicate in Hv as [-> _].
Qed.

Lemma marksOf_horizontal b :
  marksOf
    (for_each (seq 0 GRID_SIZE) (fun y =>
       for_each (seq 0 (GRID_SIZE - 2)) (fun x => scanHorizontal b y x)))
    (fun y x => exists lo hi t, hRun b y lo hi t /\ lo <= x <= hi).
Proof.
  eapply marksOf_ext.
  - apply marksOf_for_each with
      (S := fun y0 y x => y = y0 /\ y0 < GRID_SIZE /\
              exists i, i ∈ seq 0 (GRID_SIZE - 2) /\ scanned (fun k => typeAt b y0 k) i x).
    intros y0 Hy0. apply elem_of_seq in Hy0.
    eapply marksOf_ext.
    + apply marksOf_for_each with
        (S := fun i y x => exists k, (y, x) = (y0, k) /\ scanned (fun k => typeAt b y0 k) i k).
      intros i Hi. apply elem_of_seq in Hi.
      apply (marksOf_scanLine _ _ (fun k => (y0, k))).
      * intros k Hk. eapply marksOf_ext; [apply (marksOf_mark y0 k); lia|].
        intros y x. cbv beta. split; [by intros [-> ->]|by intros [= -> ->]].
      * grid_size. lia.
    + intros y x. cbv beta. split.
      * intros (i & Hi & k & [= -> ->] & Hs). split; [done|]. split; [lia|]. eauto.
      * intros (-> & _ & i & Hi & Hs). exists i. split; [done|]. eauto.
  - intros y x. cbv beta. unfold hRun. split.
    + intros (y0 & _ & -> & Hy0 & Hs). apply scanned_iff_run in Hs.
      destruct Hs as (lo & hi & t & Hrun & Hk). eauto 10.
    + intros (lo & hi & t & [Hy Hrun] & Hk). exists y.
      split; [apply elem_of_seq; lia|]. split; [done|]. split; [done|].
      apply scanned_iff_run. eauto.
Qed.

Lemma marksOf_vertical b :
  marksOf
    (for_each (seq 0 GRID_SIZE) (fun x =>
       for_each (seq 0 (GRID_SIZE - 2)) (fun y => scanVertical b x y)))
    (fun y x => exists lo hi t, vRun b x lo hi t /\ lo <= y <= hi).
Proof.
  eapply marksOf_ext.
  - apply marksOf_for_each with
      (S := fun x0 y x => x = x0 /\ x0 < GRID_SIZE /\
              exists i, i ∈ seq 0 (GRID_SIZE - 2) /\ scanned (fun k => typeAt b k x0) i y).
    intros x0 Hx0. apply elem_of_seq in Hx0.
    eapply marksOf_ext.
    + apply marksOf_for_each with
        (S := fun i y x => exists k, (y, x) = (k, x0) /\ scanned (fun k => typeAt b k x0) i k).
      intros i Hi. apply elem_of_seq in Hi.
      apply (marksOf_scanLine _ _ (fun k => (k, x0))).
      * intros k Hk. eapply marksOf_ext; [apply (marksOf_mark k x0); lia|].
        intros y x. cbv beta. split; [by intros [-> ->]|by intros [= -> ->]].
      * grid_size. lia.
    + intros y x. cbv beta. split.
      * intros (i & Hi & k & [= -> ->] & Hs). split; [done|]. split; [lia|]. eauto.
      * intros (-> & _ & i & Hi & Hs). exists i. split; [done|]. eauto.
  - intros y x. cbv beta. unfold vRun. split.
    + intros (x0 & _ & -> & Hx0 & Hs). apply scanned_iff_run in Hs.
      destruct Hs as (lo & hi & t & Hrun & Hk). eauto 10.
    + intros (lo & hi & t & [Hx Hrun] & Hk). exists x.
      split; [apply elem_of_seq; lia|]. split; [done|]. split; [done|].
      apply scanned_iff_run. eauto.
Qed.

(** After both scans a flag is set iff its cell lies on a run. *)
Lemma isMarked_markMatches b y x :
  isMarked (markMatches b) y x = true <-> inRun b y x.
Proof.
  unfold markMatches, inRun.
  pose proof (marksOf_compose _ _ _ _ (marksOf_horizontal b) (marksOf_vertical b)) as Hm.
  destruct (Hm _ (wfGrid_replicate false)) as [_ Hiff].
  rewrite Hiff, isMarked_replicate. clear. intuition congruence.
Qed.
(** ** The result of [findMatches] *)

Lemma for_each_push {A : Type} (l : list nat) (F : nat -> list A) (r : list A) :
  for_each l (fun i r => r ++ F i) r = r ++ (l ≫= F).
Proof.
  revert r. induction l as [|i l IH]; intros r.
  - simpl. by rewrite app_nil_r.
  - rewrite bind_cons, app_assoc, <- IH. done.
Qed.

Lemma collectMarked_bind b m :
  collectMarked b m = seq 0 GRID_SIZE ≫= fun y => seq 0 GRID_SIZE ≫= pushed b m y.
Proof.
  unfold collectMarked.
  rewrite (for_each_ext _ _ (fun y r => r ++ (seq 0 GRID_SIZE ≫= pushed b m y))).
  - by rewrite for_each_push.
  - intros y r _.
    rewrite (for_each_ext _ _ (fun x r => r ++ pushed b m y x)).
    + by rewrite for_each_push.
    + intros x r' _. unfold pushed.
      destruct (isMarked m y x); [|by rewrite app_nil_r].
      destruct (cell b y x); simpl; [done|by rewrite app_nil_r].
Qed.

Lemma cell_is_Some b y x :
  wfBoard b -> y < GRID_SIZE -> x < GRID_SIZE -> is_Some (cell b y x).
Proof. apply wfGrid_get. Qed.

Lemma cell_lt b y x g :
  wfBoard b -> cell b y x = Some g -> y < GRID_SIZE /\ x < GRID_SIZE.
Proof. apply grid_get_lt. Qed.

Lemma collect_row b m y (l : list nat) :
  wfBoard b -> y < GRID_SIZE -> (forall x, x ∈ l -> x < GRID_SIZE) ->
  Some <$> (l ≫= pushed b m y)
  = (fun p => cell b p.1 p.2)
      <$> filter (fun p => isMarked m p.1 p.2 = true) (l ≫= fun x => [(y, x)]).
Proof.
  intros Hwf Hy. induction l as [|x l IH]; intros Hl; [done|].
  rewrite !bind_cons, fmap_app, filter_app, fmap_app, IH
    by (intros; apply Hl; by constructor).
  f_equal. unfold pushed. rewrite filter_cons, filter_nil. simpl.
  destruct (isMarked m y x); simpl; [|done].
  destruct (cell_is_Some b y x) as [g Hg]; [done|done|apply Hl; constructor|].
  by rewrite Hg.
Qed.

Lemma collect_rows b m (l : list nat) :
  wfBoard b -> (forall y, y ∈ l -> y < GRID_SIZE) ->
  Some <$> (l ≫= fun y => seq 0 GRID_SIZE ≫= pushed b m y)
  = (fun p => cell b p.1 p.2)
      <$> filter (fun p => isMarked m p.1 p.2 = true)
            (l ≫= fun y => seq 0 GRID_SIZE ≫= fun x => [(y, x)]).
Proof.
  intros Hwf. induction l as [|y l IH]; intros Hl; [done|].
  rewrite !bind_cons, fmap_app, filter_app, fmap_app, IH
    by (intros; apply Hl; by constructor).
  f_equal. apply collect_row; [done|apply Hl; constructor|].
  intros x Hx. apply elem_of_seq in Hx. lia.
Qed.

(** [findMatches] returns the gems of the flagged slots, one entry per slot. *)
Lemma findMatches_slots b :
  wfBoard b ->
  Some <$> findMatches b = (fun p => cell b p.1 p.2) <$> matchedSlots b.
Proof.
  intros Hwf. unfold findMatches, matchedSlots, positions.
  rewrite collectMarked_bind. apply collect_rows; [done|].
  intros y Hy. apply elem_of_seq in Hy. lia.
Qed.

Lemma NoDup_positions : NoDup positions.
Proof. apply (bool_decide_unpack _). by vm_compute. Qed.

Lemma elem_of_positions y x :
  (y, x) ∈ positions <-> y < GRID_SIZE /\ x < GRID_SIZE.
Proof.
  unfold positions. rewrite list_elem_of_bind. split.
  - intros (y' & Hin & Hy'). apply list_elem_of_bind in Hin as (x' & Hin & Hx').
    apply list_elem_of_singleton in Hin as [= -> ->].
    apply elem_of_seq in Hx', Hy'. lia.
  - intros [Hy Hx]. exists y. split; [|apply elem_of_seq; lia].
    apply list_elem_of_bind. exists x. split; [by constructor|apply elem_of_seq; lia].
Qed.

Lemma inRun_lt b y x : inRun b y x -> y < GRID_SIZE /\ x < GRID_SIZE.
Proof.
  intros [(lo & hi & t & (Hy & _ & Hhi & _) & Hx)|(lo & hi & t & (Hx & _ & Hhi & _) & Hy)]; lia.
Qed.

Lemma inRun_type b y x : inRun b y x -> exists t, typeAt b y x = Some t.
Proof.
  intros [(lo & hi & t & (_ & _ & _ & Hrun) & Hx)|(lo & hi & t & (_ & _ & _ & Hrun) & Hy)];
    exists t; by apply Hrun.
Qed.

Lemma elem_of_matchedSlots b y x : (y, x) ∈ matchedSlots b <-> inRun b y x.
Proof.
  unfold matchedSlots. rewrite list_elem_of_filter. simpl.
  rewrite isMarked_markMatches, elem_of_positions. split; [tauto|].
  intros H. split; [done|]. by apply inRun_lt in H.
Qed.

Lemma NoDup_matchedSlots b : NoDup (matchedSlots b).
Proof. apply NoDup_filter, NoDup_positions. Qed.

Lemma elem_of_findMatches b g :
  wfBoard b ->
  g ∈ findMatches b <-> exists y x, inRun b y x /\ cell b y x = Some g.
Proof.
  intros Hwf. pose proof (findMatches_slots b Hwf) as Heq.
  rewrite <- (list_elem_of_fmap_inj Some). rewrite Heq, list_elem_of_fmap. split.
  - intros ([y x] & Hc & Hin). apply elem_of_matchedSlots in Hin. eauto.
  - intros (y & x & Hr & Hc). exists (y, x). split; [done|].
    by apply elem_of_matchedSlots.
Qed.

(** On a coherent board the stored coordinates of the result are the
    flagged slots. *)
Lemma findMatches_coords b :
  wfBoard b -> coherent b ->
  (fun g => (gem_y g, gem_x g)) <$> findMatches b = matchedSlots b.
Proof.
  intros Hwf Hco. pose proof (findMatches_slots b Hwf) as Heq.
  apply list_eq. intros i.
  apply (f_equal (fun l => l !! i)) in Heq. rewrite !list_lookup_fmap in Heq.
  rewrite list_lookup_fmap.
  destruct (findMatches b !! i) as [g|], (matchedSlots b !! i) as [[y x]|];
    simplify_eq/=; [|done].
  symmetry in Heq. apply Hco in Heq as [-> ->]. done.
Qed.

Lemma NoDup_findMatches b :
  wfBoard b -> coherent b -> NoDup (findMatches b).
Proof.
  intros Hwf Hco. apply (NoDup_fmap_1 (fun g => (gem_y g, gem_x g))).
  rewrite findMatches_coords by done. apply NoDup_matchedSlots.
Qed.

Lemma findMatches_nil b :
  wfBoard b -> findMatches b = [] <-> forall y x, ~ inRun b y x.
Proof.
  intros Hwf. split.
  - intros Hnil y x Hr.
    destruct (inRun_lt _ _ _ Hr) as [Hy Hx].
    destruct (cell_is_Some b y x) as [g Hg]; [done..|].
    assert (g ∈ findMatches b) as Hin by (apply elem_of_findMatches; eauto).
    rewrite Hnil in Hin. by apply elem_of_nil in Hin.
  - intros Hno. destruct (findMatches b) as [|g l] eqn:Hl; [done|].
    assert (g ∈ findMatches b) as Hin by (rewrite Hl; constructor).
    apply elem_of_findMatches in Hin as (y & x & Hr & _); [|done].
    by apply Hno in Hr.
Qed.

Lemma length_findMatches b :
  wfBoard b -> length (findMatches b) = length (matchedSlots b).
Proof.
  intros Hwf. pose proof (findMatches_slots b Hwf) as Heq.
  apply (f_equal length) in Heq. by rewrite !length_fmap in Heq.
Qed.
(** ** Reading the board after a write *)

Lemma cell_setCell_eq b y x g :
  is_Some (cell b y x) -> cell (setCell b y x g) y x = Some g.
Proof. apply grid_get_set_eq. Qed.

Lemma cell_setCell_ne b y x g y' x' :
  y <> y' \/ x <> x' -> cell (setCell b y x g) y' x' = cell b y' x'.
Proof. apply grid_get_set_ne. Qed.

Lemma cell_setType_eq b y x t :
  cell (setType b y x t) y x = withType t <$> cell b y x.
Proof. apply grid_get_alter_eq. Qed.

Lemma cell_setType_ne b y x t y' x' :
  y <> y' \/ x <> x' -> cell (setType b y x t) y' x' = cell b y' x'.
Proof. apply grid_get_alter_ne. Qed.

Lemma wfBoard_setCell b y x g : wfBoard b -> wfBoard (setCell b y x g).
Proof. apply wfGrid_set. Qed.

Lemma wfBoard_setType b y x t : wfBoard b -> wfBoard (setType b y x t).
Proof. apply wfGrid_alter. Qed.

Lemma typeAt_cell b y x g : cell b y x = Some g -> typeAt b y x = gem_type g.
Proof. unfold typeAt. by intros ->. Qed.

Lemma wfBoard_length b : wfBoard b -> length b = GRID_SIZE.
Proof. by intros [? _]. Qed.

Lemma board_ext b1 b2 :
  wfBoard b1 -> wfBoard b2 ->
  (forall y x, cell b1 y x = cell b2 y x) -> b1 = b2.
Proof.
  intros [H1 _] [H2 _] Hc. apply grid_ext; [congruence|done].
Qed.

(** ** [removeMatches] *)

Lemma removeMatches_cons g l b :
  removeMatches (g :: l) b = removeMatches l (setType b (gem_y g) (gem_x g) None).
Proof. done. Qed.

Lemma wfBoard_removeMatches l b : wfBoard b -> wfBoard (removeMatches l b).
Proof.
  revert b. induction l as [|g l IH]; intros b Hwf; [done|].
  rewrite removeMatches_cons. by apply IH, wfBoard_setType.
Qed.

Lemma withType_withType t u g : withType t (withType u g) = withType t g.
Proof. done. Qed.

(** [removeMatches] empties the slots named by the stored coordinates of
    the gems it is given, and no other slot. *)
Lemma cell_removeMatches l b y x :
  cell (removeMatches l b) y x
  = (if decide (Exists (fun g => gem_y g = y /\ gem_x g = x) l)
     then withType None <$> cell b y x else cell b y x).
Proof.
  revert b. induction l as [|g l IH]; intros b.
  - rewrite decide_False; [done|]. by intros ?%Exists_nil.
  - rewrite removeMatches_cons, IH.
    destruct (decide (gem_y g = y /\ gem_x g = x)) as [[<- <-]|Hne].
    + rewrite cell_setType_eq.
      rewrite (decide_True (P := Exists _ (g :: l))) by (by left).
      destruct (decide (Exists _ l)); [|done].
      destruct (cell b (gem_y g) (gem_x g)); done.
    + rewrite cell_setType_ne
        by (destruct (decide (gem_y g = y)); [right; intros ?; by apply Hne|by left]).
      destruct (decide (Exists _ l)) as [He|He].
      * rewrite decide_True; [done|]. by right.
      * rewrite decide_False; [done|]. intros [?|?]%Exists_cons; done.
Qed.

Lemma coherent_removeMatches l b : coherent b -> coherent (removeMatches l b).
Proof.
  intros Hco y x g. rewrite cell_removeMatches.
  destruct (decide _); [|apply Hco].
  destruct (cell b y x) as [g0|] eqn:Hg0; [|done].
  intros [= <-]. simpl. by apply Hco.
Qed.

Lemma matched_coords_iff b y x :
  wfBoard b -> coherent b ->
  Exists (fun g => gem_y g = y /\ gem_x g = x) (findMatches b) <-> inRun b y x.
Proof.
  intros Hwf Hco. rewrite Exists_exists. split.
  - intros (g & Hin & <- & <-).
    apply elem_of_findMatches in Hin as (y & x & Hr & Hc); [|done].
    by apply Hco in Hc as [-> ->].
  - intros Hr. destruct (inRun_lt _ _ _ Hr) as [Hy Hx].
    destruct (cell_is_Some b y x) as [g Hg]; [done..|].
    exists g. split; [apply elem_of_findMatches; eauto|].
    apply Hco in Hg as [-> ->]. done.
Qed.

Lemma cell_removeMatches_found b y x :
  wfBoard b -> coherent b -> inRun b y x ->
  cell (removeMatches (findMatches b) b) y x = withType None <$> cell b y x.
Proof.
  intros Hwf Hco Hr. rewrite cell_removeMatches, decide_True; [done|].
  by apply matched_coords_iff.
Qed.

Lemma cell_removeMatches_other b y x :
  wfBoard b -> coherent b -> ~ inRun b y x ->
  cell (removeMatches (findMatches b) b) y x = cell b y x.
Proof.
  intros Hwf Hco Hr. rewrite cell_removeMatches, decide_False; [done|].
  by rewrite matched_coords_iff.
Qed.
(** ** [collapseBoard] *)

Ltac conjs := repeat match goal with |- _ /\ _ => split end.

Lemma segment_cons b x y :
  y < GRID_SIZE -> segment b x y = typeAt b y x :: segment b x (S y).
Proof.
  intros Hy. unfold segment.
  replace (GRID_SIZE - y) with (S (GRID_SIZE - S y)) by lia. done.
Qed.

Lemma segment_ext b1 b2 x from :
  (forall k, from <= k < GRID_SIZE -> typeAt b1 k x = typeAt b2 k x) ->
  segment b1 x from = segment b2 x from.
Proof.
  intros H. unfold segment. apply list_fmap_ext. intros i k Hk.
  apply lookup_seq in Hk as [-> Hi]. apply H. lia.
Qed.

Lemma column_segment b x : column b x = segment b x 0.
Proof. done. Qed.

Lemma length_segment b x y : length (segment b x y) = GRID_SIZE - y.
Proof. unfold segment. by rewrite length_fmap, length_seq. Qed.

Lemma occupied_None l : occupied (None :: l) = occupied l.
Proof.
  unfold occupied. rewrite filter_cons, decide_False; [done|]. by intros [? ?].
Qed.

Lemma occupied_Some t l : occupied (Some t :: l) = Some t :: occupied l.
Proof. unfold occupied. rewrite filter_cons, decide_True; [done|]. by eexists. Qed.

Lemma length_occupied_le l : length (occupied l) <= length l.
Proof. apply length_filter. Qed.

Lemma collapseCell_inv b x y s :
  wfBoard b -> x < GRID_SIZE -> y < GRID_SIZE ->
  scanInv b x (S y) s -> scanInv b x y (collapseCell x y s).
Proof.
  intros Hwf Hx Hy. destruct s as [b1 e].
  intros (Hwf1 & Hother & Habove & Hseg & Hcount & Hsame & Hco). cbn [fst snd] in *.
  unfold collapseCell. rewrite Habove by lia.
  destruct (cell_is_Some b y x Hwf Hy Hx) as [gem Hgem]. rewrite Hgem.
  pose proof (typeAt_cell _ _ _ _ Hgem) as Hty.
  pose proof (segment_cons b x y Hy) as Hsc. rewrite Hty in Hsc.
  destruct (gem_type gem) as [t|] eqn:Ht.
  - destruct (0 <? e) eqn:He.
    + apply Nat.ltb_lt in He.
      assert (y + e < GRID_SIZE) as Hin by lia.
      assert (is_Some (cell b1 (y + e) x)) as Htarget by by apply cell_is_Some.
      unfold scanInv. cbn [fst snd]. rewrite Hsc, occupied_Some. simpl length.
      conjs.
      * by apply wfBoard_setType, wfBoard_setCell.
      * intros y' x' Hne.
        rewrite cell_setType_ne, cell_setCell_ne by (right; congruence).
        by apply Hother.
      * intros y' Hy'.
        rewrite cell_setType_ne, cell_setCell_ne by (left; lia).
        apply Habove. lia.
      * rewrite (segment_cons _ x (y + e) Hin). f_equal.
        -- unfold typeAt. rewrite cell_setType_ne by (left; lia).
           by rewrite cell_setCell_eq.
        -- rewrite <- Hseg. replace (S (y + e)) with (S y + e) by lia.
           apply segment_ext. intros k Hk. unfold typeAt.
           rewrite cell_setType_ne, cell_setCell_ne by (left; lia). done.
      * lia.
      * lia.
      * intros k g'.
        destruct (decide (k = y)) as [->|Hk].
        { rewrite cell_setType_eq, cell_setCell_ne, Habove, Hgem by (lia || left; lia).
          intros [= <-]. right. exists gem. by simpl. }
        rewrite cell_setType_ne by by left.
        destruct (decide (k = y + e)) as [->|Hk'].
        { rewrite cell_setCell_eq by done. intros [= <-]. by left. }
        rewrite cell_setCell_ne by by left. apply Hco.
    + apply Nat.ltb_ge in He. assert (e = 0) as -> by lia.
      unfold scanInv. cbn [fst snd]. rewrite Hsc, occupied_Some. simpl length.
      conjs; try done.
      * intros y' Hy'. by rewrite Hsame.
      * rewrite Nat.add_0_r in *. rewrite (segment_cons _ x y Hy). f_equal.
        -- by rewrite Hsame.
        -- done.
      * lia.
  - unfold scanInv. cbn [fst snd]. rewrite Hsc, occupied_None.
    conjs; try done.
    + intros y' Hy'. apply Habove. lia.
    + by replace (y + S e) with (S y + e) by lia.
    + lia.
Qed.

(** The downward scan of column [x]. *)
Lemma collapse_scan b x :
  wfBoard b -> x < GRID_SIZE ->
  scanInv b x 0 (for_each (rev (seq 0 GRID_SIZE)) (collapseCell x) (b, 0)).
Proof.
  intros Hwf Hx.
  apply (for_each_rev_seq_inv (scanInv b x)).
  - unfold scanInv. cbn [fst snd]. conjs; try done.
    intros k g' Hg'. right. eauto.
  - intros y s Hy. by apply collapseCell_inv.
Qed.

Lemma refillCell_inv rng b1 pos x j s :
  x < GRID_SIZE -> j < GRID_SIZE ->
  refillInv rng b1 pos x j s -> refillInv rng b1 pos x (S j) (refillCell rng x j s).
Proof.
  intros Hx Hj. destruct s as [b2 p].
  intros (Hwf & Hp & Hother & Hbelow & Hdone). cbn [fst snd] in *. subst p.
  unfold refillInv, refillCell, getRandomGemType. simpl. conjs.
  - by apply wfBoard_setCell.
  - lia.
  - intros y' x' Hne. rewrite cell_setCell_ne by (right; congruence). by apply Hother.
  - intros y' Hy'. rewrite cell_setCell_ne by (left; lia). apply Hbelow. lia.
  - intros y' Hy'. destruct (decide (y' = j)) as [->|Hne].
    + rewrite cell_setCell_eq; [done|]. by apply cell_is_Some.
    + rewrite cell_setCell_ne by (left; lia). apply Hdone. lia.
Qed.

Lemma collapse_refill rng b1 pos x n :
  wfBoard b1 -> x < GRID_SIZE -> n <= GRID_SIZE ->
  refillInv rng b1 pos x n (for_each (seq 0 n) (refillCell rng x) (b1, pos)).
Proof.
  intros Hwf Hx Hn.
  apply (for_each_seq_inv (refillInv rng b1 pos x)).
  - unfold refillInv. cbn [fst snd]. conjs; try done; try lia.
  - intros j s Hj. apply refillCell_inv; [done|lia].
Qed.

Lemma draws_shift rng pos n :
  draws rng pos n = (fun y => Some (rng (pos + y))) <$> seq 0 n.
Proof.
  unfold draws. apply list_eq. intros i. rewrite !list_lookup_fmap.
  destruct (decide (i < n)).
  - by rewrite !lookup_seq_lt.
  - by rewrite !lookup_seq_ge by lia.
Qed.

Lemma emptyCount_occupied col :
  emptyCount col + length (occupied col) = length col.
Proof.
  unfold emptyCount, occupied. induction col as [|t col IH]; [done|].
  rewrite !filter_cons. destruct t as [t|].
  - rewrite decide_False by done. rewrite decide_True by by eexists. simpl. lia.
  - rewrite decide_True by done. rewrite decide_False by by intros [? ?]. simpl. lia.
Qed.

Lemma emptyCount_segment b x e :
  e + length (occupied (segment b x 0)) = GRID_SIZE - 0 ->
  emptyCount (column b x) = e.
Proof.
  pose proof (emptyCount_occupied (column b x)) as H.
  rewrite column_segment, length_segment in *. lia.
Qed.

(** One iteration of the loop over the columns. *)
Lemma collapseColumn_spec rng b pos x :
  wfBoard b -> x < GRID_SIZE ->
  let s' := collapseColumn rng x (b, pos) in
  wfBoard s'.1
  /\ s'.2 = pos + emptyCount (column b x)
  /\ (forall y x', x' <> x -> cell s'.1 y x' = cell b y x')
  /\ columnCollapsed rng b s'.1 pos x
  /\ (emptyCount (column b x) = 0 -> s'.1 = b)
  /\ (coherent b -> coherent s'.1).
Proof.
  intros Hwf Hx. unfold collapseColumn.
  pose proof (collapse_scan b x Hwf Hx) as Hscan.
  destruct (for_each (rev (seq 0 GRID_SIZE)) (collapseCell x) (b, 0)) as [b1 e].
  destruct Hscan as (Hwf1 & Hother1 & _ & Hseg & Hcount & Hsame & Hco1).
  cbn [fst snd] in *.
  pose proof (emptyCount_segment _ _ _ Hcount) as HE.
  assert (e <= GRID_SIZE) as He by lia.
  pose proof (collapse_refill rng b1 pos x e Hwf1 Hx He) as Hrefill.
  destruct (for_each (seq 0 e) (refillCell rng x) (b1, pos)) as [b2 p].
  destruct Hrefill as (Hwf2 & Hp & Hother2 & Hbelow & Hdone). cbn [fst snd] in *.
  unfold columnCollapsed. rewrite HE. conjs.
  - done.
  - done.
  - intros y x' Hne. rewrite Hother2, Hother1; done.
  - rewrite (column_segment b), <- Hseg, draws_shift.
    unfold column, segment.
    replace (seq 0 GRID_SIZE) with (seq 0 e ++ seq (0 + e) (GRID_SIZE - e))
      by (rewrite <- seq_app; f_equal; lia).
    rewrite fmap_app. f_equal.
    + apply list_fmap_ext. intros i k Hk. apply lookup_seq in Hk as [-> Hi].
      unfold typeAt. by rewrite Hdone by lia.
    + apply list_fmap_ext. intros i k Hk. apply lookup_seq in Hk as [-> Hi].
      unfold typeAt. by rewrite Hbelow by lia.
  - intros -> y. rewrite Hbelow by lia. by rewrite Hsame.
  - intros ->. apply board_ext; [done..|].
    intros y x'. destruct (decide (x' = x)) as [->|Hne].
    + rewrite Hbelow by lia. by rewrite Hsame.
    + rewrite Hother2 by done. by rewrite Hsame.
  - intros Hcoh y x' g Hg.
    destruct (decide (x' = x)) as [->|Hne].
    + destruct (decide (y < e)) as [Hlt|Hge].
      * rewrite Hdone in Hg by done. by simplify_eq/=.
      * rewrite Hbelow in Hg by lia.
        destruct (Hco1 _ _ Hg) as [?|(g0 & Hg0 & -> & ->)]; [done|].
        by apply Hcoh.
    + rewrite Hother2, Hother1 in Hg by done. by apply Hcoh.
Qed.
Lemma drawsBefore_S b k :
  drawsBefore b (S k) = drawsBefore b k + emptyCount (column b k).
Proof.
  unfold drawsBefore. rewrite seq_S, fmap_app, sum_list_with_app. simpl. lia.
Qed.

Lemma column_ext b1 b2 x :
  (forall y, cell b1 y x = cell b2 y x) -> column b1 x = column b2 x.
Proof.
  intros H. unfold column. apply list_fmap_ext. intros i y _.
  unfold typeAt. by rewrite H.
Qed.

Lemma collapseColumn_inv rng b pos k s :
  wfBoard b -> k < GRID_SIZE ->
  collapseInv rng b pos k s -> collapseInv rng b pos (S k) (collapseColumn rng k s).
Proof.
  intros Hwf Hk. destruct s as [bk p].
  intros (Hwfk & Hp & Hright & Hleft & Hco). cbn [fst snd] in *.
  pose proof (collapseColumn_spec rng bk p k Hwfk Hk) as Hspec.
  destruct (collapseColumn rng k (bk, p)) as [b' p'].
  cbn [fst snd] in Hspec.
  destruct Hspec as (Hwf' & Hp' & Hother & [Hcol Hkeep] & _ & Hco').
  assert (column bk k = column b k) as Hsame
    by (apply column_ext; intros; apply Hright; lia).
  rewrite Hsame in *.
  unfold collapseInv. cbn [fst snd]. conjs.
  - done.
  - rewrite drawsBefore_S. lia.
  - intros y x Hx. rewrite Hother by lia. apply Hright. lia.
  - intros x Hx. destruct (decide (x = k)) as [->|Hne].
    + split; [by rewrite Hcol, Hp|].
      intros HE y. rewrite Hkeep by done. apply Hright. lia.
    + destruct (Hleft x ltac:(lia)) as [Hc Hk'].
      split.
      * rewrite <- Hc. apply column_ext. intros. by apply Hother.
      * intros HE y. rewrite Hother by done. by apply Hk'.
  - intros Hcoh. by apply Hco', Hco.
Qed.

(** The loop over the columns, complete. *)
Lemma collapseBoard_inv rng b pos :
  wfBoard b -> collapseInv rng b pos GRID_SIZE (collapseBoard rng b pos).
Proof.
  intros Hwf. unfold collapseBoard.
  apply (for_each_seq_inv (collapseInv rng b pos)).
  - unfold collapseInv, drawsBefore. cbn [fst snd]. conjs; try done; try lia.
  - intros k s Hk. by apply collapseColumn_inv.
Qed.

Lemma wfBoard_collapseBoard rng b pos :
  wfBoard b -> wfBoard (collapseBoard rng b pos).1.
Proof. intros Hwf. by destruct (collapseBoard_inv rng b pos Hwf) as (? & _). Qed.

Lemma coherent_collapseBoard rng b pos :
  wfBoard b -> coherent b -> coherent (collapseBoard rng b pos).1.
Proof.
  intros Hwf Hco. destruct (collapseBoard_inv rng b pos Hwf) as (_ & _ & _ & _ & H).
  by apply H.
Qed.

Lemma column_lookup b x y :
  y < GRID_SIZE -> column b x !! y = Some (typeAt b y x).
Proof.
  intros Hy. unfold column. by rewrite list_lookup_fmap, lookup_seq_lt.
Qed.

Lemma Forall_is_Some_collapsed rng pos n col :
  Forall is_Some (draws rng pos n ++ occupied col).
Proof.
  apply Forall_app. split.
  - unfold draws. apply Forall_fmap, Forall_forall. intros i _. by eexists.
  - unfold occupied. apply Forall_forall. intros t Ht.
    by apply list_elem_of_filter in Ht as [? _].
Qed.

Lemma fullBoard_collapseBoard rng b pos :
  wfBoard b -> fullBoard (collapseBoard rng b pos).1.
Proof.
  intros Hwf. destruct (collapseBoard_inv rng b pos Hwf) as (Hwf' & _ & _ & Hcols & _).
  intros y x g Hg.
  destruct (cell_lt _ _ _ _ Hwf' Hg) as [Hy Hx].
  destruct (Hcols x Hx) as [Hcol _].
  pose proof (column_lookup (collapseBoard rng b pos).1 x y Hy) as Hl.
  rewrite Hcol, (typeAt_cell _ _ _ _ Hg) in Hl.
  pose proof (Forall_is_Some_collapsed rng (pos + drawsBefore b x)
                (emptyCount (column b x)) (column b x)) as Hall.
  rewrite Forall_forall in Hall.
  destruct (Hall (gem_type g)) as [t Ht]; [by eapply list_elem_of_lookup_2|].
  by rewrite Ht.
Qed.
(** ** [initBoard] *)

Lemma getSafeRandomGem_Some rng fuel pos b x y row t pos' :
  getSafeRandomGem rng fuel pos b x y row = Some (t, pos') ->
  isMatchLeft x row t = false /\ isMatchUp b x y t = false.
Proof.
  revert pos. induction fuel as [|fuel IH]; intros pos; [done|].
  simpl.
  destruct (negb (isMatchLeft x row (rng pos)) && negb (isMatchUp b x y (rng pos)))
    eqn:Hacc.
  - intros [= <- <-]. apply andb_prop in Hacc as [H1 H2].
    by apply negb_true_iff in H1, H2.
  - apply IH.
Qed.

Lemma isMatchLeft_snoc x row g t :
  x <= length row -> isMatchLeft x (row ++ [g]) t = isMatchLeft x row t.
Proof.
  intros Hx. unfold isMatchLeft.
  destruct (2 <=? x) eqn:H2; [|done]. apply Nat.leb_le in H2.
  by rewrite !lookup_app_l by lia.
Qed.

Lemma initCell_inv rng fuel b y x s s' :
  rowInv b y x s -> initCell rng fuel b y x s = Some s' -> rowInv b y (S x) s'.
Proof.
  destruct s as [row pos]. intros [Hlen Hrow]. cbn [fst snd] in *.
  unfold initCell.
  destruct (getSafeRandomGem rng fuel pos b x y row) as [[t pos']|] eqn:Hget; [|done].
  intros [= <-]. apply getSafeRandomGem_Some in Hget as [HL HU].
  split; cbn [fst snd].
  - rewrite length_app. simpl. lia.
  - intros x' g Hg. apply lookup_app_Some in Hg as [Hg|[Hge Hg]].
    + pose proof (lookup_lt_Some _ _ _ Hg) as Hlt.
      destruct (Hrow x' g Hg) as (? & ? & t' & ? & ? & ?).
      split; [done|]. split; [done|]. exists t'.
      rewrite isMatchLeft_snoc by lia. done.
    + rewrite Hlen in *.
      destruct (x' - x) as [|d] eqn:Hd; simpl in Hg; [|by destruct d].
      assert (x' = x) as -> by lia. simplify_eq. simpl.
      split; [done|]. split; [done|]. exists t.
      rewrite isMatchLeft_snoc by lia. done.
Qed.

Lemma cell_snoc b row y x :
  cell (b ++ [row]) y x
  = if decide (y < length b) then cell b y x
    else if decide (y = length b) then row !! x else None.
Proof.
  unfold cell, grid_get. destruct (decide (y < length b)) as [Hlt|Hge].
  - by rewrite lookup_app_l.
  - rewrite lookup_app_r by lia.
    destruct (decide (y = length b)) as [->|Hne].
    + by rewrite Nat.sub_diag.
    + destruct (y - length b) as [|d] eqn:Hd; [lia|]. by destruct d.
Qed.

Lemma typeAt_snoc_old b row y x :
  y < length b -> typeAt (b ++ [row]) y x = typeAt b y x.
Proof. intros Hy. unfold typeAt. by rewrite cell_snoc, decide_True. Qed.

Lemma typeAt_snoc_new b row x :
  typeAt (b ++ [row]) (length b) x = optType (row !! x).
Proof.
  unfold typeAt. rewrite cell_snoc, decide_False by lia. by rewrite decide_True.
Qed.

Lemma initRow_inv rng fuel y s s' :
  boardInv y s -> initRow rng fuel y s = Some s' -> boardInv (S y) s'.
Proof.
  destruct s as [b pos]. intros (Hlen & Hrows & Hco & Hfull & Hsafe).
  cbn [fst snd] in *. unfold initRow.
  destruct (for_opt (seq 0 GRID_SIZE) (initCell rng fuel b y) ([], pos))
    as [[row pos']|] eqn:Hloop; [|done].
  intros [= <-].
  assert (rowInv b y GRID_SIZE (row, pos')) as [Hrlen Hrow].
  { apply (for_opt_seq_inv (rowInv b y) _ _ _ _ Hloop).
    - split; [done|]. by intros x g Hg.
    - intros i s s' _. apply initCell_inv. }
  cbn [fst snd] in *. unfold boardInv. cbn [fst snd]. conjs.
  - rewrite length_app. simpl. lia.
  - apply Forall_app. split; [done|]. by apply Forall_singleton.
  - intros y' x g. rewrite cell_snoc. repeat case_decide; [apply Hco| |done].
    subst y'. intros Hg. destruct (Hrow x g Hg) as (? & ? & _). split; [done|lia].
  - intros y' x g. rewrite cell_snoc. repeat case_decide; [apply Hfull| |done].
    intros Hg. destruct (Hrow x g Hg) as (_ & _ & t & -> & _). done.
  - intros y' x Hy' Hx. destruct (decide (y' < y)) as [Hlt|Hge].
    + pose proof (Hsafe y' x Hlt Hx) as Hs. unfold safeAt in *.
      by rewrite !typeAt_snoc_old by lia.
    + assert (y' = y) as -> by lia. subst y.
      destruct (lookup_lt_is_Some_2 row x) as [g Hg]; [lia|].
      destruct (Hrow x g Hg) as (_ & _ & t & Ht & HL & HU).
      unfold safeAt. rewrite !typeAt_snoc_new, Hg. simpl. rewrite Ht.
      split.
      * intros (H2 & H1 & H0). unfold isMatchLeft in HL.
        rewrite H1, H0 in HL. unfold type_eqb in HL.
        rewrite !bool_decide_eq_true_2 in HL by done.
        apply Nat.leb_le in H2. by rewrite H2 in HL.
      * intros (H2 & H1 & H0). rewrite !typeAt_snoc_old in H1, H0 by lia.
        unfold isMatchUp in HU. unfold typeAt in H1, H0.
        rewrite H1, H0 in HU. unfold type_eqb in HU.
        rewrite !bool_decide_eq_true_2 in HU by done.
        apply Nat.leb_le in H2. by rewrite H2 in HU.
Qed.

Lemma initBoard_inv rng fuel pos b pos' :
  initBoard rng fuel pos = Some (b, pos') -> boardInv GRID_SIZE (b, pos').
Proof.
  intros Hinit. unfold initBoard in Hinit.
  apply (for_opt_seq_inv boardInv _ _ _ _ Hinit).
  - unfold boardInv. cbn [fst snd]. conjs; try done. intros; lia.
  - intros i s s' _. apply initRow_inv.
Qed.

(** A board that is safe at every slot has no run. *)
Lemma safe_no_run b y x :
  (forall y x, y < GRID_SIZE -> x < GRID_SIZE -> safeAt b y x) -> ~ inRun b y x.
Proof.
  intros Hsafe [(lo & hi & t & (Hy & Hlen & Hhi & Hrun) & _)
               |(lo & hi & t & (Hx & Hlen & Hhi & Hrun) & _)].
  - destruct (Hsafe y (lo + 2)) as [HL _]; [done|lia|]. apply HL.
    replace (lo + 2 - 1) with (lo + 1) by lia.
    replace (lo + 2 - 2) with lo by lia.
    rewrite !Hrun by lia. split; [lia|done].
  - destruct (Hsafe (lo + 2) x) as [_ HU]; [lia|done|]. apply HU.
    replace (lo + 2 - 1) with (lo + 1) by lia.
    replace (lo + 2 - 2) with lo by lia.
    rewrite !Hrun by lia. split; [lia|done].
Qed.

Lemma initBoard_wf rng fuel pos b pos' :
  initBoard rng fuel pos = Some (b, pos') ->
  wfBoard b /\ coherent b /\ fullBoard b.
Proof.
  intros H. apply initBoard_inv in H as (Hlen & Hrows & Hco & Hfull & _).
  cbn [fst] in *. split; [by split|]. by split.
Qed.
(** ** The rejection loop of [getSafeRandomGem] *)

Lemma getSafeRandomGem_step rng fuel pos b x y row :
  getSafeRandomGem rng (S fuel) pos b x y row
  = if accepted b x y row (rng pos) then Some (rng pos, S pos)
    else getSafeRandomGem rng fuel (S pos) b x y row.
Proof. done. Qed.

(** The loop returns at the first accepted draw. *)
Lemma getSafeRandomGem_first rng b x y row n :
  forall pos fuel,
  accepted b x y row (rng (pos + n)) = true ->
  (forall i, i < n -> accepted b x y row (rng (pos + i)) = false) ->
  n < fuel ->
  getSafeRandomGem rng fuel pos b x y row = Some (rng (pos + n), S (pos + n)).
Proof.
  induction n as [|n IH]; intros pos fuel Hacc Hrej Hfuel.
  - destruct fuel as [|fuel]; [lia|].
    rewrite getSafeRandomGem_step. rewrite Nat.add_0_r in *. by rewrite Hacc.
  - destruct fuel as [|fuel]; [lia|].
    rewrite getSafeRandomGem_step.
    pose proof (Hrej 0 ltac:(lia)) as H0. rewrite Nat.add_0_r in H0. rewrite H0.
    replace (pos + S n) with (S pos + n) in * by lia.
    apply IH; [done| |lia].
    intros i Hi. replace (S pos + i) with (pos + S i) by lia. apply Hrej. lia.
Qed.

(** The loop does not return while the draws are rejected. *)
Lemma getSafeRandomGem_rejected rng b x y row fuel :
  forall pos,
  (forall i, i < fuel -> accepted b x y row (rng (pos + i)) = false) ->
  getSafeRandomGem rng fuel pos b x y row = None.
Proof.
  induction fuel as [|fuel IH]; intros pos Hrej; [done|].
  rewrite getSafeRandomGem_step.
  pose proof (Hrej 0 ltac:(lia)) as H0. rewrite Nat.add_0_r in H0. rewrite H0.
  apply IH. intros i Hi. replace (S pos + i) with (pos + S i) by lia.
  apply Hrej. lia.
Qed.

Lemma length_filter_mono {A : Type} (P Q : A -> Prop)
    `{forall a, Decision (P a)} `{forall a, Decision (Q a)} (l : list A) :
  (forall a, P a -> Q a) -> length (filter P l) <= length (filter Q l).
Proof.
  intros HPQ. induction l as [|a l IH]; [done|].
  rewrite !filter_cons. destruct (decide (P a)) as [HP|HP].
  - rewrite decide_True by auto. simpl. lia.
  - destruct (decide (Q a)); simpl; lia.
Qed.

Lemma accepted_of_other b x y row t :
  Some t <> optType (row !! (x - 1)) ->
  Some t <> optType (cell b (y - 1) x) ->
  accepted b x y row t = true.
Proof.
  intros HL HU. unfold accepted, isMatchLeft, isMatchUp, type_eqb.
  rewrite (bool_decide_eq_false_2 (optType (row !! (x - 1)) = Some t)) by done.
  rewrite (bool_decide_eq_false_2 (optType (cell b (y - 1) x) = Some t)) by done.
  by rewrite !andb_false_r.
Qed.

(** At most two of the five types are excluded. *)
Lemma accepted_three b x y row :
  3 <= length (filter (fun t => accepted b x y row t = true) allTypes).
Proof.
  etrans; [|apply (length_filter_mono
    (fun t => Some t <> optType (row !! (x - 1))
              /\ Some t <> optType (cell b (y - 1) x)))].
  - destruct (optType (row !! (x - 1))) as [[]|],
             (optType (cell b (y - 1) x)) as [[]|]; vm_compute; lia.
  - intros t [HL HU]. by apply accepted_of_other.
Qed.

(** ** The counting loops of [hasChainOfThree] *)

Lemma rev_seq_S i : rev (seq 0 (S i)) = i :: rev (seq 0 i).
Proof. by rewrite seq_S, rev_app_distr. Qed.

Lemma countWhile_up p i :
  let c := countWhile p (rev (seq 0 i)) in
  c <= i /\ forall k, i - c <= k < i -> p k = true.
Proof.
  induction i as [|i [IHle IHall]]; [simpl; split; [lia|intros; lia]|].
  rewrite rev_seq_S. simpl. destruct (p i) eqn:Hp.
  - split; [lia|]. intros k Hk.
    destruct (decide (k = i)) as [->|]; [done|]. apply IHall. lia.
  - split; [lia|]. intros; lia.
Qed.

Lemma countWhile_up_ge p i lo :
  lo <= i -> (forall k, lo <= k < i -> p k = true) ->
  i - lo <= countWhile p (rev (seq 0 i)).
Proof.
  induction i as [|i IH]; intros Hlo Hall; [simpl; lia|].
  rewrite rev_seq_S. simpl.
  destruct (decide (lo = S i)) as [->|Hne]; [lia|].
  rewrite Hall by lia.
  assert (i - lo <= countWhile p (rev (seq 0 i))); [|lia].
  apply IH; [lia|]. intros. apply Hall. lia.
Qed.

Lemma countWhile_down p n :
  forall a, let c := countWhile p (seq a n) in
  c <= n /\ forall k, a <= k < a + c -> p k = true.
Proof.
  induction n as [|n IH]; intros a; [simpl; split; [lia|intros; lia]|].
  simpl. destruct (p a) eqn:Hp.
  - destruct (IH (S a)) as [IHle IHall]. split; [lia|]. intros k Hk.
    destruct (decide (k = a)) as [->|]; [done|]. apply IHall. lia.
  - split; [lia|]. intros; lia.
Qed.

Lemma countWhile_down_ge p n :
  forall a m, m <= n -> (forall k, a <= k < a + m -> p k = true) ->
  m <= countWhile p (seq a n).
Proof.
  induction n as [|n IH]; intros a m Hm Hall; [simpl; lia|].
  simpl. destruct m as [|m]; [lia|].
  rewrite Hall by lia.
  assert (m <= countWhile p (seq (S a) n)); [|lia].
  apply IH; [lia|]. intros. apply Hall. lia.
Qed.

(** The count of a line reaches three iff a run passes through the cell. *)
Lemma lineCount_run typeOf i t :
  i < GRID_SIZE -> typeOf i = Some t ->
  3 <= lineCount typeOf i (Some t)
  <-> exists lo hi, lineRun typeOf lo hi t /\ lo <= i <= hi.
Proof.
  intros Hi Hti. unfold lineCount.
  set (p := fun k => type_eqb (typeOf k) (Some t)).
  destruct (countWhile_up p i) as [Hule Huall].
  destruct (countWhile_down p (GRID_SIZE - (i + 1)) (i + 1)) as [Hdle Hdall].
  split.
  - intros Hcount.
    exists (i - countWhile p (rev (seq 0 i))),
           (i + countWhile p (seq (i + 1) (GRID_SIZE - (i + 1)))).
    split; [|lia]. split; [lia|]. split; [lia|].
    intros k Hk. destruct (decide (k = i)) as [->|Hne]; [done|].
    apply type_eqb_true. destruct (decide (k < i)).
    + apply Huall. lia.
    + apply Hdall. lia.
  - intros (lo & hi & (Hlen & Hhi & Hrun) & Hlo).
    assert (i - lo <= countWhile p (rev (seq 0 i))).
    { apply countWhile_up_ge; [lia|]. intros k Hk.
      apply type_eqb_true, Hrun. lia. }
    assert (hi - i <= countWhile p (seq (i + 1) (GRID_SIZE - (i + 1)))).
    { apply countWhile_down_ge; [lia|]. intros k Hk.
      apply type_eqb_true, Hrun. lia. }
    lia.
Qed.

(** [hasChainOfThree] at a cell, asked for the type the cell holds, tells
    whether the cell lies on a run. *)
Lemma hasChainOfThree_inRun b x y t :
  x < GRID_SIZE -> y < GRID_SIZE -> typeAt b y x = Some t ->
  hasChainOfThree b x y (Some t) = true <-> inRun b y x.
Proof.
  intros Hx Hy Ht. unfold hasChainOfThree.
  replace (type_eqb (Some t) None) with false
    by (symmetry; by apply type_eqb_false).
  pose proof (lineCount_run (fun i => typeAt b i x) y t Hy Ht) as HV.
  pose proof (lineCount_run (fun i => typeAt b y i) x t Hx Ht) as HH.
  assert (forall t', typeAt b y x = Some t' -> t' = t) as Hsame by congruence.
  unfold inRun, hRun, vRun.
  destruct (3 <=? lineCount (fun i => typeAt b i x) y (Some t)) eqn:HcV.
  { apply Nat.leb_le, HV in HcV as (lo & hi & Hrun & Hin).
    split; [|done]. intros _. right. eauto 10. }
  apply Nat.leb_gt in HcV.
  destruct (3 <=? lineCount (fun i => typeAt b y i) x (Some t)) eqn:HcH.
  { apply Nat.leb_le, HH in HcH as (lo & hi & Hrun & Hin).
    split; [|done]. intros _. left. eauto 10. }
  apply Nat.leb_gt in HcH.
  split; [done|].
  intros [(lo & hi & t' & [_ Hrun] & Hin)|(lo & hi & t' & [_ Hrun] & Hin)].
  - assert (t' = t) as -> by (apply Hsame; by apply Hrun).
    assert (3 <= lineCount (fun i => typeAt b y i) x (Some t)); [|lia].
    apply HH. eauto.
  - assert (t' = t) as -> by (apply Hsame; by apply Hrun).
    assert (3 <= lineCount (fun i => typeAt b i x) y (Some t)); [|lia].
    apply HV. eauto.
Qed.

Lemma hasChainOfThree_null b x y : hasChainOfThree b x y None = false.
Proof. done. Qed.

Lemma countWhile_ext p q l :
  (forall k, k ∈ l -> p k = q k) -> countWhile p l = countWhile q l.
Proof.
  induction l as [|k l IH]; intros H; [done|].
  simpl. rewrite <- H by constructor. destruct (p k); [|done].
  f_equal. apply IH. intros. apply H. by constructor.
Qed.

Lemma lineCount_ext typeOf1 typeOf2 i type :
  (forall k, typeOf1 k = typeOf2 k) ->
  lineCount typeOf1 i type = lineCount typeOf2 i type.
Proof.
  intros H. unfold lineCount.
  rewrite (countWhile_ext _ (fun k => type_eqb (typeOf2 k) type) (rev _))
    by (intros; by rewrite H).
  rewrite (countWhile_ext _ (fun k => type_eqb (typeOf2 k) type) (seq _ _))
    by (intros; by rewrite H).
  done.
Qed.
(** ** Invariants of the engine *)

Lemma checkBoard_spec b : checkBoard b = true -> boardOk b.
Proof.
  unfold checkBoard. intros H.
  apply andb_prop in H as [H Hcells]. apply andb_prop in H as [Hlen Hrows].
  apply bool_decide_eq_true in Hlen.
  rewrite forallb_forall in Hrows. rewrite forallb_forall in Hcells.
  assert (wfBoard b) as Hwf.
  { split; [done|]. apply Forall_forall. intros row Hrow.
    apply list_elem_of_In, Hrows, bool_decide_eq_true in Hrow. done. }
  assert (forall y x g, cell b y x = Some g ->
            gem_x g = x /\ gem_y g = y /\ gem_type g <> None) as Hall.
  { intros y x g Hg. destruct (cell_lt _ _ _ _ Hwf Hg) as [Hy Hx].
    specialize (Hcells (y, x)). simpl in Hcells. rewrite Hg in Hcells.
    assert (In (y, x) positions) as Hin
      by (apply list_elem_of_In, elem_of_positions; done).
    apply Hcells in Hin. apply andb_prop in Hin as [Hin H3].
    apply andb_prop in Hin as [H1 H2].
    apply bool_decide_eq_true in H1, H2, H3. done. }
  split; [done|]. split.
  - intros y x g Hg. destruct (Hall y x g Hg) as (? & ? & _). done.
  - intros y x g Hg. destruct (Hall y x g Hg) as (_ & _ & ?). done.
Qed.

Lemma checkEngine_spec s : checkEngine s = true -> engineOk s.
Proof.
  unfold checkEngine. intros H. apply andb_prop in H as [Hb Hsel].
  split; [by apply checkBoard_spec|].
  intros g Hg. rewrite Hg in Hsel. by apply bool_decide_eq_true in Hsel.
Qed.

Lemma swapAllowed_spec sel newX newY :
  swapAllowed sel newX newY = true ->
  Z.to_nat newX < GRID_SIZE /\ Z.to_nat newY < GRID_SIZE
  /\ newX = Z.of_nat (Z.to_nat newX) /\ newY = Z.of_nat (Z.to_nat newY)
  /\ (Z.to_nat newX <> gem_x sel \/ Z.to_nat newY <> gem_y sel).
Proof.
  unfold swapAllowed, GRID_SIZE.
  rewrite !andb_true_iff, orb_true_iff, !negb_true_iff, !Z.leb_le, !Z.ltb_lt,
    !Z.eqb_neq.
  intros [[[[[H1 H2] H3] H4] _] Hne]. lia.
Qed.

Section Swap.
Variables (b : Board) (sel target : Gem) (newX newY : nat).
Hypothesis Hwf : wfBoard b.
Hypothesis Hsel : cell b (gem_y sel) (gem_x sel) = Some sel.
Hypothesis Htarget : cell b newY newX = Some target.

Lemma wfBoard_swapGems : wfBoard (swapGems b sel target newX newY).
Proof. unfold swapGems. by apply wfBoard_setCell, wfBoard_setCell. Qed.

Lemma cell_swapGems_new :
  cell (swapGems b sel target newX newY) newY newX
  = Some (mkGem newX newY (gem_type sel) (gem_selected sel)).
Proof.
  unfold swapGems. apply cell_setCell_eq.
  destruct (cell_lt _ _ _ _ Hwf Htarget).
  apply cell_is_Some; [by apply wfBoard_setCell|done..].
Qed.

Lemma cell_swapGems_old :
  newX <> gem_x sel \/ newY <> gem_y sel ->
  cell (swapGems b sel target newX newY) (gem_y sel) (gem_x sel)
  = Some (mkGem (gem_x sel) (gem_y sel) (gem_type target) (gem_selected target)).
Proof.
  intros Hne. unfold swapGems.
  rewrite cell_setCell_ne by (destruct Hne; [right|left]; done).
  apply cell_setCell_eq. by rewrite Hsel.
Qed.

Lemma cell_swapGems_other y x :
  (y <> newY \/ x <> newX) -> (y <> gem_y sel \/ x <> gem_x sel) ->
  cell (swapGems b sel target newX newY) y x = cell b y x.
Proof.
  intros H1 H2. unfold swapGems.
  rewrite !cell_setCell_ne; [done|..]; (destruct H1, H2; (by left) || (by right)).
Qed.

Lemma cell_swapGems_cases y x g :
  cell (swapGems b sel target newX newY) y x = Some g ->
  g = mkGem x y (gem_type sel) (gem_selected sel)
  \/ g = mkGem x y (gem_type target) (gem_selected target)
  \/ cell b y x = Some g.
Proof.
  destruct (decide (y = newY /\ x = newX)) as [[-> ->]|H1].
  { rewrite cell_swapGems_new. intros [= <-]. by left. }
  destruct (decide (y = gem_y sel /\ x = gem_x sel)) as [[-> ->]|H2].
  { rewrite cell_swapGems_old by (destruct (decide (newX = gem_x sel));
      [right; intros ?; apply H1; by split|by left]).
    intros [= <-]. right. by left. }
  rewrite cell_swapGems_other; [by right; right|..].
  - destruct (decide (y = newY)); [right; intros ?; by apply H1|by left].
  - destruct (decide (y = gem_y sel)); [right; intros ?; by apply H2|by left].
Qed.

Lemma coherent_swapGems : coherent b -> coherent (swapGems b sel target newX newY).
Proof.
  intros Hco y x g Hg.
  destruct (cell_swapGems_cases y x g Hg) as [->|[->|H]]; [done..|by apply Hco].
Qed.

Lemma fullBoard_swapGems :
  fullBoard b -> fullBoard (swapGems b sel target newX newY).
Proof.
  intros Hfull y x g Hg.
  destruct (cell_swapGems_cases y x g Hg) as [->|[->|H]]; simpl.
  - by eapply Hfull.
  - by eapply Hfull.
  - by eapply Hfull.
Qed.

(** The revert puts every gem back. *)
Lemma revertSwap_swapGems :
  revertSwap (swapGems b sel target newX newY) sel target newX newY = b.
Proof.
  pose proof wfBoard_swapGems as Hwf1.
  destruct (cell_lt _ _ _ _ Hwf Htarget) as [HnY HnX].
  destruct (cell_lt _ _ _ _ Hwf Hsel) as [HsY HsX].
  unfold revertSwap.
  apply board_ext; [by apply wfBoard_setCell, wfBoard_setCell|done|].
  intros y x.
  destruct (decide (y = gem_y sel /\ x = gem_x sel)) as [[-> ->]|H2].
  { rewrite cell_setCell_eq; [done|].
    apply cell_is_Some; [by apply wfBoard_setCell|done..]. }
  rewrite cell_setCell_ne
    by (destruct (decide (gem_y sel = y)); [right; intros ?; by apply H2|by left]).
  destruct (decide (y = newY /\ x = newX)) as [[-> ->]|H1].
  { rewrite cell_setCell_eq; [done|]. by apply cell_is_Some. }
  rewrite cell_setCell_ne
    by (destruct (decide (newY = y)); [right; intros ?; by apply H1|by left]).
  apply cell_swapGems_other.
  - destruct (decide (y = newY)); [right; intros ?; by apply H1|by left].
  - destruct (decide (y = gem_y sel)); [right; intros ?; by apply H2|by left].
Qed.
End Swap.

Lemma boardOk_swapGems b sel target newX newY :
  boardOk b ->
  cell b (gem_y sel) (gem_x sel) = Some sel -> cell b newY newX = Some target ->
  boardOk (swapGems b sel target newX newY).
Proof.
  intros (Hwf & Hco & Hfull) Hsel Htarget. split; [|split].
  - by apply wfBoard_swapGems.
  - by apply coherent_swapGems.
  - by apply fullBoard_swapGems.
Qed.

Lemma board_cascadeStep rng s :
  board (cascadeStep rng s)
  = (collapseBoard rng (removeMatches (findMatches (board s)) (board s)) (rngPos s)).1.
Proof. unfold cascadeStep. by destruct (collapseBoard _ _ _). Qed.

Lemma totalScore_cascadeStep rng s :
  totalScore (cascadeStep rng s)
  = totalScore s + length (findMatches (board s)) * 100.
Proof. unfold cascadeStep. by destruct (collapseBoard _ _ _). Qed.

Lemma boardOk_cascadeStep rng s :
  boardOk (board s) -> boardOk (board (cascadeStep rng s)).
Proof.
  intros (Hwf & Hco & _). rewrite board_cascadeStep.
  pose proof (wfBoard_removeMatches (findMatches (board s)) _ Hwf) as Hwf1.
  split; [|split].
  - by apply wfBoard_collapseBoard.
  - by apply coherent_collapseBoard, coherent_removeMatches.
  - by apply fullBoard_collapseBoard.
Qed.

Lemma cascade_step rng fuel s :
  cascade rng fuel s
  = if 0 <? length (findMatches (board s)) then
      match fuel with
      | 0 => None
      | S fuel' => cascade rng fuel' (cascadeStep rng s)
      end
    else Some s.
Proof. by destruct fuel. Qed.

(** The equations of [iterSteps] and [matchedAt], for rewriting: the body of
    [cascadeStep] is never unfolded. *)
Lemma iterSteps_0 rng s : iterSteps rng 0 s = s.
Proof. unfold iterSteps. reflexivity. Qed.

Lemma iterSteps_S rng n s :
  iterSteps rng (S n) s = iterSteps rng n (cascadeStep rng s).
Proof. unfold iterSteps. reflexivity. Qed.

Lemma matchedAt_0 rng s : matchedAt rng s 0 = length (findMatches (board s)).
Proof. unfold matchedAt. by rewrite iterSteps_0. Qed.

Lemma matchedAt_S rng s i :
  matchedAt rng s (S i) = matchedAt rng (cascadeStep rng s) i.
Proof. unfold matchedAt. by rewrite iterSteps_S. Qed.

Lemma matchedAt_nil rng s n :
  matchedAt rng s n = 0 <-> findMatches (board (iterSteps rng n s)) = [].
Proof. unfold matchedAt. apply length_zero_iff_nil. Qed.

Lemma boardOk_cascade rng fuel :
  forall s s', cascade rng fuel s = Some s' ->
  boardOk (board s) -> boardOk (board s').
Proof.
  induction fuel as [|fuel IH]; intros s s'; rewrite cascade_step;
    destruct (0 <? length (findMatches (board s))); try done.
  - by intros [= <-].
  - intros Hc Hok. eapply IH; [done|]. by apply boardOk_cascadeStep.
  - by intros [= <-].
Qed.

Lemma engineOk_mousedown s x y : engineOk s -> engineOk (mousedown s x y).
Proof.
  intros [Hb Hsel]. unfold mousedown.
  destruct ((0 <=? x)%Z && (0 <=? y)%Z); [|done].
  destruct (cell (board s) (Z.to_nat y) (Z.to_nat x)) as [g|] eqn:Hg; [|done].
  split; [done|]. intros g' [= <-]. simpl.
  destruct Hb as (_ & Hco & _). by destruct (Hco _ _ _ Hg) as [-> ->].
Qed.

Lemma engineOk_mouseup rng fuel s newX newY s' :
  engineOk s -> mouseup rng fuel s newX newY = Some s' -> engineOk s'.
Proof.
  intros [Hb Hsel]. unfold mouseup.
  destruct (isDragging s); [|by intros [= <-]].
  destruct (selectedGem s) as [sel|] eqn:Hs; [|by intros [= <-]].
  specialize (Hsel sel Hs).
  destruct (swapAllowed sel newX newY); [|by intros [= <-]].
  destruct (cell (board s) (Z.to_nat newY) (Z.to_nat newX)) as [tgt|] eqn:Ht; [|done].
  destruct (canMove _ _ _ _ _); simpl.
  - destruct (cascade _ _ _) as [s1|] eqn:Hc; [|done]. intros [= <-].
    split; [|done]. simpl. apply (boardOk_cascade _ _ _ _ Hc). simpl.
    by apply boardOk_swapGems.
  - intros [= <-]. split; [|done]. simpl.
    pose proof Hb as (Hwf & _). by rewrite revertSwap_swapGems.
Qed.

Lemma engineOk_start rng fuel s : start rng fuel = Some s -> engineOk s.
Proof.
  unfold start. destruct (initBoard rng fuel 0) as [[b pos]|] eqn:Hinit; [|done].
  intros [= <-]. split; [|done]. simpl. by apply initBoard_wf in Hinit.
Qed.

Lemma reachable_engineOk rng s : reachable rng s -> engineOk s.
Proof.
  induction 1 as [fuel s Hs|s x y _ IH|fuel s newX newY s' _ IH Hup].
  - by eapply engineOk_start.
  - by apply engineOk_mousedown.
  - by eapply engineOk_mouseup.
Qed.
(** * The claims *)

(** ** C1: the initial board has no match *)

(** C1.  For every random sequence and every amount of fuel for which
    [initBoard] returns, the board it returns has no run of three or more
    identical gems in any row or column, and [findMatches] returns the
    empty list on it. *)
Theorem initBoard_no_matches rng fuel pos b pos' :
  initBoard rng fuel pos = Some (b, pos') ->
  (forall y x, ~ inRun b y x) /\ findMatches b = [].
Proof.
  intros Hinit.
  pose proof (initBoard_inv _ _ _ _ _ Hinit) as (_ & _ & _ & _ & Hsafe).
  destruct (initBoard_wf _ _ _ _ _ Hinit) as (Hwf & _).
  cbn [fst] in Hsafe.
  assert (forall y x, ~ inRun b y x) as Hno by (intros; by apply safe_no_run).
  split; [done|]. by apply findMatches_nil.
Qed.

Lemma initBoard_no_matches_witness :
  initBoard cyclicRng 1 0 = Some (cyclicBoard, 64)
  /\ findMatches cyclicBoard = [].
Proof.
  split; [vm_compute; reflexivity|].
  apply (initBoard_no_matches cyclicRng 1 0 cyclicBoard 64).
  vm_compute; reflexivity.
Defined.

(** ** C4: [findMatches] returns the cells of the runs, once each *)

(** C4.  On every 8 x 8 board, every cell of a horizontal or vertical run
    of three or more identical non-empty gems is in the result of
    [findMatches] (all the cells of the run, whatever its length, hence of
    a maximal run); the result lists the gems of a duplicate-free list of
    slots, the slots that lie on a run, so that a cell on both a
    horizontal and a vertical run is listed once; and no gem of the result
    has the type [null]. *)
Theorem findMatches_runs b :
  wfBoard b ->
  (forall y lo hi t k, hRun b y lo hi t -> lo <= k <= hi ->
     exists g, cell b y k = Some g /\ g ∈ findMatches b)
  /\ (forall x lo hi t k, vRun b x lo hi t -> lo <= k <= hi ->
        exists g, cell b k x = Some g /\ g ∈ findMatches b)
  /\ (exists slots,
        NoDup slots
        /\ (forall y x, (y, x) ∈ slots <-> inRun b y x)
        /\ Some <$> findMatches b = (fun p => cell b p.1 p.2) <$> slots)
  /\ (coherent b -> NoDup (findMatches b))
  /\ (forall g, g ∈ findMatches b -> gem_type g <> None).
Proof.
  intros Hwf. conjs.
  - intros y lo hi t k Hrun Hk.
    assert (inRun b y k) as Hin by (left; eauto).
    destruct (inRun_lt _ _ _ Hin) as [Hy Hx].
    destruct (cell_is_Some b y k Hwf Hy Hx) as [g Hg].
    exists g. split; [done|]. apply elem_of_findMatches; eauto.
  - intros x lo hi t k Hrun Hk.
    assert (inRun b k x) as Hin by (right; eauto).
    destruct (inRun_lt _ _ _ Hin) as [Hy Hx].
    destruct (cell_is_Some b k x Hwf Hy Hx) as [g Hg].
    exists g. split; [done|]. apply elem_of_findMatches; eauto.
  - exists (matchedSlots b). split; [apply NoDup_matchedSlots|].
    split; [apply elem_of_matchedSlots|by apply findMatches_slots].
  - intros Hco. by apply NoDup_findMatches.
  - intros g Hg. apply elem_of_findMatches in Hg as (y & x & Hin & Hc); [|done].
    destruct (inRun_type _ _ _ Hin) as [t Ht].
    rewrite (typeAt_cell _ _ _ _ Hc) in Ht. by rewrite Ht.
Qed.

Lemma crossBoard_wf : wfBoard crossBoard.
Proof. apply checkBoard_spec. vm_compute; reflexivity. Defined.

Lemma findMatches_runs_witness :
  exists g, cell crossBoard 0 4 = Some g /\ g ∈ findMatches crossBoard.
Proof.
  apply (proj1 (findMatches_runs crossBoard crossBoard_wf) 0 0 4 T0 4).
  - split; [vm_compute; lia|]. split; [lia|]. split; [vm_compute; lia|].
    intros k Hk.
    assert (k = 0 \/ k = 1 \/ k = 2 \/ k = 3 \/ k = 4) as [->|[->|[->|[->| ->]]]]
      by lia; reflexivity.
  - lia.
Defined.

(** The run of five and the run of three of [crossBoard], which share the
    top left cell: seven gems are returned. *)
Example findMatches_cross :
  (fun g => (gem_x g, gem_y g)) <$> findMatches crossBoard
  = [(0, 0); (1, 0); (2, 0); (3, 0); (4, 0); (0, 1); (0, 2)].
Proof. vm_compute. reflexivity. Qed.

(** ** C5: [collapseBoard] compacts each column and refills its top *)

(** C5.  For every column [x] of an 8 x 8 board, with [e] the number of
    empty cells of the column: after [collapseBoard] the lowest cells of
    the column hold the types of the cells that were occupied, in the same
    order top to bottom; the top [e] cells hold the next [e] draws of the
    random sequence (the columns draw in turn, left to right, each from its
    top cell down); and a column without an empty cell keeps its gems. *)
Theorem collapseBoard_conserves rng b pos x :
  wfBoard b -> x < GRID_SIZE ->
  let b' := (collapseBoard rng b pos).1 in
  let e := emptyCount (column b x) in
  drop e (column b' x) = occupied (column b x)
  /\ take e (column b' x) = draws rng (pos + drawsBefore b x) e
  /\ length (column b' x) = GRID_SIZE
  /\ (e = 0 -> forall y, cell b' y x = cell b y x)
  /\ (collapseBoard rng b pos).2 = pos + drawsBefore b GRID_SIZE.
Proof.
  intros Hwf Hx b' e.
  destruct (collapseBoard_inv rng b pos Hwf) as (_ & Hpos & _ & Hcols & _).
  destruct (Hcols x Hx) as [Hcol Hkeep]. fold b' in Hcol, Hkeep. fold e in Hcol, Hkeep.
  assert (length (draws rng (pos + drawsBefore b x) e) = e) as Hlen
    by (unfold draws; by rewrite length_fmap, length_seq).
  conjs.
  - rewrite Hcol, drop_app_length'; done.
  - rewrite Hcol, take_app_length'; done.
  - unfold column. by rewrite length_fmap, length_seq.
  - done.
  - done.
Qed.

Lemma holedBoard_wf : wfBoard holedBoard.
Proof. unfold holedBoard. repeat apply wfBoard_setType. apply checkBoard_spec. vm_compute; reflexivity. Defined.

Lemma collapseBoard_conserves_witness :
  drop 2 (column (collapseBoard cyclicRng holedBoard 0).1 0)
  = [Some T0; Some T1; Some T2; Some T0; Some T0; Some T2].
Proof.
  apply (proj1 (collapseBoard_conserves cyclicRng holedBoard 0 0 holedBoard_wf
                  ltac:(vm_compute; lia))).
Defined.

(** ** C7: stored coordinates and slots agree *)

(** C7.  In every state the engine reaches between two events ([initBoard]
    done, a swap accepted and resolved, a swap reverted), and after every
    iteration of the cascade from a coherent board, hence after each call
    of [collapseBoard], every gem stores the coordinates of the slot that
    holds it; and on a coherent board [removeMatches(findMatches())] sets
    to [null] the type of the gems of the slots that lie on a run and
    leaves every other slot as it is. *)
Theorem coherence_invariant rng :
  (forall s, reachable rng s -> coherent (board s))
  /\ (forall b pos, wfBoard b -> coherent b -> coherent (collapseBoard rng b pos).1)
  /\ (forall s n, boardOk (board s) -> coherent (board (iterSteps rng n s)))
  /\ (forall b y x, wfBoard b -> coherent b ->
        (inRun b y x ->
           cell (removeMatches (findMatches b) b) y x = withType None <$> cell b y x)
        /\ (~ inRun b y x ->
              cell (removeMatches (findMatches b) b) y x = cell b y x)).
Proof.
  conjs.
  - intros s Hs. by destruct (reachable_engineOk _ _ Hs) as [(_ & ? & _) _].
  - intros b pos. apply coherent_collapseBoard.
  - intros s n. revert s. induction n as [|n IH]; intros s Hok.
    + by destruct Hok as (_ & ? & _).
    + rewrite iterSteps_S. by apply IH, boardOk_cascadeStep.
  - intros b y x Hwf Hco. split.
    + by apply cell_removeMatches_found.
    + by apply cell_removeMatches_other.
Qed.

Lemma crossBoard_ok : boardOk crossBoard.
Proof. apply checkBoard_spec. vm_compute; reflexivity. Defined.

Lemma coherence_invariant_witness :
  coherent (board (iterSteps cyclicRng 2 (mkEngine crossBoard 0 None false 0))).
Proof.
  apply (proj1 (proj2 (proj2 (coherence_invariant cyclicRng)))
           (mkEngine crossBoard 0 None false 0) 2 crossBoard_ok).
Defined.

(** ** C10: the board is full after every collapse *)


(** ** C2 and C3: the swap and its revert *)

Lemma swapAllowed_iff sel newX newY :
  swapAllowed sel newX newY = true
  <-> inBounds newX newY /\ manhattan sel newX newY = 1%Z.
Proof.
  unfold swapAllowed, isAdjacent, inBounds, manhattan.
  rewrite !andb_true_iff, !orb_true_iff, !andb_true_iff, !negb_true_iff,
    !Z.leb_le, !Z.ltb_lt, !Z.eqb_neq, !Z.eqb_eq.
  lia.
Qed.

Lemma mouseup_swap rng fuel s sel newX newY target :
  isDragging s = true -> selectedGem s = Some sel ->
  swapAllowed sel newX newY = true ->
  cell (board s) (Z.to_nat newY) (Z.to_nat newX) = Some target ->
  let b1 := swapGems (board s) sel target (Z.to_nat newX) (Z.to_nat newY) in
  mouseup rng fuel s newX newY
  = if canMove b1 sel target (Z.to_nat newX) (Z.to_nat newY)
    then endDrag <$> cascade rng fuel (withBoard s b1)
    else Some (endDrag (withBoard s
                 (revertSwap b1 sel target (Z.to_nat newX) (Z.to_nat newY)))).
Proof.
  intros Hd Hs Ha Ht. unfold mouseup. rewrite Hd, Hs, Ha, Ht. simpl.
  by destruct (canMove _ _ _ _ _).
Qed.

Lemma hasChainOfThree_ext b1 b2 x y type :
  sameLines b1 b2 y x ->
  hasChainOfThree b1 x y type = hasChainOfThree b2 x y type.
Proof.
  intros [Hrow Hcol]. unfold hasChainOfThree.
  rewrite (lineCount_ext (fun i => typeAt b1 i x) (fun i => typeAt b2 i x)) by done.
  rewrite (lineCount_ext (fun i => typeAt b1 y i) (fun i => typeAt b2 y i)) by done.
  done.
Qed.

(** On the board after the swap, [canMove] tells whether one of the two
    swapped cells lies on a run. *)
Lemma canMove_inRun b sel target newX newY :
  boardOk b ->
  cell b (gem_y sel) (gem_x sel) = Some sel -> cell b newY newX = Some target ->
  newX <> gem_x sel \/ newY <> gem_y sel ->
  let b1 := swapGems b sel target newX newY in
  canMove b1 sel target newX newY = true
  <-> inRun b1 newY newX \/ inRun b1 (gem_y sel) (gem_x sel).
Proof.
  intros (Hwf & Hco & Hfull) Hsel Htarget Hne b1.
  destruct (cell_lt _ _ _ _ Hwf Hsel) as [HsY HsX].
  destruct (cell_lt _ _ _ _ Hwf Htarget) as [HnY HnX].
  destruct (gem_type sel) as [t1|] eqn:Ht1; [|by apply Hfull in Hsel].
  destruct (gem_type target) as [t2|] eqn:Ht2; [|by apply Hfull in Htarget].
  assert (typeAt b1 newY newX = Some t1) as Hnew.
  { unfold b1. erewrite typeAt_cell by by apply cell_swapGems_new. done. }
  assert (typeAt b1 (gem_y sel) (gem_x sel) = Some t2) as Hold.
  { unfold b1. erewrite typeAt_cell by by apply cell_swapGems_old. done. }
  unfold canMove. rewrite Ht1, Ht2, orb_true_iff.
  rewrite (hasChainOfThree_inRun b1 newX newY t1) by done.
  rewrite (hasChainOfThree_inRun b1 (gem_x sel) (gem_y sel) t2) by done.
  done.
Qed.

(** C2.  In every state whose board is full (8 x 8, every gem at its
    coordinates) and for every target cell on the grid at Manhattan
    distance 1 from the selected gem, the [mouseup] handler keeps the swap
    and enters the cascade iff, on the board after the swap, one of the two
    swapped cells lies on a horizontal or vertical run of three or more
    identical gems; otherwise the board is as before the call.  The
    decision reads only the rows and the columns of the two cells: it is
    the same on every board that has the same types along these four
    lines. *)
Theorem swap_kept_iff_local_run rng fuel s sel newX newY :
  engineOk s -> isDragging s = true -> selectedGem s = Some sel ->
  inBounds newX newY -> manhattan sel newX newY = 1%Z ->
  exists target,
    cell (board s) (Z.to_nat newY) (Z.to_nat newX) = Some target /\
    let nx := Z.to_nat newX in
    let ny := Z.to_nat newY in
    let b1 := swapGems (board s) sel target nx ny in
    (canMove b1 sel target nx ny = true
     <-> inRun b1 ny nx \/ inRun b1 (gem_y sel) (gem_x sel))
    /\ mouseup rng fuel s newX newY
       = (if canMove b1 sel target nx ny
          then endDrag <$> cascade rng fuel (withBoard s b1)
          else Some (endDrag s))
    /\ (forall b2, sameLines b2 b1 ny nx -> sameLines b2 b1 (gem_y sel) (gem_x sel) ->
          canMove b2 sel target nx ny = canMove b1 sel target nx ny).
Proof.
  intros [Hok Hselok] Hd Hs Hin Hdist.
  pose proof (Hselok sel Hs) as Hsel.
  assert (swapAllowed sel newX newY = true) as Ha by by apply swapAllowed_iff.
  pose proof Hok as (Hwf & _).
  pose proof (swapAllowed_spec _ _ _ Ha) as (HX & HY & _ & _ & Hne).
  destruct (cell_is_Some (board s) _ _ Hwf HY HX) as [target Ht].
  exists target. split; [done|]. intros nx ny b1. conjs.
  - by apply canMove_inRun.
  - rewrite (mouseup_swap rng fuel s sel newX newY target) by done.
    fold nx ny b1. destruct (canMove b1 sel target nx ny); [done|].
    unfold b1, nx, ny. rewrite revertSwap_swapGems by done. done.
  - intros b2 H1 H2. unfold canMove.
    by rewrite (hasChainOfThree_ext b2 b1 nx ny),
               (hasChainOfThree_ext b2 b1 (gem_x sel) (gem_y sel)).
Qed.

Lemma samplePressed_ok : engineOk samplePressed.
Proof. apply checkEngine_spec. vm_compute; reflexivity. Defined.

Lemma swap_kept_iff_local_run_witness :
  exists target,
    cell (board samplePressed) 4 2 = Some target /\
    let b1 := swapGems (board samplePressed) sampleGem target 2 4 in
    (canMove b1 sampleGem target 2 4 = true
     <-> inRun b1 4 2 \/ inRun b1 (gem_y sampleGem) (gem_x sampleGem))
    /\ mouseup cyclicRng 5 samplePressed 2 4
       = (if canMove b1 sampleGem target 2 4
          then endDrag <$> cascade cyclicRng 5 (withBoard samplePressed b1)
          else Some (endDrag samplePressed))
    /\ (forall b2, sameLines b2 b1 4 2 ->
          sameLines b2 b1 (gem_y sampleGem) (gem_x sampleGem) ->
          canMove b2 sampleGem target 2 4 = canMove b1 sampleGem target 2 4).
Proof.
  apply (swap_kept_iff_local_run cyclicRng 5 samplePressed sampleGem 2 4
           samplePressed_ok eq_refl eq_refl).
  - unfold inBounds. vm_compute. repeat split; discriminate.
  - vm_compute; reflexivity.
Defined.

(** A swap that creates no run through its two cells is rejected even
    when the board holds matches elsewhere: [crossBoard] has seven matched
    gems, and dragging the gem of column 5, row 5 one cell to the right
    leaves the board as it is. *)
Example rejected_despite_matches :
  length (findMatches crossBoard) = 7
  /\ board <$> mouseup cyclicRng 5 (mousedown (mkEngine crossBoard 0 None false 0) 5 5) 6 5
     = Some crossBoard.
Proof. split; vm_compute; reflexivity. Qed.

(** C3.  A [mouseup] that finds no drag in progress changes nothing.  With
    a drag in progress from a state whose board is full, a target cell
    that is off the grid or not at Manhattan distance 1 from the selected
    gem, and a neighbouring target cell whose swap puts neither of the two
    cells on a run, both end the drag and leave the board, the score and
    the position in the random sequence as they were: in the second case
    the two assignments of the revert restore the board exactly. *)
Theorem rejected_swap_unchanged rng fuel s newX newY :
  engineOk s ->
  (isDragging s = false \/ selectedGem s = None ->
     mouseup rng fuel s newX newY = Some s)
  /\ (forall sel, isDragging s = true -> selectedGem s = Some sel ->
        (~ inBounds newX newY \/ manhattan sel newX newY <> 1%Z ->
           mouseup rng fuel s newX newY = Some (endDrag s))
        /\ (inBounds newX newY -> manhattan sel newX newY = 1%Z ->
            forall target,
              cell (board s) (Z.to_nat newY) (Z.to_nat newX) = Some target ->
              let b1 := swapGems (board s) sel target (Z.to_nat newX) (Z.to_nat newY) in
              ~ (inRun b1 (Z.to_nat newY) (Z.to_nat newX)
                 \/ inRun b1 (gem_y sel) (gem_x sel)) ->
              revertSwap b1 sel target (Z.to_nat newX) (Z.to_nat newY) = board s
              /\ mouseup rng fuel s newX newY = Some (endDrag s)))
  /\ board (endDrag s) = board s
  /\ totalScore (endDrag s) = totalScore s
  /\ rngPos (endDrag s) = rngPos s.
Proof.
  intros [Hok Hselok]. conjs; try done.
  - unfold mouseup. intros [->| ->]; [done|]. by destruct (isDragging s).
  - intros sel Hd Hs. pose proof (Hselok sel Hs) as Hsel.
    pose proof Hok as (Hwf & _). split.
    + intros Hrej. unfold mouseup. rewrite Hd, Hs.
      destruct (swapAllowed sel newX newY) eqn:Ha; [|done].
      apply swapAllowed_iff in Ha. tauto.
    + intros Hin Hdist target Ht b1 Hno.
      assert (swapAllowed sel newX newY = true) as Ha by by apply swapAllowed_iff.
      pose proof (swapAllowed_spec _ _ _ Ha) as (_ & _ & _ & _ & Hne).
      assert (revertSwap b1 sel target (Z.to_nat newX) (Z.to_nat newY) = board s)
        as Hrev by by apply revertSwap_swapGems.
      split; [done|].
      rewrite (mouseup_swap rng fuel s sel newX newY target) by done.
      fold b1. destruct (canMove b1 sel target _ _) eqn:Hc.
      * apply canMove_inRun in Hc; done.
      * by rewrite Hrev.
Qed.

Lemma rejected_swap_unchanged_witness :
  mouseup cyclicRng 5 samplePressed 7 7 = Some (endDrag samplePressed).
Proof.
  apply (proj1 (proj1 (proj2 (rejected_swap_unchanged cyclicRng 5 samplePressed 7 7
                                samplePressed_ok))
                  sampleGem eq_refl eq_refl)).
  right. vm_compute. discriminate.
Defined.
(** ** C6: the score *)

Lemma sum_matched_S rng s n :
  sum_list (matchedAt rng s <$> seq 0 (S n))
  = length (findMatches (board s))
    + sum_list (matchedAt rng (cascadeStep rng s) <$> seq 0 n).
Proof.
  change (seq 0 (S n)) with (0 :: seq 1 n).
  rewrite <- fmap_S_seq, fmap_cons, <- list_fmap_compose, matchedAt_0.
  apply (f_equal (fun l => length (findMatches (board s)) + sum_list l)).
  apply list_fmap_ext. intros _ i _. cbn [compose]. apply matchedAt_S.
Qed.

Lemma totalScore_iterSteps rng n :
  forall s,
  totalScore (iterSteps rng n s)
  = totalScore s + 100 * sum_list (matchedAt rng s <$> seq 0 n).
Proof.
  induction n as [|n IH]; intros s.
  - simpl. lia.
  - rewrite iterSteps_S, IH, sum_matched_S, totalScore_cascadeStep. lia.
Qed.

(** What the cascade loop has done when it returns. *)
Lemma cascade_Some rng fuel :
  forall s s', cascade rng fuel s = Some s' ->
  exists n, n <= fuel /\ s' = iterSteps rng n s
            /\ matchedAt rng s n = 0
            /\ forall i, i < n -> 0 < matchedAt rng s i.
Proof.
  induction fuel as [|fuel IH]; intros s s'; rewrite cascade_step;
    destruct (0 <? length (findMatches (board s))) eqn:Hm; try done.
  - intros [= <-]. apply Nat.ltb_ge in Hm. exists 0.
    split; [lia|]. split; [by rewrite iterSteps_0|].
    split; [rewrite matchedAt_0; lia|]. intros; lia.
  - intros Hc. apply IH in Hc as (n & Hn & -> & Hz & Hpos).
    apply Nat.ltb_lt in Hm.
    exists (S n). split; [lia|]. split; [by rewrite iterSteps_S|].
    split; [by rewrite matchedAt_S|].
    intros [|i] Hi; [by rewrite matchedAt_0|]. rewrite matchedAt_S. apply Hpos. lia.
  - intros [= <-]. apply Nat.ltb_ge in Hm. exists 0.
    split; [lia|]. split; [by rewrite iterSteps_0|].
    split; [rewrite matchedAt_0; lia|]. intros; lia.
Qed.

(** C6.  When the cascade loop returns after [n] iterations, the score has
    grown by 100 times the sum, over the [n] iterations, of the number of
    gems [findMatches] returned in that iteration; the same holds after any
    number of iterations of a cascade still running, and a [mouseup] that
    accepts a swap and returns has raised the score by that amount for the
    cascade started on the swapped board.  [mousedown] leaves the score as
    it is, and neither an iteration of the cascade nor a [mouseup] ever
    lowers it. *)
Theorem score_accounting rng :
  (forall fuel s s', cascade rng fuel s = Some s' ->
     exists n, s' = iterSteps rng n s
       /\ totalScore s' = totalScore s + 100 * sum_list (matchedAt rng s <$> seq 0 n)
       /\ matchedAt rng s n = 0 /\ forall i, i < n -> 0 < matchedAt rng s i)
  /\ (forall n s,
        totalScore (iterSteps rng n s)
        = totalScore s + 100 * sum_list (matchedAt rng s <$> seq 0 n))
  /\ (forall s x y, totalScore (mousedown s x y) = totalScore s)
  /\ (forall s, totalScore s <= totalScore (cascadeStep rng s))
  /\ (forall fuel s newX newY s',
        mouseup rng fuel s newX newY = Some s' -> totalScore s <= totalScore s')
  /\ (forall fuel s sel target newX newY s',
        isDragging s = true -> selectedGem s = Some sel ->
        swapAllowed sel newX newY = true ->
        cell (board s) (Z.to_nat newY) (Z.to_nat newX) = Some target ->
        let s1 := withBoard s
                    (swapGems (board s) sel target (Z.to_nat newX) (Z.to_nat newY)) in
        canMove (board s1) sel target (Z.to_nat newX) (Z.to_nat newY) = true ->
        mouseup rng fuel s newX newY = Some s' ->
        exists n, totalScore s'
                  = totalScore s + 100 * sum_list (matchedAt rng s1 <$> seq 0 n)).
Proof.
  conjs.
  - intros fuel s s' Hc. apply cascade_Some in Hc as (n & _ & -> & Hz & Hpos).
    exists n. split; [done|]. split; [apply totalScore_iterSteps|done].
  - intros n s. apply totalScore_iterSteps.
  - intros s x y. unfold mousedown.
    destruct ((0 <=? x)%Z && (0 <=? y)%Z); [|done].
    by destruct (cell _ _ _).
  - intros s. rewrite totalScore_cascadeStep. lia.
  - intros fuel s newX newY s'. unfold mouseup.
    destruct (isDragging s); [|by intros [= <-]].
    destruct (selectedGem s) as [sel|]; [|by intros [= <-]].
    destruct (swapAllowed sel newX newY); [|by intros [= <-]].
    destruct (cell _ _ _) as [target|]; [|done].
    destruct (canMove _ _ _ _ _); simpl.
    + destruct (cascade _ _ _) as [s1|] eqn:Hc; [|done]. intros [= <-].
      apply cascade_Some in Hc as (n & _ & -> & _). simpl.
      rewrite totalScore_iterSteps. simpl. lia.
    + by intros [= <-].
  - intros fuel s sel target newX newY s' Hd Hs Ha Ht s1 Hc.
    rewrite (mouseup_swap rng fuel s sel newX newY target) by done.
    fold s1. change (swapGems _ _ _ _ _) with (board s1). rewrite Hc.
    destruct (cascade rng fuel s1) as [s2|] eqn:Hcas; [|done]. intros [= <-].
    apply cascade_Some in Hcas as (n & _ & -> & _).
    exists n. simpl. by rewrite totalScore_iterSteps.
Qed.

Lemma score_accounting_witness :
  exists n, totalScore (iterSteps cyclicRng n (withBoard samplePressed sampleSwapped))
            = 0 + 100 * sum_list
                (matchedAt cyclicRng (withBoard samplePressed sampleSwapped) <$> seq 0 n).
Proof.
  destruct (proj1 (score_accounting cyclicRng) 5
              (withBoard samplePressed sampleSwapped)
              (iterSteps cyclicRng 1 (withBoard samplePressed sampleSwapped)))
    as (n & Hn & Hscore & _).
  - vm_compute; reflexivity.
  - exists n. rewrite <- Hn. exact Hscore.
Defined.

(** The accepted swap of the sample board: one iteration, three gems, 300
    points. *)
Example score_sample :
  totalScore <$> mouseup cyclicRng 5 samplePressed 2 4 = Some 300.
Proof. vm_compute. reflexivity. Qed.

(** ** C8: the rejection loop of [getSafeRandomGem] *)

Lemma getSafeRandomGem_draw rng fuel :
  forall pos b x y row t pos',
  getSafeRandomGem rng fuel pos b x y row = Some (t, pos') ->
  exists n, t = rng (pos + n) /\ pos' = S (pos + n)
            /\ accepted b x y row (rng (pos + n)) = true.
Proof.
  induction fuel as [|fuel IH]; intros pos b x y row t pos'; [done|].
  rewrite getSafeRandomGem_step.
  destruct (accepted b x y row (rng pos)) eqn:Hacc.
  - intros [= <- <-]. exists 0. by rewrite Nat.add_0_r.
  - intros H. apply IH in H as (n & -> & -> & Ha).
    exists (S n). by replace (pos + S n) with (S pos + n) by lia.
Qed.

Lemma getSafeRandomGem_enough rng b x y row n :
  forall pos, accepted b x y row (rng (pos + n)) = true ->
  is_Some (getSafeRandomGem rng (S n) pos b x y row).
Proof.
  induction n as [|n IH]; intros pos Hacc; rewrite getSafeRandomGem_step.
  - rewrite Nat.add_0_r in Hacc. by rewrite Hacc.
  - destruct (accepted b x y row (rng pos)); [done|].
    apply IH. by replace (S pos + n) with (pos + S n) by lia.
Qed.

(** C8, as amended.  For every cell, at least three of the five types are
    accepted; the loop returns the first accepted draw; and it returns iff
    the random sequence holds an accepted draw from the current position
    on. *)
Theorem getSafeRandomGem_returns_iff rng pos b x y row :
  3 <= length (filter (fun t => accepted b x y row t = true) allTypes)
  /\ (returns (fun fuel => getSafeRandomGem rng fuel pos b x y row)
      <-> exists n, accepted b x y row (rng (pos + n)) = true)
  /\ (forall n fuel,
        accepted b x y row (rng (pos + n)) = true ->
        (forall i, i < n -> accepted b x y row (rng (pos + i)) = false) ->
        n < fuel ->
        getSafeRandomGem rng fuel pos b x y row = Some (rng (pos + n), S (pos + n))).
Proof.
  conjs.
  - apply accepted_three.
  - split.
    + intros (fuel & [t pos'] & H). apply getSafeRandomGem_draw in H as (n & _ & _ & Ha).
      eauto.
    + intros (n & Ha). exists (S n). by apply getSafeRandomGem_enough.
  - intros n fuel Ha Hrej Hn. by apply getSafeRandomGem_first.
Qed.

Lemma getSafeRandomGem_returns_iff_witness :
  getSafeRandomGem cyclicRng 3 1 [] 2 0
    [mkGem 0 0 (Some T1) (Some false); mkGem 1 0 (Some T1) (Some false)]
  = Some (T2, 3).
Proof.
  apply (proj2 (proj2 (getSafeRandomGem_returns_iff cyclicRng 1 [] 2 0
           [mkGem 0 0 (Some T1) (Some false); mkGem 1 0 (Some T1) (Some false)])) 1 3).
  - vm_compute; reflexivity.
  - intros i Hi. assert (i = 0) as -> by lia. reflexivity.
  - lia.
Defined.

(** C8 as stated fails: under the sequence that always draws type 0 the
    loop never returns at the third cell of the first row, and [initBoard]
    never returns. *)
Lemma getSafeRandomGem_diverges :
  ~ returns (fun fuel =>
       getSafeRandomGem constRng fuel 2 [] 2 0
         [mkGem 0 0 (Some T0) (Some false); mkGem 1 0 (Some T0) (Some false)])
  /\ ~ returns (fun fuel => initBoard constRng fuel 0).
Proof.
  assert (forall fuel,
            getSafeRandomGem constRng fuel 2 [] 2 0
              [mkGem 0 0 (Some T0) (Some false); mkGem 1 0 (Some T0) (Some false)]
            = None) as Hloop.
  { intros fuel. apply getSafeRandomGem_rejected. intros i _. reflexivity. }
  split.
  - intros (fuel & t & Ht). by rewrite Hloop in Ht.
  - intros (fuel & r & Hr). revert Hr. unfold initBoard.
    change (seq 0 GRID_SIZE) with (0 :: seq 1 7). cbn [for_opt].
    unfold initRow at 1.
    change (seq 0 GRID_SIZE) with (0 :: 1 :: 2 :: seq 3 5). cbn [for_opt].
    destruct fuel as [|fuel]; [done|].
    change (initCell constRng (S fuel) [] 0 0 ([], 0))
      with (Some ([mkGem 0 0 (Some T0) (Some false)], 1)).
    cbv iota beta.
    change (initCell constRng (S fuel) [] 0 1 ([mkGem 0 0 (Some T0) (Some false)], 1))
      with (Some ([mkGem 0 0 (Some T0) (Some false); mkGem 1 0 (Some T0) (Some false)], 2)).
    cbv iota beta. unfold initCell at 1. by rewrite Hloop.
Qed.

(** ** C9: the cascade *)

Lemma cascade_enough rng n :
  forall s, findMatches (board (iterSteps rng n s)) = [] ->
  is_Some (cascade rng n s).
Proof.
  induction n as [|n IH]; intros s Hn; rewrite cascade_step.
  - rewrite iterSteps_0 in Hn. by rewrite Hn.
  - rewrite iterSteps_S in Hn.
    destruct (0 <? length (findMatches (board s))); [by apply IH|done].
Qed.

Lemma cascade_never rng s :
  (forall n, findMatches (board (iterSteps rng n s)) <> []) ->
  forall fuel, cascade rng fuel s = None.
Proof.
  intros Hall fuel. revert s Hall.
  induction fuel as [|fuel IH]; intros s Hall; rewrite cascade_step;
    pose proof (Hall 0) as H0; rewrite iterSteps_0 in H0;
    destruct (findMatches (board s)) eqn:Hm; try done; cbn [length Nat.ltb Nat.leb].
  apply IH. intros n. rewrite <- iterSteps_S. apply Hall.
Qed.

(** C9, as amended.  The cascade loop returns iff some iteration leaves a
    board on which [findMatches] returns the empty list, which depends on
    the draws of the refill; when it returns, [findMatches] returns the
    empty list on the final board, and the final board is full with every
    gem at its coordinates if the board was so at the start. *)
Theorem cascade_returns_iff rng s :
  (returns (fun fuel => cascade rng fuel s)
   <-> exists n, findMatches (board (iterSteps rng n s)) = [])
  /\ (forall fuel s', cascade rng fuel s = Some s' ->
        findMatches (board s') = []
        /\ (boardOk (board s) -> boardOk (board s'))).
Proof.
  split.
  - split.
    + intros (fuel & s' & Hc). apply cascade_Some in Hc as (n & _ & -> & Hz & _).
      exists n. by apply matchedAt_nil.
    + intros (n & Hn). exists n. by apply cascade_enough.
  - intros fuel s' Hc. split.
    + apply cascade_Some in Hc as (n & _ & -> & Hz & _).
      by apply matchedAt_nil.
    + intros Hok. by eapply boardOk_cascade.
Qed.

Lemma cascade_returns_iff_witness :
  findMatches
    (board (iterSteps cyclicRng 1 (withBoard samplePressed sampleSwapped))) = [].
Proof.
  apply (proj2 (cascade_returns_iff cyclicRng (withBoard samplePressed sampleSwapped))
           5 (iterSteps cyclicRng 1 (withBoard samplePressed sampleSwapped))).
  vm_compute; reflexivity.
Defined.

Lemma loopBoard_step sc sel dr k :
  cascadeStep loopRng (mkEngine loopBoard sc sel dr (64 + k))
  = mkEngine loopBoard (sc + 3 * 100) sel dr (64 + (3 + k)).
Proof. vm_compute. reflexivity. Qed.

Lemma loopBoard_forever n :
  forall sc sel dr k,
  board (iterSteps loopRng n (mkEngine loopBoard sc sel dr (64 + k))) = loopBoard.
Proof.
  induction n as [|n IH]; intros sc sel dr k; [done|].
  by rewrite iterSteps_S, loopBoard_step, IH.
Qed.

(** C9 as stated fails: under a random sequence that builds the sample
    board and then always draws type 0, the swap of the gems of columns 3
    and 2 in row 4 is accepted and the cascade never reaches a board
    without a match. *)
Lemma cascade_diverges :
  start loopRng 1 = Some sampleStart
  /\ reachable loopRng samplePressed
  /\ canMove sampleSwapped sampleGem (mkGem 2 4 (Some T1) (Some false)) 2 4 = true
  /\ (forall n, findMatches
                  (board (iterSteps loopRng n (withBoard samplePressed sampleSwapped)))
                <> [])
  /\ (forall fuel, mouseup loopRng fuel samplePressed 2 4 = None).
Proof.
  assert (start loopRng 1 = Some sampleStart) as Hstart by (vm_compute; reflexivity).
  assert (forall n, findMatches
            (board (iterSteps loopRng n (withBoard samplePressed sampleSwapped))) <> [])
    as Hall.
  { intros [|n]; [by vm_compute|].
    rewrite iterSteps_S.
    change (cascadeStep loopRng (withBoard samplePressed sampleSwapped))
      with (mkEngine loopBoard 300 (Some sampleGem) true (64 + 3)).
    by rewrite loopBoard_forever. }
  conjs; try done.
  - apply reach_mousedown. by apply (reach_start loopRng 1).
  - intros fuel.
    rewrite (mouseup_swap loopRng fuel samplePressed sampleGem 2 4
               (mkGem 2 4 (Some T1) (Some false))) by reflexivity.
    change (canMove _ _ _ _ _) with true. cbv iota.
    change (swapGems _ _ _ _ _) with sampleSwapped.
    by rewrite cascade_never.
Qed.
(** * Further properties of the engine *)

(** ** [findMatches] *)

(** X1.  On an 8 x 8 board whose gems store the coordinates of their
    slots, [findMatches] returns the matched gems in raster order: their
    coordinates form a sublist of the slots enumerated row by row, left to
    right. *)
Theorem findMatches_raster_order b :
  wfBoard b -> coherent b ->
  ((fun g => (gem_y g, gem_x g)) <$> findMatches b) `sublist_of` positions.
Proof.
  intros Hwf Hco. rewrite findMatches_coords by done.
  unfold matchedSlots. apply sublist_filter.
Qed.

Lemma findMatches_raster_order_witness :
  ((fun g => (gem_y g, gem_x g)) <$> findMatches crossBoard) `sublist_of` positions.
Proof.
  apply (findMatches_raster_order crossBoard); apply crossBoard_ok.
Defined.

Lemma inRun_three b y x :
  inRun b y x ->
  exists p1 p2 p3, NoDup [p1; p2; p3]
                   /\ forall p, p ∈ [p1; p2; p3] -> inRun b p.1 p.2.
Proof.
  intros [(lo & hi & t & Hrun & Hx)|(lo & hi & t & Hrun & Hy)].
  - exists (y, lo), (y, lo + 1), (y, lo + 2). split.
    + repeat (apply NoDup_cons; split); try apply NoDup_nil_2;
        rewrite ?elem_of_cons, ?elem_of_nil; intros H; intuition (simplify_eq; lia).
    + destruct Hrun as (? & ? & ? & ?).
      intros p Hp. assert (p.1 = y /\ lo <= p.2 <= lo + 2) as [-> Hk].
      { rewrite !elem_of_cons, elem_of_nil in Hp.
        destruct Hp as [->|[->|[->|[]]]]; simpl; lia. }
      left. exists lo, hi, t. split; [done|lia].
  - exists (lo, x), (lo + 1, x), (lo + 2, x). split.
    + repeat (apply NoDup_cons; split); try apply NoDup_nil_2;
        rewrite ?elem_of_cons, ?elem_of_nil; intros H; intuition (simplify_eq; lia).
    + destruct Hrun as (? & ? & ? & ?).
      intros p Hp. assert (p.2 = x /\ lo <= p.1 <= lo + 2) as [-> Hk].
      { rewrite !elem_of_cons, elem_of_nil in Hp.
        destruct Hp as [->|[->|[->|[]]]]; simpl; lia. }
      right. exists lo, hi, t. split; [done|lia].
Qed.

Lemma length_positions : length positions = GRID_SIZE * GRID_SIZE.
Proof. reflexivity. Qed.

Lemma findMatches_three b :
  wfBoard b -> findMatches b <> [] -> 3 <= length (findMatches b).
Proof.
  intros Hwf Hne. rewrite length_findMatches by done.
  destruct (findMatches b) as [|g l] eqn:Hl; [done|].
  assert (g ∈ findMatches b) as Hin by (rewrite Hl; constructor).
  apply elem_of_findMatches in Hin as (y & x & Hr & _); [|done].
  destruct (inRun_three _ _ _ Hr) as (p1 & p2 & p3 & Hnd & Hall).
  change 3 with (length [p1; p2; p3]).
  apply submseteq_length, NoDup_submseteq; [done|].
  intros [y' x'] Hp. apply elem_of_matchedSlots. by apply (Hall (y', x')).
Qed.

(** X2.  On an 8 x 8 board a result of [findMatches] that is not empty
    has at least 3 and at most 64 gems. *)
Theorem findMatches_size b :
  wfBoard b -> findMatches b <> [] ->
  3 <= length (findMatches b) <= GRID_SIZE * GRID_SIZE.
Proof.
  intros Hwf Hne. split; [by apply findMatches_three|].
  rewrite length_findMatches, <- length_positions by done.
  unfold matchedSlots. apply length_filter.
Qed.

Lemma findMatches_size_witness : 3 <= length (findMatches crossBoard) <= GRID_SIZE * GRID_SIZE.
Proof.
  apply (findMatches_size crossBoard).
  - apply crossBoard_wf.
  - vm_compute. discriminate.
Defined.

Lemma inRun_types b1 b2 y x :
  (forall y x, typeAt b1 y x = typeAt b2 y x) -> inRun b1 y x -> inRun b2 y x.
Proof.
  intros Hty [(lo & hi & t & (? & ? & ? & Hrun) & Hx)|(lo & hi & t & (? & ? & ? & Hrun) & Hy)].
  - left. exists lo, hi, t. split; [|done]. do 3 (split; [done|]).
    intros. rewrite <- Hty. by apply Hrun.
  - right. exists lo, hi, t. split; [|done]. do 3 (split; [done|]).
    intros. rewrite <- Hty. by apply Hrun.
Qed.

(** X3.  [findMatches] reads the types only: on two 8 x 8 boards with the
    same type in every slot it flags the same slots and returns as many
    gems. *)
Theorem findMatches_types_only b1 b2 :
  wfBoard b1 -> wfBoard b2 ->
  (forall y x, typeAt b1 y x = typeAt b2 y x) ->
  matchedSlots b1 = matchedSlots b2
  /\ length (findMatches b1) = length (findMatches b2).
Proof.
  intros Hwf1 Hwf2 Hty.
  assert (matchedSlots b1 = matchedSlots b2) as Hslots.
  { unfold matchedSlots. apply list_filter_iff. intros [y x]. simpl.
    rewrite !isMarked_markMatches. split; apply inRun_types; done. }
  split; [done|]. by rewrite !length_findMatches, Hslots.
Qed.

Lemma findMatches_types_only_witness :
  length (findMatches crossBoard)
  = length (findMatches (setCell crossBoard 7 7 (mkGem 0 0 (Some T4) None))).
Proof.
  apply (findMatches_types_only crossBoard
           (setCell crossBoard 7 7 (mkGem 0 0 (Some T4) None))).
  - apply crossBoard_wf.
  - apply wfBoard_setCell, crossBoard_wf.
  - intros y x. unfold typeAt.
    destruct (decide (y = 7 /\ x = 7)) as [[-> ->]|Hne]; [reflexivity|].
    rewrite cell_setCell_ne; [done|].
    destruct (decide (7 = y)); [right; intros ?; by apply Hne|by left].
Defined.

(** ** [removeMatches] *)

(** X4.  After [removeMatches(findMatches())] on an 8 x 8 board whose gems
    store the coordinates of their slots, no match is left:
    [findMatches] returns the empty list until [collapseBoard] refills the
    board. *)
Theorem removeMatches_clears b :
  wfBoard b -> coherent b ->
  findMatches (removeMatches (findMatches b) b) = [].
Proof.
  intros Hwf Hco.
  pose proof (wfBoard_removeMatches (findMatches b) b Hwf) as Hwf'.
  apply findMatches_nil; [done|].
  assert (forall y x t,
            typeAt (removeMatches (findMatches b) b) y x = Some t ->
            typeAt b y x = Some t /\ ~ inRun b y x) as Hkept.
  { intros y x t. unfold typeAt.
    destruct (isMarked (markMatches b) y x) eqn:Hm.
    - apply isMarked_markMatches in Hm.
      rewrite cell_removeMatches_found by done. by destruct (cell b y x).
    - assert (~ inRun b y x) as Hno
        by (rewrite <- isMarked_markMatches; congruence).
      by rewrite cell_removeMatches_other. }
  intros y x [(lo & hi & t & (Hy & Hlen & Hhi & Hrun) & Hx)
             |(lo & hi & t & (Hx & Hlen & Hhi & Hrun) & Hy)].
  - destruct (Hkept y lo t) as [_ Hno]; [apply Hrun; lia|]. apply Hno.
    left. exists lo, hi, t. split; [|lia]. do 3 (split; [done|]).
    intros k Hk. by apply Hkept, Hrun.
  - destruct (Hkept lo x t) as [_ Hno]; [apply Hrun; lia|]. apply Hno.
    right. exists lo, hi, t. split; [|lia]. do 3 (split; [done|]).
    intros k Hk. by apply Hkept, Hrun.
Qed.

Lemma removeMatches_clears_witness :
  findMatches (removeMatches (findMatches crossBoard) crossBoard) = [].
Proof.
  apply (removeMatches_clears crossBoard); apply crossBoard_ok.
Defined.
(** ** [collapseBoard] on a full board, and the draws of an iteration *)

Lemma filter_none {A : Type} (P : A -> Prop) `{forall a, Decision (P a)} (l : list A) :
  (forall a, a ∈ l -> ~ P a) -> filter P l = [].
Proof.
  induction l as [|a l IH]; intros Hno; [done|].
  rewrite filter_cons, decide_False by (apply Hno; constructor).
  apply IH. intros. apply Hno. by constructor.
Qed.

Lemma filter_iff_elem {A : Type} (P Q : A -> Prop)
    `{forall a, Decision (P a)} `{forall a, Decision (Q a)} (l : list A) :
  (forall a, a ∈ l -> P a <-> Q a) -> filter P l = filter Q l.
Proof.
  induction l as [|a l IH]; intros HPQ; [done|].
  rewrite !filter_cons, IH by (intros; apply HPQ; by constructor).
  pose proof (HPQ a ltac:(constructor)) as Ha.
  destruct (decide (P a)), (decide (Q a)); tauto.
Qed.

Lemma emptyCount_full b x :
  wfBoard b -> fullBoard b -> x < GRID_SIZE -> emptyCount (column b x) = 0.
Proof.
  intros Hwf Hfull Hx. unfold emptyCount.
  apply length_zero_iff_nil, filter_none.
  intros t Ht. unfold column in Ht.
  apply list_elem_of_fmap in Ht as (y & -> & Hy). apply elem_of_seq in Hy.
  destruct (cell_is_Some b y x Hwf) as [g Hg]; [lia|done|].
  rewrite (typeAt_cell _ _ _ _ Hg). by eapply Hfull.
Qed.

Lemma collapseBoard_full rng b pos :
  wfBoard b -> fullBoard b -> collapseBoard rng b pos = (b, pos).
Proof.
  intros Hwf Hfull. unfold collapseBoard.
  apply (for_each_seq_inv (fun _ s => s = (b, pos))); [done|].
  intros x s Hx ->.
  pose proof (collapseColumn_spec rng b pos x Hwf Hx) as (_ & Hpos & _ & _ & Hsame & _).
  pose proof (emptyCount_full b x Hwf Hfull Hx) as HE. rewrite HE in *.
  destruct (collapseColumn rng x (b, pos)) as [b' pos']. simpl in *.
  rewrite Hsame by done. f_equal. lia.
Qed.

(** X5.  On an 8 x 8 board without an empty cell [collapseBoard] changes
    nothing and draws no random number; hence collapsing a board that has
    just been collapsed changes nothing, and an iteration of the cascade
    on a full board without a match leaves the engine as it is. *)
Theorem collapseBoard_full_identity rng b pos :
  wfBoard b ->
  (fullBoard b -> collapseBoard rng b pos = (b, pos))
  /\ (forall pos',
        collapseBoard rng (collapseBoard rng b pos).1 pos'
        = ((collapseBoard rng b pos).1, pos'))
  /\ (forall s, board s = b -> fullBoard b -> findMatches b = [] ->
        cascadeStep rng s = s).
Proof.
  intros Hwf. split; [|split].
  - by apply collapseBoard_full.
  - intros pos'. apply collapseBoard_full.
    + by apply wfBoard_collapseBoard.
    + by apply fullBoard_collapseBoard.
  - intros s <- Hfull Hnil. unfold cascadeStep. rewrite Hnil. simpl.
    rewrite collapseBoard_full by done. destruct s. simpl. f_equal. lia.
Qed.

Lemma collapseBoard_full_identity_witness :
  collapseBoard cyclicRng crossBoard 7 = (crossBoard, 7).
Proof.
  apply (proj1 (collapseBoard_full_identity cyclicRng crossBoard 7 crossBoard_wf)).
  apply crossBoard_ok.
Defined.

(** The slots of the grid, column by column. *)
Lemma count_column (Q : nat -> nat -> Prop) `{forall y x, Decision (Q y x)} x (l : list nat) :
  length (filter (fun y => Q y x) l)
  = length (filter (fun p => Q p.1 p.2) (l ≫= fun y => [(y, x)])).
Proof.
  induction l as [|y l IH]; [done|].
  rewrite bind_cons, filter_app, length_app, <- IH, filter_cons.
  rewrite (filter_cons _ (y, x)), filter_nil. simpl.
  destruct (decide (Q y x)); simpl; lia.
Qed.

Lemma count_columns (Q : nat -> nat -> Prop) `{forall y x, Decision (Q y x)} (l : list nat) :
  sum_list ((fun x => length (filter (fun y => Q y x) (seq 0 GRID_SIZE))) <$> l)
  = length (filter (fun p => Q p.1 p.2)
              (l ≫= fun x => seq 0 GRID_SIZE ≫= fun y => [(y, x)])).
Proof.
  induction l as [|x l IH]; [done|].
  rewrite fmap_cons, bind_cons, filter_app, length_app, <- IH, <- count_column.
  done.
Qed.

Lemma positions_by_column :
  positions ≡ₚ (seq 0 GRID_SIZE ≫= fun x => seq 0 GRID_SIZE ≫= fun y => [(y, x)]).
Proof.
  apply NoDup_Permutation.
  - apply NoDup_positions.
  - apply (bool_decide_unpack _). by vm_compute.
  - intros [y x]. rewrite elem_of_positions, list_elem_of_bind. split.
    + intros [Hy Hx]. exists x. split; [|apply elem_of_seq; lia].
      apply list_elem_of_bind. exists y. split; [constructor|apply elem_of_seq; lia].
    + intros (x' & Hin & Hx'). apply list_elem_of_bind in Hin as (y' & Hin & Hy').
      apply list_elem_of_singleton in Hin as [= -> ->].
      apply elem_of_seq in Hx', Hy'. lia.
Qed.

Lemma emptyCount_column b x :
  emptyCount (column b x)
  = length (filter (fun y => typeAt b y x = None) (seq 0 GRID_SIZE)).
Proof.
  unfold emptyCount, column. generalize (seq 0 GRID_SIZE). intros l.
  induction l as [|y l IH]; [done|].
  rewrite fmap_cons, !filter_cons. simpl.
  destruct (decide (typeAt b y x = None)); simpl; by rewrite IH.
Qed.

(** The number of draws of [collapseBoard] is the number of empty slots. *)
Lemma drawsBefore_all b :
  drawsBefore b GRID_SIZE
  = length (filter (fun p => typeAt b p.1 p.2 = None) positions).
Proof.
  unfold drawsBefore.
  rewrite (list_fmap_ext _
             (fun x => length (filter (fun y => typeAt b y x = None) (seq 0 GRID_SIZE))))
    by (intros; apply emptyCount_column).
  rewrite (count_columns (fun y x => typeAt b y x = None)).
  by rewrite <- positions_by_column.
Qed.

Lemma removed_empty_iff b y x :
  boardOk b -> y < GRID_SIZE -> x < GRID_SIZE ->
  typeAt (removeMatches (findMatches b) b) y x = None <-> inRun b y x.
Proof.
  intros (Hwf & Hco & Hfull) Hy Hx. unfold typeAt.
  destruct (cell_is_Some b y x Hwf Hy Hx) as [g Hg].
  destruct (isMarked (markMatches b) y x) eqn:Hm.
  - apply isMarked_markMatches in Hm.
    rewrite cell_removeMatches_found, Hg by done. done.
  - assert (~ inRun b y x) as Hno by (rewrite <- isMarked_markMatches; congruence).
    rewrite cell_removeMatches_other, Hg by done. simpl.
    split; [|done]. intros Hnone. by apply Hfull in Hg.
Qed.

Lemma rngPos_cascadeStep rng s :
  rngPos (cascadeStep rng s)
  = (collapseBoard rng (removeMatches (findMatches (board s)) (board s)) (rngPos s)).2.
Proof. unfold cascadeStep. by destruct (collapseBoard _ _ _). Qed.

(** X6.  From a full 8 x 8 board whose gems store the coordinates of their
    slots, an iteration of the cascade draws exactly as many random numbers
    as [findMatches] returned gems: one per matched gem, so one for every
    100 points it adds to the score. *)
Theorem cascadeStep_draws rng s :
  boardOk (board s) ->
  rngPos (cascadeStep rng s) = rngPos s + length (findMatches (board s))
  /\ 100 * (rngPos (cascadeStep rng s) - rngPos s)
     = totalScore (cascadeStep rng s) - totalScore s.
Proof.
  intros Hok. pose proof Hok as (Hwf & Hco & Hfull).
  assert (rngPos (cascadeStep rng s) = rngPos s + length (findMatches (board s))) as Hpos.
  { rewrite rngPos_cascadeStep.
    pose proof (wfBoard_removeMatches (findMatches (board s)) _ Hwf) as Hwf1.
    destruct (collapseBoard_inv rng _ (rngPos s) Hwf1) as (_ & -> & _).
    f_equal. rewrite drawsBefore_all, length_findMatches by done.
    unfold matchedSlots. f_equal. apply filter_iff_elem.
    intros [y x] Hin. apply elem_of_positions in Hin as [Hy Hx]. simpl.
    by rewrite removed_empty_iff, isMarked_markMatches. }
  split; [done|]. rewrite Hpos, totalScore_cascadeStep. lia.
Qed.

Lemma cascadeStep_draws_witness :
  rngPos (cascadeStep cyclicRng (mkEngine crossBoard 0 None false 0))
  = 0 + length (findMatches crossBoard).
Proof.
  apply (proj1 (cascadeStep_draws cyclicRng (mkEngine crossBoard 0 None false 0)
                  crossBoard_ok)).
Defined.

(** ** The score of a swap *)

Lemma cascade_scores rng fuel s s' :
  wfBoard (board s) -> findMatches (board s) <> [] ->
  cascade rng fuel s = Some s' ->
  totalScore s + 300 <= totalScore s'.
Proof.
  intros Hwf Hne Hc. pose proof (findMatches_three _ Hwf Hne) as H3.
  apply cascade_Some in Hc as (n & _ & -> & Hz & _).
  destruct n as [|n].
  - rewrite matchedAt_0 in Hz. lia.
  - rewrite totalScore_iterSteps, sum_matched_S. lia.
Qed.

(** X7.  A [mouseup] that returns, from a state whose board is full,
    either leaves the board, the score and the position in the random
    sequence as they were, or has accepted a swap and raised the score by
    at least 300. *)
Theorem mouseup_scores rng fuel s newX newY s' :
  engineOk s -> mouseup rng fuel s newX newY = Some s' ->
  (board s' = board s /\ totalScore s' = totalScore s /\ rngPos s' = rngPos s)
  \/ totalScore s + 300 <= totalScore s'.
Proof.
  intros [Hok Hselok]. unfold mouseup.
  destruct (isDragging s); [|intros [= <-]; by left].
  destruct (selectedGem s) as [sel|] eqn:Hs; [|intros [= <-]; by left].
  destruct (swapAllowed sel newX newY) eqn:Ha; [|intros [= <-]; by left].
  destruct (cell (board s) (Z.to_nat newY) (Z.to_nat newX)) as [target|] eqn:Ht;
    [|done].
  pose proof (Hselok sel Hs) as Hsel.
  pose proof Hok as (Hwf & _).
  pose proof (swapAllowed_spec _ _ _ Ha) as (_ & _ & _ & _ & Hne).
  destruct (canMove _ _ _ _ _) eqn:Hc; simpl.
  - destruct (cascade _ _ _) as [s1|] eqn:Hcas; [|done]. intros [= <-]. right.
    apply canMove_inRun in Hc; [|done..].
    apply (cascade_scores _ _ _ _) in Hcas; [done|by apply wfBoard_swapGems|].
    simpl. intros Hnil.
    pose proof (proj1 (findMatches_nil _ (wfBoard_swapGems (board s) sel target
                  (Z.to_nat newX) (Z.to_nat newY) Hwf)) Hnil) as Hno.
    destruct Hc as [Hc|Hc]; by apply Hno in Hc.
  - intros [= <-]. left. simpl. by rewrite revertSwap_swapGems.
Qed.

Lemma mouseup_scores_witness :
  (board (endDrag samplePressed) = board samplePressed
   /\ totalScore (endDrag samplePressed) = totalScore samplePressed
   /\ rngPos (endDrag samplePressed) = rngPos samplePressed)
  \/ totalScore samplePressed + 300 <= totalScore (endDrag samplePressed).
Proof.
  apply (mouseup_scores cyclicRng 5 samplePressed 7 7 (endDrag samplePressed)
           samplePressed_ok).
  vm_compute; reflexivity.
Defined.

Lemma score_step_multiple rng s :
  (100 | totalScore s) -> (100 | totalScore (cascadeStep rng s)).
Proof.
  intros [k Hk]. rewrite totalScore_cascadeStep, Hk.
  exists (k + length (findMatches (board s))). lia.
Qed.

Lemma score_cascade_multiple rng fuel :
  forall s s', cascade rng fuel s = Some s' ->
  (100 | totalScore s) -> (100 | totalScore s').
Proof.
  induction fuel as [|fuel IH]; intros s s'; rewrite cascade_step;
    destruct (0 <? length (findMatches (board s))); try done.
  - by intros [= <-].
  - intros Hc Hs. eapply IH; [done|]. by apply score_step_multiple.
  - by intros [= <-].
Qed.

(** X8.  In every state the engine reaches the score is a multiple of
    100. *)
Theorem score_multiple_of_100 rng s :
  reachable rng s -> (100 | totalScore s).
Proof.
  induction 1 as [fuel s Hs|s x y _ IH|fuel s newX newY s' _ IH Hup].
  - unfold start in Hs. destruct (initBoard rng fuel 0) as [[b pos]|]; [|done].
    injection Hs as <-. simpl. by exists 0.
  - unfold mousedown. destruct ((0 <=? x)%Z && (0 <=? y)%Z); [|done].
    by destruct (cell _ _ _).
  - revert Hup. unfold mouseup.
    destruct (isDragging s); [|by intros [= <-]].
    destruct (selectedGem s) as [sel|]; [|by intros [= <-]].
    destruct (swapAllowed sel newX newY); [|by intros [= <-]].
    destruct (cell _ _ _) as [target|]; [|done].
    destruct (canMove _ _ _ _ _); simpl.
    + destruct (cascade _ _ _) as [s1|] eqn:Hc; [|done]. intros [= <-]. simpl.
      by apply (score_cascade_multiple _ _ _ _ Hc).
    + by intros [= <-].
Qed.

Lemma score_multiple_of_100_witness : (100 | totalScore samplePressed).
Proof.
  apply (score_multiple_of_100 loopRng samplePressed).
  apply reach_mousedown. apply (reach_start loopRng 1). vm_compute; reflexivity.
Defined.
(** ** The handlers *)

(** X9.  On an 8 x 8 board, a press on a cell of the grid selects the gem
    of that cell and starts a drag, leaving the board, the score and the
    position in the random sequence as they are; a press outside the grid
    changes nothing, so that it does not cancel a selection made before. *)
Theorem mousedown_selects s x y :
  wfBoard (board s) ->
  (inBounds x y ->
     exists g, cell (board s) (Z.to_nat y) (Z.to_nat x) = Some g
               /\ mousedown s x y
                  = mkEngine (board s) (totalScore s) (Some g) true (rngPos s))
  /\ (~ inBounds x y -> mousedown s x y = s).
Proof.
  intros Hwf. unfold mousedown, inBounds, GRID_SIZE. split.
  - intros [Hx Hy].
    destruct (cell_is_Some (board s) (Z.to_nat y) (Z.to_nat x) Hwf) as [g Hg];
      [grid_size; lia..|].
    exists g. split; [done|].
    replace ((0 <=? x)%Z && (0 <=? y)%Z) with true
      by (symmetry; apply andb_true_iff; lia).
    by rewrite Hg.
  - intros Hout.
    destruct ((0 <=? x)%Z && (0 <=? y)%Z) eqn:Hpos; [|done].
    apply andb_true_iff in Hpos as [Hx Hy].
    destruct (cell (board s) (Z.to_nat y) (Z.to_nat x)) as [g|] eqn:Hg; [|done].
    apply (cell_lt _ _ _ _ Hwf) in Hg. grid_size. lia.
Qed.

Lemma mousedown_selects_witness :
  mousedown (endDrag samplePressed) 9 2 = endDrag samplePressed.
Proof.
  apply (proj2 (mousedown_selects (endDrag samplePressed) 9 2
                  (proj1 (proj1 samplePressed_ok)))).
  unfold inBounds. vm_compute. intros [[_ H] _]. discriminate H.
Defined.

(** X10.  After a [mouseup] that returns, a further [mouseup], whatever
    its coordinates, changes nothing: the handler works once per drag. *)
Theorem mouseup_idempotent rng fuel fuel' s newX newY newX' newY' s' :
  mouseup rng fuel s newX newY = Some s' ->
  mouseup rng fuel' s' newX' newY' = Some s'.
Proof.
  unfold mouseup at 1.
  destruct (isDragging s) eqn:Hd.
  - destruct (selectedGem s) as [sel|] eqn:Hs.
    + assert (forall s0, mouseup rng fuel' (endDrag s0) newX' newY' = Some (endDrag s0))
        as Hend by done.
      destruct (swapAllowed sel newX newY); [|by intros [= <-]].
      destruct (cell _ _ _) as [target|]; [|done].
      destruct (canMove _ _ _ _ _); simpl.
      * destruct (cascade _ _ _) as [s1|]; [|done]. by intros [= <-].
      * by intros [= <-].
    + intros [= <-]. unfold mouseup. by rewrite Hd, Hs.
  - intros [= <-]. unfold mouseup. by rewrite Hd.
Qed.

Lemma mouseup_idempotent_witness :
  mouseup cyclicRng 0 (endDrag samplePressed) 2 4 = Some (endDrag samplePressed).
Proof.
  apply (mouseup_idempotent cyclicRng 5 0 samplePressed 7 7 2 4).
  vm_compute; reflexivity.
Defined.

(** X11.  The guard of the swap holds iff the target cell is on the grid
    and at Manhattan distance 1 from the selected gem.  Its last test,
    that the target differs from the cell of the selected gem, never
    decides: it holds whenever [isAdjacent] does.  Adjacency is
    symmetric. *)
Theorem swap_guard sel newX newY :
  (swapAllowed sel newX newY = true
   <-> inBounds newX newY /\ manhattan sel newX newY = 1%Z)
  /\ (isAdjacent sel newX newY = true ->
        negb (newX =? Z.of_nat (gem_x sel))%Z || negb (newY =? Z.of_nat (gem_y sel))%Z
        = true)
  /\ (forall other,
        newX = Z.of_nat (gem_x other) -> newY = Z.of_nat (gem_y other) ->
        isAdjacent sel newX newY
        = isAdjacent other (Z.of_nat (gem_x sel)) (Z.of_nat (gem_y sel))).
Proof.
  split; [apply swapAllowed_iff|]. split.
  - unfold isAdjacent.
    rewrite !orb_true_iff, !andb_true_iff, !negb_true_iff, !Z.eqb_neq, !Z.eqb_eq. lia.
  - intros other -> ->. unfold isAdjacent.
    apply eq_true_iff_eq.
    rewrite !orb_true_iff, !andb_true_iff, !Z.eqb_eq. lia.
Qed.

Lemma swap_guard_witness :
  negb (2 =? Z.of_nat (gem_x sampleGem))%Z || negb (4 =? Z.of_nat (gem_y sampleGem))%Z
  = true.
Proof.
  apply (proj1 (proj2 (swap_guard sampleGem 2 4))). vm_compute; reflexivity.
Defined.

(** ** [getSafeRandomGem] and [initBoard] *)

Lemma getSafeRandomGem_trace rng fuel :
  forall pos b x y row t pos',
  getSafeRandomGem rng fuel pos b x y row = Some (t, pos') ->
  pos < pos' /\ t = rng (pos' - 1)
  /\ accepted b x y row t = true
  /\ forall i, pos <= i < pos' - 1 -> accepted b x y row (rng i) = false.
Proof.
  induction fuel as [|fuel IH]; intros pos b x y row t pos'; [done|].
  rewrite getSafeRandomGem_step.
  destruct (accepted b x y row (rng pos)) eqn:Hacc.
  - intros [= <- <-]. replace (S pos - 1) with pos by lia.
    split; [lia|]. split; [done|]. split; [done|]. intros; lia.
  - intros H. apply IH in H as (Hlt & -> & Ha & Hrej).
    split; [lia|]. split; [done|]. split; [done|].
    intros i Hi. destruct (decide (i = pos)) as [->|]; [done|]. apply Hrej. lia.
Qed.

(** X12.  When [getSafeRandomGem] returns, it has consumed the draws up to
    the first accepted one and returns that draw: every earlier draw was
    rejected, and the returned type is not the type shared by the two gems
    to the left (from column 2 on), nor the type shared by the two gems
    above (from row 2 on).  In the columns 0 and 1 of the rows 0 and 1 the
    first draw is returned. *)
Theorem getSafeRandomGem_result rng fuel pos b x y row :
  (forall t pos',
     getSafeRandomGem rng fuel pos b x y row = Some (t, pos') ->
     pos < pos' /\ t = rng (pos' - 1)
     /\ (forall i, pos <= i < pos' - 1 -> accepted b x y row (rng i) = false)
     /\ ~ (2 <= x /\ optType (row !! (x - 1)) = Some t
           /\ optType (row !! (x - 2)) = Some t)
     /\ ~ (2 <= y /\ optType (cell b (y - 1) x) = Some t
           /\ optType (cell b (y - 2) x) = Some t))
  /\ (x < 2 -> y < 2 ->
      getSafeRandomGem rng (S fuel) pos b x y row = Some (rng pos, S pos)).
Proof.
  split.
  - intros t pos' H. apply getSafeRandomGem_trace in H as (Hlt & Ht & Ha & Hrej).
    do 3 (split; [done|]).
    unfold accepted, isMatchLeft, isMatchUp, type_eqb in Ha.
    apply andb_true_iff in Ha as [HL HU]. apply negb_true_iff in HL, HU.
    split.
    + intros (H2 & H1 & H0). apply Nat.leb_le in H2.
      by rewrite H2, !bool_decide_eq_true_2 in HL.
    + intros (H2 & H1 & H0). apply Nat.leb_le in H2.
      by rewrite H2, !bool_decide_eq_true_2 in HU.
  - intros Hx Hy. rewrite getSafeRandomGem_step.
    unfold accepted, isMatchLeft, isMatchUp.
    replace (2 <=? x) with false by (symmetry; apply Nat.leb_gt; lia).
    replace (2 <=? y) with false by (symmetry; apply Nat.leb_gt; lia).
    done.
Qed.

Lemma getSafeRandomGem_result_witness :
  1 < 3 /\ T2 = cyclicRng (3 - 1).
Proof.
  destruct (proj1 (getSafeRandomGem_result cyclicRng 3 1 [] 2 0
             [mkGem 0 0 (Some T1) (Some false); mkGem 1 0 (Some T1) (Some false)])
             T2 3) as (H1 & H2 & _).
  - vm_compute; reflexivity.
  - split; [exact H1|exact H2].
Defined.

Lemma initCell_more rng fuel b y x row pos row' pos' :
  initCell rng fuel b y x (row, pos) = Some (row', pos') ->
  pos < pos' /\ exists t, row' = row ++ [mkGem x y (Some t) (Some false)].
Proof.
  unfold initCell.
  destruct (getSafeRandomGem rng fuel pos b x y row) as [[t p]|] eqn:Hget; [|done].
  intros [= <- <-]. apply getSafeRandomGem_trace in Hget as (? & _). eauto.
Qed.

Lemma initRow_more rng fuel y b pos b' pos' :
  initRow rng fuel y (b, pos) = Some (b', pos') ->
  pos + GRID_SIZE <= pos'
  /\ exists row, b' = b ++ [row]
                 /\ Forall (fun g => gem_selected g = Some false) row.
Proof.
  unfold initRow.
  destruct (for_opt (seq 0 GRID_SIZE) (initCell rng fuel b y) ([], pos))
    as [[row p]|] eqn:Hloop; [|done].
  intros [= <- <-].
  assert (pos + GRID_SIZE <= p /\ Forall (fun g => gem_selected g = Some false) row)
    as [? ?]; [|eauto].
  apply (for_opt_seq_inv
           (fun k s => pos + k <= s.2
                       /\ Forall (fun g => gem_selected g = Some false) s.1)
           _ _ _ _ Hloop).
  - cbn [fst snd]. split; [lia|constructor].
  - intros i [r q] [r' q'] _ [Hq Hr] Hcell. cbn [fst snd] in *.
    apply initCell_more in Hcell as (Hlt & t & ->).
    split; [lia|]. apply Forall_app. split; [done|]. by repeat constructor.
Qed.

(** X13.  When [initBoard] returns, the board has 8 rows of 8 gems, every
    gem stores the coordinates of its slot, has a type and has its
    [selected] flag set to [false]; and at least 64 draws were consumed. *)
Theorem initBoard_shape rng fuel pos b pos' :
  initBoard rng fuel pos = Some (b, pos') ->
  wfBoard b /\ coherent b /\ fullBoard b
  /\ (forall y x g, cell b y x = Some g -> gem_selected g = Some false)
  /\ pos + GRID_SIZE * GRID_SIZE <= pos'.
Proof.
  intros Hinit. destruct (initBoard_wf _ _ _ _ _ Hinit) as (Hwf & Hco & Hfull).
  do 3 (split; [done|]).
  assert (pos + GRID_SIZE * GRID_SIZE <= pos'
          /\ Forall (Forall (fun g => gem_selected g = Some false)) b) as [Hpos Hsel].
  { unfold initBoard in Hinit.
    apply (for_opt_seq_inv
             (fun k s => pos + GRID_SIZE * k <= s.2
                         /\ Forall (Forall (fun g => gem_selected g = Some false)) s.1)
             _ _ _ _ Hinit).
    - cbn [fst snd]. split; [lia|constructor].
    - intros i [b0 q] [b1 q'] _ [Hq Hb] Hrow. cbn [fst snd] in *.
      apply initRow_more in Hrow as (Hle & row & -> & Hr).
      split; [grid_size; lia|]. apply Forall_app. split; [done|]. by repeat constructor. }
  cbn [fst snd] in Hpos, Hsel. split; [|exact Hpos].
  intros y x g Hg. unfold cell, grid_get in Hg.
  apply bind_Some in Hg as (row & Hrow & Hg).
  rewrite Forall_forall in Hsel.
  pose proof (Hsel row ltac:(by eapply list_elem_of_lookup_2)) as Hr.
  rewrite Forall_forall in Hr. apply Hr. by eapply list_elem_of_lookup_2.
Qed.

Lemma initBoard_shape_witness : 0 + GRID_SIZE * GRID_SIZE <= 64.
Proof.
  apply (initBoard_shape cyclicRng 1 0 cyclicBoard 64). vm_compute; reflexivity.
Defined.
(** ** [hasChainOfThree] *)

Lemma lineCount_ext_ne typeOf1 typeOf2 i type :
  (forall k, k <> i -> typeOf1 k = typeOf2 k) ->
  lineCount typeOf1 i type = lineCount typeOf2 i type.
Proof.
  intros H. unfold lineCount.
  rewrite (countWhile_ext _ (fun k => type_eqb (typeOf2 k) type) (rev _)).
  2:{ intros k Hk. apply list_elem_of_In, in_rev, list_elem_of_In, elem_of_seq in Hk.
      rewrite H; [done|lia]. }
  rewrite (countWhile_ext _ (fun k => type_eqb (typeOf2 k) type) (seq _ _)).
  2:{ intros k Hk. apply elem_of_seq in Hk. rewrite H; [done|lia]. }
  done.
Qed.

(** X14.  [hasChainOfThree(x, y, type)] does not read the cell (x, y)
    itself: it counts the cell as one gem of the asked type and looks at
    its row and its column only, so that the gem held by the cell does not
    change the answer.  It answers [false] for the type [null].  Asked for
    the type that the cell holds, on an 8 x 8 board whose gems store the
    coordinates of their slots, it answers [true] iff [findMatches]
    returns the gem of the cell. *)
Theorem hasChainOfThree_local b x y :
  (forall g type,
     hasChainOfThree (setCell b y x g) x y type = hasChainOfThree b x y type)
  /\ hasChainOfThree b x y None = false
  /\ (forall g t,
        wfBoard b -> coherent b ->
        cell b y x = Some g -> gem_type g = Some t ->
        hasChainOfThree b x y (Some t) = true <-> g ∈ findMatches b).
Proof.
  split; [|split; [done|]].
  - intros g type. unfold hasChainOfThree.
    rewrite (lineCount_ext_ne (fun i => typeAt (setCell b y x g) i x)
               (fun i => typeAt b i x))
      by (intros k Hk; unfold typeAt; by rewrite cell_setCell_ne by (left; done)).
    rewrite (lineCount_ext_ne (fun i => typeAt (setCell b y x g) y i)
               (fun i => typeAt b y i))
      by (intros k Hk; unfold typeAt; by rewrite cell_setCell_ne by (right; done)).
    done.
  - intros g t Hwf Hco Hg Ht.
    destruct (cell_lt _ _ _ _ Hwf Hg) as [Hy Hx].
    rewrite hasChainOfThree_inRun
      by (try done; by rewrite (typeAt_cell _ _ _ _ Hg)).
    rewrite elem_of_findMatches by done. split; [eauto|].
    intros (y' & x' & Hr & Hg').
    destruct (Hco _ _ _ Hg) as [<- <-]. by destruct (Hco _ _ _ Hg') as [-> ->].
Qed.

Lemma hasChainOfThree_local_witness :
  hasChainOfThree crossBoard 0 0 (Some T0) = true
  <-> mkGem 0 0 (Some T0) (Some false) ∈ findMatches crossBoard.
Proof.
  apply (proj2 (proj2 (hasChainOfThree_local crossBoard 0 0))
           (mkGem 0 0 (Some T0) (Some false)) T0
           crossBoard_wf (proj1 (proj2 crossBoard_ok)));
    reflexivity.
Defined.

(** ** The swap *)

(** X15.  On an 8 x 8 board whose gems store the coordinates of their
    slots, the swap of the selected gem with the gem of another cell
    exchanges the types of the two cells and leaves every other cell as it
    is; and swapping the same two cells again gives back the board that
    was there before the swap. *)
Theorem swapGems_round_trip b sel target newX newY :
  wfBoard b -> coherent b ->
  cell b (gem_y sel) (gem_x sel) = Some sel -> cell b newY newX = Some target ->
  newX <> gem_x sel \/ newY <> gem_y sel ->
  let b1 := swapGems b sel target newX newY in
  typeAt b1 newY newX = gem_type sel
  /\ typeAt b1 (gem_y sel) (gem_x sel) = gem_type target
  /\ (forall y x, (y <> newY \/ x <> newX) -> (y <> gem_y sel \/ x <> gem_x sel) ->
        cell b1 y x = cell b y x)
  /\ exists sel' target',
       cell b1 newY newX = Some sel'
       /\ cell b1 (gem_y sel) (gem_x sel) = Some target'
       /\ swapGems b1 sel' target' (gem_x sel) (gem_y sel) = b.
Proof.
  intros Hwf Hco Hsel Htarget Hne b1.
  pose proof (cell_swapGems_new b sel target newX newY Hwf Htarget) as Hnew.
  pose proof (cell_swapGems_old b sel target newX newY Hsel Hne) as Hold.
  pose proof (wfBoard_swapGems b sel target newX newY Hwf) as Hwf1.
  fold b1 in Hnew, Hold, Hwf1.
  destruct (cell_lt _ _ _ _ Hwf Htarget) as [HnY HnX].
  destruct (cell_lt _ _ _ _ Hwf Hsel) as [HsY HsX].
  split; [by rewrite (typeAt_cell _ _ _ _ Hnew)|].
  split; [by rewrite (typeAt_cell _ _ _ _ Hold)|].
  split; [intros; by apply cell_swapGems_other|].
  eexists _, _. split; [exact Hnew|]. split; [exact Hold|].
  destruct (Hco _ _ _ Htarget) as [Htx Hty].
  unfold swapGems at 1. simpl.
  assert (mkGem newX newY (gem_type target) (gem_selected target) = target) as ->
    by (destruct target; simpl in *; by subst).
  assert (mkGem (gem_x sel) (gem_y sel) (gem_type sel) (gem_selected sel) = sel) as ->
    by by destruct sel.
  apply board_ext; [by apply wfBoard_setCell, wfBoard_setCell|done|].
  intros y x.
  destruct (decide (y = gem_y sel /\ x = gem_x sel)) as [[-> ->]|H2].
  { rewrite cell_setCell_eq; [done|].
    apply cell_is_Some; [by apply wfBoard_setCell|done..]. }
  rewrite cell_setCell_ne
    by (destruct (decide (gem_y sel = y)); [right; intros ?; by apply H2|by left]).
  destruct (decide (y = newY /\ x = newX)) as [[-> ->]|H1].
  { rewrite cell_setCell_eq; [done|]. by apply cell_is_Some. }
  rewrite cell_setCell_ne
    by (destruct (decide (newY = y)); [right; intros ?; by apply H1|by left]).
  apply cell_swapGems_other.
  - destruct (decide (y = newY)); [right; intros ?; by apply H1|by left].
  - destruct (decide (y = gem_y sel)); [right; intros ?; by apply H2|by left].
Qed.

Lemma swapGems_round_trip_witness :
  typeAt (swapGems sampleBoard sampleGem (mkGem 2 4 (Some T1) (Some false)) 2 4) 4 2
  = gem_type sampleGem.
Proof.
  apply (swapGems_round_trip sampleBoard sampleGem (mkGem 2 4 (Some T1) (Some false)) 2 4);
    try reflexivity.
  - apply (proj1 samplePressed_ok).
  - apply (proj1 samplePressed_ok).
  - left. vm_compute. discriminate.
Defined.

(** ** [removeMatches] on any list of gems *)



(** ** The list returned by [collapseBoard] *)

Lemma for_each_proj {S T : Type} (proj : S -> T) (l : list nat)
    (f : nat -> S -> S) (g : nat -> T -> T) (s : S) :
  (forall i s, proj (f i s) = g i (proj s)) ->
  proj (for_each l f s) = for_each l g (proj s).
Proof.
  intros H. revert s. induction l as [|i l IH]; intros s; [done|].
  unfold for_each in *. simpl. by rewrite IH, H.
Qed.

Lemma collapseCellFalling_proj x y s :
  (collapseCellFalling x y s).1 = collapseCell x y s.1.
Proof.
  destruct s as [[b e] fs]. unfold collapseCellFalling, collapseCell. cbn [fst snd].
  destruct (cell b y x) as [gem|]; [|done].
  destruct (gem_type gem); [|done]. by destruct (0 <? e).
Qed.

Lemma refillCellFalling_proj rng x e y s :
  (refillCellFalling rng x e y s).1 = refillCell rng x y s.1.
Proof. by destruct s as [[b p] fs]. Qed.

Lemma listed_app fs fs' y x : listed fs y x -> listed (fs ++ fs') y x.
Proof. intros (f & Hf & ?). exists f. split; [|done]. apply elem_of_app. by left. Qed.

Lemma scanInv_start b x : wfBoard b -> scanInv b x GRID_SIZE (b, 0).
Proof.
  intros Hwf. unfold scanInv. cbn [fst snd]. conjs; try done.
  intros k g' Hg'. right. eauto.
Qed.

Lemma fall_scan_step b0 fs0 x y s :
  wfBoard b0 -> x < GRID_SIZE -> y < GRID_SIZE ->
  (forall f, f ∈ fs0 -> gem_x (falling_gem f) <> x) ->
  fallScanInv b0 fs0 x (S y) s ->
  fallScanInv b0 fs0 x y (collapseCellFalling x y s).
Proof.
  intros Hwf Hx Hy Hcol. destruct s as [[b1 e] fs].
  intros (Hscan & Hon & Hnew & Hold & Hlisted & Hzero). cbn [fst snd] in *.
  pose proof (collapseCell_inv b0 x y (b1, e) Hwf Hx Hy Hscan) as Hscan'.
  split; [by rewrite collapseCellFalling_proj|]. clear Hscan'.
  destruct Hscan as (Hwf1 & Hother & Habove & Hseg & Hcount & Hsame & Hco).
  cbn [fst snd] in *.
  destruct (cell_is_Some b0 y x Hwf Hy Hx) as [gem Hgem].
  unfold collapseCellFalling. rewrite Habove, Hgem by lia.
  destruct (gem_type gem) as [t|] eqn:Ht.
  - destruct (0 <? e) eqn:He.
    + apply Nat.ltb_lt in He.
      assert (y + e < GRID_SIZE) as Hin by lia.
      assert (is_Some (cell b1 (y + e) x)) as Htarget by by apply cell_is_Some.
      cbn [fst snd]. conjs.
      * intros f Hf. unfold onBoard. apply elem_of_app in Hf as [Hf|Hf].
        -- destruct (Hnew f Hf) as [Hf0|(Hfx & Hfy & _)].
           ++ rewrite cell_setType_ne, cell_setCell_ne
                by (right; intros ?; by eapply Hcol). by apply Hon.
           ++ rewrite cell_setType_ne, cell_setCell_ne by (left; lia). by apply Hon.
        -- apply list_elem_of_singleton in Hf as ->. simpl.
           rewrite cell_setType_ne by (left; lia). by apply cell_setCell_eq.
      * intros f Hf. apply elem_of_app in Hf as [Hf|Hf].
        -- destruct (Hnew f Hf) as [Hf0|(Hfx & Hfy & Hst)]; [by left|].
           right. split; [done|]. split; [lia|done].
        -- apply list_elem_of_singleton in Hf as ->. right. simpl.
           split; [done|]. split; [lia|]. intros Hcoh.
           destruct (Hcoh _ _ _ Hgem) as [_ ->].
           unfold startsAbove, CELL_SIZE. simpl. lia.
      * intros f Hf. apply elem_of_app. left. by apply Hold.
      * intros k Hk. destruct (decide (k = y + e)) as [->|Hne].
        -- right. eexists. split; [apply elem_of_app; right; constructor|done].
        -- destruct (Hlisted k ltac:(lia)) as [Hc|Hl].
           ++ left. by rewrite cell_setType_ne, cell_setCell_ne by (left; lia).
           ++ right. by apply listed_app.
      * lia.
    + apply Nat.ltb_ge in He. assert (e = 0) as -> by lia.
      cbn [fst snd]. conjs; try done.
      * intros f Hf. destruct (Hnew f Hf) as [Hf0|(Hfx & Hfy & Hst)]; [by left|].
        right. split; [done|]. split; [lia|done].
      * intros k Hk. destruct (decide (k = y)) as [->|Hne].
        -- left. apply Habove. lia.
        -- apply Hlisted. lia.
  - cbn [fst snd]. conjs; try done.
    + intros f Hf. destruct (Hnew f Hf) as [Hf0|(Hfx & Hfy & Hst)]; [by left|].
      right. split; [done|]. split; [lia|done].
    + intros k Hk. apply Hlisted. lia.
Qed.

Lemma fall_scan b0 fs0 x :
  wfBoard b0 -> x < GRID_SIZE ->
  (forall f, f ∈ fs0 -> onBoard b0 f /\ gem_x (falling_gem f) <> x) ->
  fallScanInv b0 fs0 x 0
    (for_each (rev (seq 0 GRID_SIZE)) (collapseCellFalling x) (b0, 0, fs0)).
Proof.
  intros Hwf Hx Hfs0.
  apply (for_each_rev_seq_inv (fallScanInv b0 fs0 x)).
  - unfold fallScanInv. cbn [fst snd]. conjs; try done.
    + by apply scanInv_start.
    + intros f Hf. by apply Hfs0.
    + intros f Hf. by left.
    + intros k Hk. by left.
  - intros y s Hy. apply fall_scan_step; try done. intros f Hf. by apply Hfs0.
Qed.

Lemma refillInv_start rng b1 pos x : wfBoard b1 -> refillInv rng b1 pos x 0 (b1, pos).
Proof.
  intros Hwf. unfold refillInv. cbn [fst snd]. conjs; try done; try lia.
Qed.

Lemma fall_refill_step rng b1 fs1 pos x e j s :
  x < GRID_SIZE -> j < e -> e <= GRID_SIZE ->
  (forall f, f ∈ fs1 -> gem_x (falling_gem f) = x -> e <= gem_y (falling_gem f)) ->
  fallRefillInv rng b1 fs1 pos x j s ->
  fallRefillInv rng b1 fs1 pos x (S j) (refillCellFalling rng x e j s).
Proof.
  intros Hx Hj He Hfs1. destruct s as [[b2 p] fs].
  intros (Hrefill & Hon & Hnew & Hold & Hlisted & Hzero). cbn [fst snd] in *.
  pose proof (refillCell_inv rng b1 pos x j (b2, p) Hx ltac:(lia) Hrefill) as Hrefill'.
  split; [by rewrite refillCellFalling_proj|]. clear Hrefill'.
  destruct Hrefill as (Hwf2 & Hp & _). cbn [fst snd] in *.
  assert (is_Some (cell b2 j x)) as Hslot by (apply cell_is_Some; [done|lia|done]).
  unfold refillCellFalling, getRandomGemType. cbn [fst snd]. conjs.
  - intros f Hf. unfold onBoard. apply elem_of_app in Hf as [Hf|Hf].
    + assert (gem_y (falling_gem f) <> j \/ gem_x (falling_gem f) <> x) as Hne.
      { destruct (Hnew f Hf) as [Hf1|(Hfx & Hfy & _)]; [|left; lia].
        destruct (decide (gem_x (falling_gem f) = x)) as [Hfx|]; [|by right].
        left. specialize (Hfs1 f Hf1 Hfx). lia. }
      rewrite cell_setCell_ne by (destruct Hne; [left|right]; done). by apply Hon.
    + apply list_elem_of_singleton in Hf as ->. simpl. by apply cell_setCell_eq.
  - intros f Hf. apply elem_of_app in Hf as [Hf|Hf].
    + destruct (Hnew f Hf) as [Hf1|(Hfx & Hfy & Hst)]; [by left|].
      right. split; [done|]. split; [lia|done].
    + apply list_elem_of_singleton in Hf as ->. right. simpl.
      split; [done|]. split; [lia|]. unfold startsAbove, CELL_SIZE. simpl. lia.
  - intros f Hf. apply elem_of_app. left. by apply Hold.
  - intros k Hk. destruct (decide (k = j)) as [->|Hne].
    + eexists. split; [apply elem_of_app; right; constructor|done].
    + apply listed_app, Hlisted. lia.
  - lia.
Qed.

Lemma fall_refill rng b1 fs1 pos x e :
  wfBoard b1 -> x < GRID_SIZE -> e <= GRID_SIZE ->
  (forall f, f ∈ fs1 -> onBoard b1 f) ->
  (forall f, f ∈ fs1 -> gem_x (falling_gem f) = x -> e <= gem_y (falling_gem f)) ->
  fallRefillInv rng b1 fs1 pos x e
    (for_each (seq 0 e) (refillCellFalling rng x e) (b1, pos, fs1)).
Proof.
  intros Hwf Hx He Hon Hfs1.
  apply (for_each_seq_inv (fallRefillInv rng b1 fs1 pos x)).
  - unfold fallRefillInv. cbn [fst snd]. conjs; try done.
    + by apply refillInv_start.
    + intros f Hf. by left.
    + intros; lia.
  - intros j s Hj. by apply fall_refill_step.
Qed.

Lemma collapseColumnFalling_spec rng b pos fs x :
  wfBoard b -> x < GRID_SIZE ->
  (forall f, f ∈ fs -> onBoard b f /\ gem_x (falling_gem f) <> x) ->
  let s' := collapseColumnFalling rng x (b, pos, fs) in
  s'.1 = collapseColumn rng x (b, pos) /\ columnFalls b s'.1.1 fs s'.2 x.
Proof.
  intros Hwf Hx Hfs. unfold collapseColumnFalling, collapseColumn.
  pose proof (fall_scan b fs x Hwf Hx Hfs) as Hscan.
  pose proof (for_each_proj fst (rev (seq 0 GRID_SIZE)) (collapseCellFalling x)
                (collapseCell x) (b, 0, fs) (collapseCellFalling_proj x)) as Hproj1.
  destruct (for_each (rev (seq 0 GRID_SIZE)) (collapseCellFalling x) (b, 0, fs))
    as [[b1 e] fs1].
  cbn [fst snd] in Hproj1. rewrite <- Hproj1.
  destruct Hscan as (Hsc & Hon1 & Hnew1 & Hold1 & Hlisted1 & Hzero1).
  cbn [fst snd] in *.
  pose proof Hsc as (Hwf1 & _ & _ & _ & Hcount & _). cbn [fst snd] in *.
  pose proof (emptyCount_segment _ _ _ Hcount) as HE.
  assert (e <= GRID_SIZE) as He by lia.
  assert (forall f, f ∈ fs1 -> gem_x (falling_gem f) = x -> e <= gem_y (falling_gem f))
    as Hfs1.
  { intros f Hf Hfx. destruct (Hnew1 f Hf) as [Hf0|(_ & ? & _)]; [|lia].
    by destruct (Hfs f Hf0). }
  pose proof (fall_refill rng b1 fs1 pos x e Hwf1 Hx He Hon1 Hfs1) as Hrefill.
  pose proof (for_each_proj fst (seq 0 e) (refillCellFalling rng x e)
                (refillCell rng x) (b1, pos, fs1)
                (refillCellFalling_proj rng x e)) as Hproj2.
  destruct (for_each (seq 0 e) (refillCellFalling rng x e) (b1, pos, fs1))
    as [[b2 p] fs2].
  cbn [fst snd] in Hproj2. split; [done|].
  destruct Hrefill as (Hrf & Hon2 & Hnew2 & Hold2 & Hlisted2 & Hzero2).
  destruct Hrf as (_ & _ & _ & Hbelow & _).
  cbn [fst snd] in *. unfold columnFalls. conjs.
  - done.
  - intros f Hf. destruct (Hnew2 f Hf) as [Hf1|(Hfx & _ & Hst)].
    + destruct (Hnew1 f Hf1) as [Hf0|(Hfx & _ & Hst)]; [by left|by right].
    + right. split; [done|]. by intros _.
  - intros f Hf. by apply Hold2, Hold1.
  - intros k. destruct (decide (k < e)) as [Hlt|Hge]; [right; by apply Hlisted2|].
    destruct (Hlisted1 k ltac:(lia)) as [Hc|(f & Hf & ?)].
    + left. rewrite Hbelow by lia. done.
    + right. exists f. split; [by apply Hold2|done].
  - rewrite HE. intros ->. rewrite Hzero2 by done. by apply Hzero1.
Qed.

Lemma collapseColumns_full rng b pos k :
  wfBoard b -> fullBoard b -> k <= GRID_SIZE ->
  for_each (seq 0 k) (collapseColumn rng) (b, pos) = (b, pos).
Proof.
  intros Hwf Hfull Hk.
  apply (for_each_seq_inv (fun _ s => s = (b, pos))); [done|].
  intros x s Hx ->.
  pose proof (collapseColumn_spec rng b pos x Hwf ltac:(lia)) as (_ & Hpos & _ & _ & Hsame & _).
  pose proof (emptyCount_full b x Hwf Hfull ltac:(lia)) as HE. rewrite HE in *.
  destruct (collapseColumn rng x (b, pos)) as [b' pos']. simpl in *.
  rewrite Hsame by done. f_equal. lia.
Qed.

Lemma collapseColumnFalling_inv rng b pos k s :
  wfBoard b -> k < GRID_SIZE ->
  fallInv rng b pos k s -> fallInv rng b pos (S k) (collapseColumnFalling rng k s).
Proof.
  intros Hwf Hk. destruct s as [[bk pk] fs].
  intros (Hproj & Hinv & Hon & Hst & Hcells & Hfull). cbn [fst snd] in *.
  pose proof Hinv as (Hwfk & _ & Hright & _ & Hcoh). cbn [fst snd] in *.
  pose proof (collapseColumn_inv rng b pos k (bk, pk) Hwf Hk Hinv) as Hinv'.
  pose proof (collapseColumn_spec rng bk pk k Hwfk Hk) as (_ & _ & Hother & _).
  assert (forall f, f ∈ fs -> onBoard bk f /\ gem_x (falling_gem f) <> k) as Hfs.
  { intros f Hf. destruct (Hon f Hf). split; [done|lia]. }
  pose proof (collapseColumnFalling_spec rng bk pk fs k Hwfk Hk Hfs) as [Hp Hcol].
  destruct (collapseColumnFalling rng k (bk, pk, fs)) as [[b' p'] fs'].
  cbn [fst snd] in *. rewrite <- Hp in Hinv', Hother. cbn [fst snd] in Hother.
  destruct Hcol as (Hon' & Hnew' & Hold' & Hcells' & Hzero').
  unfold fallInv. cbn [fst snd]. conjs.
  - by rewrite seq_S, for_each_app, <- Hproj, Hp.
  - done.
  - intros f Hf. split; [by apply Hon'|].
    destruct (Hnew' f Hf) as [Hf0|[-> _]]; [|lia].
    destruct (Hon f Hf0). lia.
  - intros Hco f Hf. destruct (Hnew' f Hf) as [Hf0|[_ Habove]]; [by apply Hst|].
    by apply Habove, Hcoh.
  - intros y x. destruct (decide (x = k)) as [->|Hne].
    + destruct (Hcells' y) as [Hc|Hl]; [|by right]. left. rewrite Hc. apply Hright. lia.
    + rewrite Hother by done.
      destruct (Hcells y x) as [Hc|(f & Hf & ?)]; [by left|].
      right. exists f. split; [by apply Hold'|done].
  - intros Hfb. rewrite Hzero'; [by apply Hfull|].
    rewrite collapseColumns_full in Hproj by (done || lia).
    injection Hproj as -> ->. by apply emptyCount_full.
Qed.

Lemma collapseInv_start rng b pos : wfBoard b -> collapseInv rng b pos 0 (b, pos).
Proof.
  intros Hwf. unfold collapseInv, drawsBefore. cbn [fst snd].
  conjs; try done; try lia.
Qed.

(** X17.  The list that [collapseBoard] returns goes with the board that
    it leaves (an 8 x 8 board is assumed): each gem of the list is the gem
    that the new board holds at the coordinates the gem stores; a slot
    that has no gem in the list holds what it held before the call; when
    the gems of the old board store the coordinates of their slots, every
    gem of the list starts its animation strictly above its cell; and on a
    board without an empty cell the list is empty. *)
Theorem collapseBoard_fallingGems rng b pos :
  wfBoard b ->
  let s := collapseBoardFalling rng b pos in
  s.1 = collapseBoard rng b pos
  /\ (forall f, f ∈ s.2 -> onBoard s.1.1 f)
  /\ (forall y x, cell s.1.1 y x = cell b y x \/ listed s.2 y x)
  /\ (coherent b -> forall f, f ∈ s.2 -> startsAbove f)
  /\ (fullBoard b -> s.2 = []).
Proof.
  intros Hwf s.
  assert (fallInv rng b pos GRID_SIZE s) as (Hproj & _ & Hon & Hst & Hcells & Hfull).
  { unfold s, collapseBoardFalling.
    apply (for_each_seq_inv (fallInv rng b pos)).
    - unfold fallInv. cbn [fst snd]. conjs; try done.
      + by apply collapseInv_start.
      + intros f Hf. by apply elem_of_nil in Hf.
      + intros _ f Hf. by apply elem_of_nil in Hf.
      + intros. by left.
    - intros k s0 Hk. by apply collapseColumnFalling_inv. }
  conjs; try done. intros f Hf. by apply Hon.
Qed.

Lemma collapseBoard_fallingGems_witness :
  (collapseBoardFalling cyclicRng holedBoard 0).1 = collapseBoard cyclicRng holedBoard 0.
Proof.
  apply (proj1 (collapseBoard_fallingGems cyclicRng holedBoard 0 holedBoard_wf)).
Defined.

(** The three empty cells of [holedBoard]: seven gems fall in column 0
    (five from above the holes, two new ones) and six in column 2 (five
    from above the hole, one new one). *)
Example fallingGems_holed :
  length (collapseBoardFalling cyclicRng holedBoard 0).2 = 13.
Proof. vm_compute. reflexivity. Qed.
(** ** The board at rest *)

Lemma initBoard_nil rng fuel pos b pos' :
  initBoard rng fuel pos = Some (b, pos') -> findMatches b = [].
Proof.
  intros Hinit.
  pose proof (initBoard_inv _ _ _ _ _ Hinit) as (_ & _ & _ & _ & Hsafe).
  destruct (initBoard_wf _ _ _ _ _ Hinit) as (Hwf & _).
  apply findMatches_nil; [done|]. intros y x. by apply safe_no_run.
Qed.

Lemma cascade_nil rng fuel :
  forall s s', cascade rng fuel s = Some s' -> findMatches (board s') = [].
Proof.
  intros s s' Hc. apply cascade_Some in Hc as (n & _ & -> & Hz & _).
  by apply matchedAt_nil.
Qed.

(** X18.  In every state the engine reaches between two events the board
    has no match: [findMatches] returns the empty list on it, and no cell
    lies on a run of three or more identical gems. *)
Theorem no_match_at_rest rng s :
  reachable rng s ->
  findMatches (board s) = [] /\ forall y x, ~ inRun (board s) y x.
Proof.
  intros Hreach.
  assert (findMatches (board s) = []) as Hnil.
  { induction Hreach as [fuel s Hs|s x y Hr IH|fuel s newX newY s' Hr IH Hup].
    - unfold start in Hs.
      destruct (initBoard rng fuel 0) as [[b pos]|] eqn:Hinit; [|done].
      injection Hs as <-. simpl. by eapply initBoard_nil.
    - unfold mousedown. destruct ((0 <=? x)%Z && (0 <=? y)%Z); [|done].
      by destruct (cell (board s) (Z.to_nat y) (Z.to_nat x)).
    - pose proof (reachable_engineOk _ _ Hr) as [Hok Hselok].
      revert Hup. unfold mouseup.
      destruct (isDragging s); [|by intros [= <-]].
      destruct (selectedGem s) as [sel|] eqn:Hs; [|by intros [= <-]].
      destruct (swapAllowed sel newX newY); [|by intros [= <-]].
      destruct (cell (board s) (Z.to_nat newY) (Z.to_nat newX)) as [target|] eqn:Ht;
        [|done].
      destruct (canMove _ _ _ _ _); simpl.
      + destruct (cascade _ _ _) as [s1|] eqn:Hc; [|done]. intros [= <-]. simpl.
        by eapply cascade_nil.
      + intros [= <-]. simpl. pose proof Hok as (Hwf & _).
        rewrite revertSwap_swapGems; [done..|by apply Hselok|done]. }
  split; [done|].
  apply findMatches_nil; [|done]. by destruct (reachable_engineOk _ _ Hreach) as [(? & _) _].
Qed.

Lemma no_match_at_rest_witness : findMatches (board samplePressed) = [].
Proof.
  apply (no_match_at_rest loopRng samplePressed).
  apply reach_mousedown. apply (reach_start loopRng 1). vm_compute; reflexivity.
Defined.

(** X19.  From a state whose board is full and has no match, the swap of
    two gems of the same type is rejected: the [mouseup] ends the drag and
    leaves the board and the score as they were. *)
Theorem same_type_swap_rejected rng fuel s sel target newX newY :
  engineOk s -> findMatches (board s) = [] ->
  isDragging s = true -> selectedGem s = Some sel ->
  swapAllowed sel newX newY = true ->
  cell (board s) (Z.to_nat newY) (Z.to_nat newX) = Some target ->
  gem_type target = gem_type sel ->
  mouseup rng fuel s newX newY = Some (endDrag s).
Proof.
  intros [Hok Hselok] Hnil Hd Hs Ha Ht Hsame.
  pose proof Hok as (Hwf & _). pose proof (Hselok sel Hs) as Hsel.
  pose proof (swapAllowed_spec _ _ _ Ha) as (_ & _ & _ & _ & Hne).
  rewrite (mouseup_swap rng fuel s sel newX newY target) by done.
  set (b1 := swapGems (board s) sel target (Z.to_nat newX) (Z.to_nat newY)).
  assert (forall y x, typeAt b1 y x = typeAt (board s) y x) as Hty.
  { intros y x. unfold typeAt.
    destruct (decide (y = Z.to_nat newY /\ x = Z.to_nat newX)) as [[-> ->]|H1].
    { unfold b1. rewrite cell_swapGems_new, Ht by done. simpl. congruence. }
    destruct (decide (y = gem_y sel /\ x = gem_x sel)) as [[-> ->]|H2].
    { unfold b1. rewrite cell_swapGems_old, Hsel by done. simpl. congruence. }
    unfold b1. rewrite cell_swapGems_other; [done|..].
    - destruct (decide (y = Z.to_nat newY)); [right; intros ?; by apply H1|by left].
    - destruct (decide (y = gem_y sel)); [right; intros ?; by apply H2|by left]. }
  destruct (canMove b1 sel target _ _) eqn:Hc.
  - apply canMove_inRun in Hc; [|done..]. fold b1 in Hc.
    pose proof (proj1 (findMatches_nil _ Hwf) Hnil) as Hno.
    destruct Hc as [Hc|Hc]; apply (inRun_types b1 (board s)) in Hc; try done;
      by apply Hno in Hc.
  - unfold b1. by rewrite revertSwap_swapGems.
Qed.

Lemma same_type_swap_rejected_witness :
  mouseup cyclicRng 0 (mousedown sampleStart 1 4) 0 4
  = Some (endDrag (mousedown sampleStart 1 4)).
Proof.
  apply (same_type_swap_rejected cyclicRng 0 (mousedown sampleStart 1 4)
           (mkGem 1 4 (Some T0) (Some false)) (mkGem 0 4 (Some T0) (Some false)) 0 4);
    try (vm_compute; reflexivity).
  apply checkEngine_spec. vm_compute; reflexivity.
Defined.

(** ** The draws of [initBoard] *)






